(** * InvestDoc: the generation orchestration pipeline

    A shallow embedding of [lib/content-generation.ts] (relevance matcher,
    section generator, content pipeline) and [lib/orchestration.ts] (job
    manager and event bus), with the properties of the specification that
    concern them; and of what stands around them: the template parser, the
    stores and the table reader of [lib/documents.ts], the configuration of
    [lib/config.ts] and the review of a content, with properties read off
    the code.

    Conventions of the embedding.
    - A JavaScript string is a [string] whose characters are the code points
      U+0000..U+00FF (Latin-1); [toLowerCase], [\w] and [\s] are given on
      that range, which they map into itself.
    - A JavaScript number that counts is a [nat] or a [Z]; a progress value,
      which the code obtains by division, is an exact rational [Q].
    - [Date] values are [nat] clock readings; [uuidv4()] results and clock
      readings are inputs of the operation that draws them, the clock being
      read once per synchronous stretch of code.
    - The completion service is outside the program: the outcome of each
      call is an input of the step that resumes after the call.
    - An [async] function is cut at its timers and at its calls of the
      completion service: between two of them it runs as one step, and any
      other operation of the module may happen before the next.
    - The job objects live in [generationJobs] and are named by their place
      there; a callback is known by its identity, and what it receives is
      recorded. The sharing between the copy a callback receives and the
      stored job is the subject of the module [Heap]. *)

From Stdlib Require Import Ascii String NArith ZArith QArith Lqa.
From stdpp Require Import gmap strings list sorting pretty.

Local Open Scope string_scope.
Local Open Scope list_scope.
Local Open Scope nat_scope.

(** ** JavaScript primitives *)

Module JS.

Definition code (c : ascii) : N := N_of_ascii c.

Definition between (lo hi : N) (c : ascii) : bool :=
  ((lo <=? code c) && (code c <=? hi))%N.

(** Characters with a lower-case mapping: A-Z, and U+00C0..U+00DE apart
    from the multiplication sign U+00D7. *)
Definition is_upper (c : ascii) : bool :=
  between 65 90 c || between 192 214 c || between 216 222 c.

Definition toLowerCase_char (c : ascii) : ascii :=
  if is_upper c then ascii_of_N (code c + 32) else c.

Fixpoint toLowerCase (s : string) : string :=
  match s with
  | EmptyString => EmptyString
  | String c s' => String (toLowerCase_char c) (toLowerCase s')
  end.

(** [\w] is [[A-Za-z0-9_]]. *)
Definition is_word (c : ascii) : bool :=
  between 48 57 c || between 65 90 c || between 97 122 c || (code c =? 95)%N.

(** [\s] on Latin-1: TAB, LF, VT, FF, CR, space and U+00A0. *)
Definition is_space (c : ascii) : bool :=
  between 9 13 c || (code c =? 32)%N || (code c =? 160)%N.

(** [s.replace(/[^\w\s]/g, ' ')] *)
Fixpoint replace_nonword (s : string) : string :=
  match s with
  | EmptyString => EmptyString
  | String c s' =>
      String (if is_word c || is_space c then c else " "%char)
             (replace_nonword s')
  end.

(** [s.split(/\s+/)]: the pieces between maximal runs of white space; a
    run at either end leaves an empty piece there, and the empty string
    splits into one empty piece. [cur] is the piece being read, reversed;
    [in_run] tells that the previous character was white space. *)
Fixpoint split_loop (s : string) (cur : string) (in_run : bool) : list string :=
  match s with
  | EmptyString => [String.rev cur]
  | String c s' =>
      if is_space c then
        if in_run then split_loop s' cur true
        else String.rev cur :: split_loop s' EmptyString true
      else split_loop s' (String c cur) false
  end.

Definition split_ws (s : string) : list string :=
  split_loop s EmptyString false.

(** [s.includes(p)] *)
Fixpoint includes (s p : string) : bool :=
  String.prefix p s ||
  match s with
  | EmptyString => false
  | String _ s' => includes s' p
  end.

(** [s.substring(0, n)] *)
Definition substring0 (n : nat) (s : string) : string := String.substring 0 n s.

(** [new Set(xs)] keeps the first occurrence of each element, in order. *)
Definition Set_add {A} `{EqDecision A} (acc : list A) (x : A) : list A :=
  if decide (x ∈ acc) then acc else acc ++ [x].

Definition Set_of {A} `{EqDecision A} (xs : list A) : list A :=
  fold_left Set_add xs [].

(** [xs.sort(compareFn)]: the sort is stable, so for a comparison that is
    a total preorder the result is the one of insertion from the right,
    an element going before the first one it does not exceed. *)
Fixpoint sort_insert {A} (compareFn : A → A → Z) (x : A) (l : list A) : list A :=
  match l with
  | [] => [x]
  | y :: l' =>
      if (compareFn x y <=? 0)%Z then x :: y :: l'
      else y :: sort_insert compareFn x l'
  end.

Fixpoint sort {A} (compareFn : A → A → Z) (l : list A) : list A :=
  match l with
  | [] => []
  | x :: l' => sort_insert compareFn x (sort compareFn l')
  end.

(** [xs.indexOf(x)], -1 when absent. *)
Fixpoint indexOf_from {A} `{EqDecision A} (x : A) (l : list A) (i : Z) : Z :=
  match l with
  | [] => (-1)%Z
  | y :: l' => if decide (y = x) then i else indexOf_from x l' (i + 1)%Z
  end.

Definition indexOf {A} `{EqDecision A} (l : list A) (x : A) : Z :=
  indexOf_from x l 0%Z.

(** An object used as a record of numbers: its own properties in the order
    of their creation. Assigning an existing key keeps its place. *)
Fixpoint obj_set {V} (k : string) (v : V) (o : list (string * V)) : list (string * V) :=
  match o with
  | [] => [(k, v)]
  | (k', v') :: o' =>
      if decide (k' = k) then (k', v) :: o' else (k', v') :: obj_set k v o'
  end.

Definition digit (c : ascii) : option N :=
  if between 48 57 c then Some (code c - 48)%N else None.

Fixpoint digits (s : string) (acc : N) : option N :=
  match s with
  | EmptyString => Some acc
  | String c s' =>
      match digit c with
      | Some d => digits s' (10 * acc + d)%N
      | None => None
      end
  end.

(** A key is an array index when it is the canonical decimal numeral of
    an integer below 2^32 - 1. *)
Definition array_index (k : string) : option N :=
  match k with
  | EmptyString => None
  | String c rest =>
      if (code c =? 48)%N then
        match rest with EmptyString => Some 0%N | _ => None end
      else
        match digits k 0 with
        | Some n => if (n <? 4294967295)%N then Some n else None
        | None => None
        end
  end.

Definition is_array_index (k : string) : bool :=
  match array_index k with Some _ => true | None => false end.

Definition index_of_key (k : string) : Z :=
  match array_index k with Some n => Z.of_N n | None => 0%Z end.

(** [Object.entries(o)]: array-index keys first, in ascending numeric
    order, then the other keys in creation order. *)
Definition Object_entries {V} (o : list (string * V)) : list (string * V) :=
  sort (λ a b, index_of_key a.1 - index_of_key b.1)%Z
       (List.filter (λ kv, is_array_index kv.1) o)
  ++ List.filter (λ kv, negb (is_array_index kv.1)) o.

End JS.

(** ** Data model ([lib/types.ts]) *)

Definition Date := nat.

Inductive SectionType := heading | text | table | chart | image.

#[warnings="-register-all"]
Inductive TemplateSection := mkTemplateSection {
  sec_id : string;
  sec_title : string;
  sec_content : string;
  sec_type : SectionType;
  sec_level : option Z;
  sec_children : list TemplateSection   (* an absent [children] is [[]] *)
}.

Record Template := mkTemplate {
  tpl_id : string;
  tpl_name : string;
  tpl_content : string;
  tpl_structure : option (list TemplateSection)
}.

Record SourceDocument := mkSourceDocument {
  doc_id : string;
  doc_name : string;
  doc_contentType : string;
  doc_content : string;
  doc_uploadedAt : Date;
  doc_size : nat
}.

Record ContentMetadata := mkContentMetadata {
  assetName : string;
  assetType : string;
  location : string;
  client : string;
  date : string;
  otherProperties : list (string * string)
}.

Record SourceReference := mkSourceReference {
  documentId : string;
  excerpt : string
}.

Inductive ReviewStatus := pending | reviewed | approved | rejected.

Record GeneratedSection := mkGeneratedSection {
  gs_id : string;
  templateSectionId : string;
  gs_title : string;
  gs_content : string;
  gs_type : SectionType;
  reviewStatus : ReviewStatus;
  sourceReferences : list SourceReference
}.

Inductive ContentStatus := draft | reviewing | content_completed.

(** The value [validateContentCoherence] returns: section title to issues. *)
Definition ValidationResults := list (string * list string).

Record GeneratedContent := mkGeneratedContent {
  gc_id : string;
  gc_templateId : string;
  sections : list GeneratedSection;
  gc_createdAt : Date;
  gc_updatedAt : Date;
  gc_status : ContentStatus;
  gc_metadata : ContentMetadata;
  validationResults : option ValidationResults
}.

Inductive JobStatus := queued | processing | completed | failed.

Record GenerationJob := mkGenerationJob {
  job_id : string;
  templateId : string;
  sourceDocumentIds : list string;
  status : JobStatus;
  createdAt : Date;
  updatedAt : Date;
  result : option GeneratedContent;
  progress : Q;
  error : option string;
  statusMessage : option string;
  metadata : ContentMetadata
}.

#[global] Instance SectionType_eq_dec : EqDecision SectionType.
Proof. solve_decision. Defined.
#[global] Instance ReviewStatus_eq_dec : EqDecision ReviewStatus.
Proof. solve_decision. Defined.
#[global] Instance JobStatus_eq_dec : EqDecision JobStatus.
Proof. solve_decision. Defined.

(** [template.structure?.sections || []] *)
Definition template_sections (template : Template) : list TemplateSection :=
  default [] (tpl_structure template).

(** ** Relevance matcher ([matchDocumentsToSections]) *)

Definition commonWords : list string :=
  ["this"; "that"; "these"; "those"; "there"; "their"; "they"; "with";
   "from"; "have"; "will"; "would"; "should"; "could"; "about"].

Definition extractKeywords (text : string) : list string :=
  let words :=
    filter (λ word, 3 < String.length word)
           (JS.split_ws (JS.replace_nonword (JS.toLowerCase text))) in
  JS.Set_of (filter (λ word, word ∉ commonWords) words).

(** The body of the loop over [sourceDocuments] in [processSection]: the
    score of one document for one section. *)
Definition scoreDocument (section : TemplateSection) (doc : SourceDocument) : nat :=
  let score := 0 in
  let score :=
    if JS.includes (JS.toLowerCase (doc_content doc))
                   (JS.toLowerCase (sec_title section))
    then score + 5 else score in
  fold_left
    (λ score keyword,
       if JS.includes (JS.toLowerCase (doc_content doc)) (JS.toLowerCase keyword)
       then score + 1 else score)
    (extractKeywords (sec_content section)) score.

(** [docScores] after the loop. *)
Definition docScores (section : TemplateSection) (sourceDocuments : list SourceDocument)
  : list (string * nat) :=
  fold_left (λ o doc, JS.obj_set (doc_id doc) (scoreDocument section doc) o)
            sourceDocuments [].

(** [sortedDocs] of [processSection]. *)
Definition sortedDocs (section : TemplateSection) (sourceDocuments : list SourceDocument)
  : list string :=
  (List.filter (λ e : string * nat, (0 <? e.2)%nat)
     (JS.sort (λ a b : string * nat, Z.of_nat b.2 - Z.of_nat a.2)%Z
        (JS.Object_entries (docScores section sourceDocuments)))).*1.

Fixpoint processSection (sourceDocuments : list SourceDocument)
    (section : TemplateSection) (sectionToDocMap : gmap string (list string))
  : gmap string (list string) :=
  fold_left (λ m child, processSection sourceDocuments child m)
            (sec_children section)
            (<[sec_id section := sortedDocs section sourceDocuments]> sectionToDocMap).

Definition matchDocumentsToSections (template : Template)
    (sourceDocuments : list SourceDocument) : gmap string (list string) :=
  fold_left (λ m section, processSection sourceDocuments section m)
            (template_sections template) ∅.

(** ** Section generator ([generateSectionContent]) *)

Definition nl : string := String (ascii_of_nat 10) EmptyString.

(** The search for the section, lines 99-115: a top-level match ends the
    search; a match among the children of a top-level section is kept while
    the remaining top-level sections are still visited. *)
Fixpoint findSection_loop (sectionId : string) (secs : list TemplateSection)
    (section : option TemplateSection) : option TemplateSection :=
  match secs with
  | [] => section
  | s :: rest =>
      if decide (sec_id s = sectionId) then Some s
      else
        findSection_loop sectionId rest
          (match List.find (λ child, bool_decide (sec_id child = sectionId))
                           (sec_children s) with
           | Some child => Some child
           | None => section
           end)
  end.

(** Candidate documents, lines 121-133. *)
Definition selectDocuments (sourceDocuments : list SourceDocument)
    (relevantDocIds : list string) : list SourceDocument :=
  let relevantDocs :=
    JS.sort (λ a b, JS.indexOf relevantDocIds (doc_id a)
                    - JS.indexOf relevantDocIds (doc_id b))%Z
            (filter (λ doc, doc_id doc ∈ relevantDocIds) sourceDocuments) in
  if (length relevantDocs <? 3)%nat then
    let otherDocs := filter (λ doc, doc_id doc ∉ relevantDocIds) sourceDocuments in
    relevantDocs ++ take (3 - length relevantDocs) otherDocs
  else relevantDocs.

Definition makeReference (doc : SourceDocument) : SourceReference :=
  {| documentId := doc_id doc;
     excerpt := JS.substring0 300 (doc_content doc) ++ "..." |}.

Definition sourceBlock (doc : SourceDocument) : string :=
  "Document: " ++ doc_name doc ++ nl
  ++ JS.substring0 1000 (doc_content doc) ++ "..." ++ nl ++ nl.

(** [generateSectionContent] suspended at its only [await], the call of
    the completion service. The instruction text sent along is built from
    the section, the metadata and [fr_sourceContent]; its wording is not
    modelled, the reply being an input. *)
Record SectionFrame := mkSectionFrame {
  fr_section : TemplateSection;
  fr_documents : list SourceDocument;
  fr_sourceContent : string;
  fr_references : list SourceReference
}.

(** Up to the [await]; [None] is the thrown "Section with ID ... not found". *)
Definition generateSectionContent_begin (template : Template)
    (sourceDocuments : list SourceDocument) (sectionId : string)
    (documentMatches : gmap string (list string)) : option SectionFrame :=
  match findSection_loop sectionId (template_sections template) None with
  | None => None
  | Some section =>
      let relevantDocIds := default [] (documentMatches !! sectionId) in
      let relevantDocs := selectDocuments sourceDocuments relevantDocIds in
      Some {| fr_section := section;
              fr_documents := relevantDocs;
              fr_sourceContent := String.concat nl (sourceBlock <$> relevantDocs);
              fr_references := makeReference <$> relevantDocs |}
  end.

(** After the [await], with the text the service returned. *)
Definition generateSectionContent_end (fr : SectionFrame) (generatedContent : string)
    (uuid : string) : GeneratedSection :=
  {| gs_id := uuid;
     templateSectionId := sec_id (fr_section fr);
     gs_title := sec_title (fr_section fr);
     gs_content := generatedContent;
     gs_type := sec_type (fr_section fr);
     reviewStatus := pending;
     sourceReferences := fr_references fr |}.

(** ** Content pipeline ([generateCompleteContent] and the two passes) *)

(** How an awaited call of the completion service ends. *)
Inductive Outcome :=
| Resolved (text : string)
| Rejected (message : string).

Fixpoint findSectionById_loop (sectionId : string) (secs : list TemplateSection)
  : option TemplateSection :=
  match secs with
  | [] => None
  | section :: rest =>
      if decide (sec_id section = sectionId) then Some section
      else
        match List.find (λ child, bool_decide (sec_id child = sectionId))
                        (sec_children section) with
        | Some child => Some child
        | None => findSectionById_loop sectionId rest
        end
  end.

Definition findSectionById (template : Template) (sectionId : string)
  : option TemplateSection :=
  findSectionById_loop sectionId (template_sections template).

(** [findSectionById(template, a)?.level || 0] *)
Definition levelOf (template : Template) (sectionId : string) : Z :=
  match findSectionById template sectionId with
  | Some section => default 0%Z (sec_level section)
  | None => 0%Z
  end.

Definition flattenedSections (template : Template) : list string :=
  flat_map (λ section, sec_id section :: (sec_id <$> sec_children section))
           (template_sections template).

Definition sortedSections (template : Template) : list string :=
  JS.sort (λ a b, levelOf template a - levelOf template b)%Z
          (flattenedSections template).

(** [(processedCount / totalSections) * 100] *)
Definition sectionProgress (processedCount totalSections : nat) : Q :=
  (inject_Z (Z.of_nat processedCount) / inject_Z (Z.of_nat totalSections)) * 100.

(** [generateCompleteContent] suspended inside its loop, the call for
    [gen_current] in flight and [gen_rest] still to come. *)
Record GenState := mkGenState {
  gen_template : Template;
  gen_sourceDocuments : list SourceDocument;
  gen_metadata : ContentMetadata;
  gen_documentMatches : gmap string (list string);
  gen_sections : list GeneratedSection;
  gen_processedCount : nat;
  gen_totalSections : nat;
  gen_current : SectionFrame;
  gen_rest : list string
}.

Inductive GenStep :=
| GenAwait (g : GenState)
| GenReturn (content : GeneratedContent)
| GenThrow (message : string).

(** The head of the loop over [sortedSections], with [ids] left. *)
Definition gen_loop (template : Template) (sourceDocuments : list SourceDocument)
    (md : ContentMetadata) (documentMatches : gmap string (list string))
    (secs : list GeneratedSection) (processedCount totalSections : nat)
    (ids : list string) (contentUuid : string) (now : Date) : GenStep :=
  match ids with
  | [] =>
      GenReturn {| gc_id := contentUuid;
                   gc_templateId := tpl_id template;
                   sections := secs;
                   gc_createdAt := now;
                   gc_updatedAt := now;
                   gc_status := draft;
                   gc_metadata := md;
                   validationResults := None |}
  | sectionId :: rest =>
      match generateSectionContent_begin template sourceDocuments sectionId
                                         documentMatches with
      | None =>
          GenThrow ("Section with ID " ++ sectionId ++ " not found in template")
      | Some fr =>
          GenAwait {| gen_template := template;
                      gen_sourceDocuments := sourceDocuments;
                      gen_metadata := md;
                      gen_documentMatches := documentMatches;
                      gen_sections := secs;
                      gen_processedCount := processedCount;
                      gen_totalSections := totalSections;
                      gen_current := fr;
                      gen_rest := rest |}
      end
  end.

Definition generateCompleteContent_begin (template : Template)
    (sourceDocuments : list SourceDocument) (md : ContentMetadata)
    (contentUuid : string) (now : Date) : GenStep :=
  let documentMatches := matchDocumentsToSections template sourceDocuments in
  let totalSections := length (flattenedSections template) in
  gen_loop template sourceDocuments md documentMatches [] 0 totalSections
           (sortedSections template) contentUuid now.

(** One turn of the loop after the call in flight has ended: the value
    passed to [progressCallback], if it is reached, and how the function
    goes on. *)
Definition generateCompleteContent_resume (g : GenState) (o : Outcome)
    (sectionUuid contentUuid : string) (now : Date) : option Q * GenStep :=
  match o with
  | Rejected message => (None, GenThrow message)
  | Resolved generated =>
      let secs :=
        gen_sections g
        ++ [generateSectionContent_end (gen_current g) generated sectionUuid] in
      let processedCount := S (gen_processedCount g) in
      (Some (sectionProgress processedCount (gen_totalSections g)),
       gen_loop (gen_template g) (gen_sourceDocuments g) (gen_metadata g)
                (gen_documentMatches g) secs processedCount
                (gen_totalSections g) (gen_rest g) contentUuid now)
  end.

(** What a caller of [generateCompleteContent] observes. *)
Inductive GenEvent :=
| CallFor (sectionId : string)      (* generateSectionContent is called *)
| Progress (value : Q).             (* progressCallback is called *)

Definition call_event (step : GenStep) : list GenEvent :=
  match step with
  | GenAwait g => [CallFor (sec_id (fr_section (gen_current g)))]
  | _ => []
  end.

(** The whole of [generateCompleteContent] against a script of replies, one
    per call with the identifier drawn for the section. [None]: the script
    ended while a call was in flight. *)
Fixpoint gen_run (replies : list (Outcome * string)) (step : GenStep)
    (contentUuid : string) (now : Date) {struct replies}
  : option (list GenEvent * (string + GeneratedContent)) :=
  match step with
  | GenReturn content => Some ([], inr content)
  | GenThrow message => Some ([], inl message)
  | GenAwait g =>
      match replies with
      | [] => None
      | (o, sectionUuid) :: replies' =>
          let '(p, step') :=
            generateCompleteContent_resume g o sectionUuid contentUuid now in
          match gen_run replies' step' contentUuid now with
          | Some (evs, r) =>
              Some (from_option (λ v, [Progress v]) [] p
                    ++ call_event step' ++ evs, r)
          | None => None
          end
      end
  end.

Definition generateCompleteContent (template : Template)
    (sourceDocuments : list SourceDocument) (md : ContentMetadata)
    (replies : list (Outcome * string)) (contentUuid : string) (now : Date)
  : option (list GenEvent * (string + GeneratedContent)) :=
  let step :=
    generateCompleteContent_begin template sourceDocuments md contentUuid now in
  match gen_run replies step contentUuid now with
  | Some (evs, r) => Some (call_event step ++ evs, r)
  | None => None
  end.

(** [enhanceContentQuality]: the sections that get a call of the completion
    service, all started together and awaited with [Promise.all]. *)
Definition needsEnhancement (section : GeneratedSection) : bool :=
  negb (bool_decide (gs_type section = heading)
        || bool_decide (reviewStatus section = approved)).

Definition enhance_pending (content : GeneratedContent) : list GeneratedSection :=
  List.filter needsEnhancement (sections content).

(** [enhancedSections], from the texts of the calls in the order of the
    sections that needed one. [None]: not one text per call. *)
Fixpoint enhancedSections (secs : list GeneratedSection) (texts : list string)
  : option (list GeneratedSection) :=
  match secs with
  | [] => match texts with [] => Some [] | _ :: _ => None end
  | section :: rest =>
      if needsEnhancement section then
        match texts with
        | [] => None
        | enhancedContent :: texts' =>
            cons {| gs_id := gs_id section;
                    templateSectionId := templateSectionId section;
                    gs_title := gs_title section;
                    gs_content := enhancedContent;
                    gs_type := gs_type section;
                    reviewStatus := reviewed;
                    sourceReferences := sourceReferences section |}
              <$> enhancedSections rest texts'
        end
      else cons section <$> enhancedSections rest texts
  end.

Definition improvedContent (content : GeneratedContent)
    (secs : list GeneratedSection) (now : Date) : GeneratedContent :=
  {| gc_id := gc_id content;
     gc_templateId := gc_templateId content;
     sections := secs;
     gc_createdAt := gc_createdAt content;
     gc_updatedAt := now;
     gc_status := gc_status content;
     gc_metadata := gc_metadata content;
     validationResults := validationResults content |}.

(** [JSON.parse] as [validateContentCoherence] uses it; [None] is the
    thrown [SyntaxError]. *)
Class JSONParser := JSON_parse : string → option ValidationResults.

(** [validateContentCoherence] from the end of its call of the completion
    service: the [try] block returns the parsed reply, the [catch] block
    the empty object. *)
Definition validateContentCoherence `{JSONParser} (o : Outcome) : ValidationResults :=
  match o with
  | Resolved validationResult =>
      match JSON_parse validationResult with
      | Some parsed => parsed
      | None => []
      end
  | Rejected _ => []
  end.

Definition finalContent (enhancedContent : GeneratedContent)
    (results : ValidationResults) (now : Date) : GeneratedContent :=
  {| gc_id := gc_id enhancedContent;
     gc_templateId := gc_templateId enhancedContent;
     sections := sections enhancedContent;
     gc_createdAt := gc_createdAt enhancedContent;
     gc_updatedAt := now;
     gc_status := gc_status enhancedContent;
     gc_metadata := gc_metadata enhancedContent;
     validationResults := Some results |}.

(** ** Job manager and event bus ([lib/orchestration.ts]) *)

(** A callback is known by its identity only. *)
Definition Handler := nat.

(** One call of [emitJobEvent]: the copy of the job that was passed and the
    callbacks that received it, in the order of the calls. *)
Record Emission := mkEmission {
  em_job : GenerationJob;
  em_handlers : list Handler
}.

(** Where an execution of [processJob] is suspended. *)
Inductive Stage :=
| Scheduled                                (* [setTimeout(..., 500)] armed *)
| Delay500                                 (* the [await] of line 119 *)
| Generating (g : GenState)                (* inside [generateCompleteContent] *)
| Delay1000 (generatedContent : GeneratedContent)      (* line 140 *)
| Enhancing (generatedContent : GeneratedContent)      (* [Promise.all] *)
| Validating (enhancedContent : GeneratedContent)      (* line 149 *)
| Finished.

(** An execution of [processJob(job, template, sourceDocuments)]; [ex_job]
    is the job object, named by its place in [generationJobs]. *)
Record Execution := mkExecution {
  ex_job : nat;
  ex_template : Template;
  ex_sourceDocuments : list SourceDocument;
  ex_stage : Stage
}.

Record World := mkWorld {
  generationJobs : list GenerationJob;
  jobEventListeners : gmap string (list Handler);
  storedTemplates : list Template;               (* localStorage 'templates' *)
  storedDocuments : list SourceDocument;         (* 'sourceDocuments' *)
  storedContents : list GeneratedContent;        (* 'generatedContents' *)
  executions : list Execution;
  emitted : list Emission
}.

Definition set_jobs (jobs : list GenerationJob) (w : World) : World :=
  {| generationJobs := jobs;
     jobEventListeners := jobEventListeners w;
     storedTemplates := storedTemplates w;
     storedDocuments := storedDocuments w;
     storedContents := storedContents w;
     executions := executions w;
     emitted := emitted w |}.

Definition set_listeners (ls : gmap string (list Handler)) (w : World) : World :=
  {| generationJobs := generationJobs w;
     jobEventListeners := ls;
     storedTemplates := storedTemplates w;
     storedDocuments := storedDocuments w;
     storedContents := storedContents w;
     executions := executions w;
     emitted := emitted w |}.

Definition set_storage (ts : list Template) (ds : list SourceDocument) (w : World) : World :=
  {| generationJobs := generationJobs w;
     jobEventListeners := jobEventListeners w;
     storedTemplates := ts;
     storedDocuments := ds;
     storedContents := storedContents w;
     executions := executions w;
     emitted := emitted w |}.

Definition set_contents (cs : list GeneratedContent) (w : World) : World :=
  {| generationJobs := generationJobs w;
     jobEventListeners := jobEventListeners w;
     storedTemplates := storedTemplates w;
     storedDocuments := storedDocuments w;
     storedContents := cs;
     executions := executions w;
     emitted := emitted w |}.

Definition set_executions (es : list Execution) (w : World) : World :=
  {| generationJobs := generationJobs w;
     jobEventListeners := jobEventListeners w;
     storedTemplates := storedTemplates w;
     storedDocuments := storedDocuments w;
     storedContents := storedContents w;
     executions := es;
     emitted := emitted w |}.

Definition set_emitted (ems : list Emission) (w : World) : World :=
  {| generationJobs := generationJobs w;
     jobEventListeners := jobEventListeners w;
     storedTemplates := storedTemplates w;
     storedDocuments := storedDocuments w;
     storedContents := storedContents w;
     executions := executions w;
     emitted := ems |}.

Definition addJobEventListener (jobId : string) (callback : Handler) (w : World) : World :=
  set_listeners
    (<[jobId := default [] (jobEventListeners w !! jobId) ++ [callback]]>
       (jobEventListeners w)) w.

(** [l.splice(l.indexOf(x), 1)] when [x] occurs. *)
Fixpoint remove_first (callback : Handler) (l : list Handler) : list Handler :=
  match l with
  | [] => []
  | h :: l' => if decide (h = callback) then l' else h :: remove_first callback l'
  end.

Definition removeJobEventListener (jobId : string) (callback : Handler) (w : World) : World :=
  match jobEventListeners w !! jobId with
  | None => w
  | Some l => set_listeners (<[jobId := remove_first callback l]> (jobEventListeners w)) w
  end.

(** [emitJobEvent(job)]: every callback registered for [job.id] is called in
    turn with a copy of [job]. A call without registered callbacks is
    recorded with no receiver. *)
Definition emitJobEvent (job : GenerationJob) (w : World) : World :=
  set_emitted
    (emitted w ++ [{| em_job := job;
                      em_handlers := default [] (jobEventListeners w !! job_id job) |}])
    w.

(** Assignments to the fields of the job object at place [i]. *)
Definition modify_job (i : nat) (f : GenerationJob → GenerationJob) (w : World) : World :=
  set_jobs (alter f i (generationJobs w)) w.

(** [emitJobEvent(job)] for the job object at place [i]. *)
Definition emit_job (i : nat) (w : World) : World :=
  match generationJobs w !! i with
  | Some job => emitJobEvent job w
  | None => w
  end.

(** The object literal of lines 64-73. *)
Definition new_job (template_id : string) (source_ids : list string)
    (md : ContentMetadata) (uuid : string) (now : Date) : GenerationJob :=
  {| job_id := uuid;
     templateId := template_id;
     sourceDocumentIds := source_ids;
     status := queued;
     createdAt := now;
     updatedAt := now;
     result := None;
     progress := 0;
     error := None;
     statusMessage := None;
     metadata := md |}.

(** The new job object is named by the place it is pushed to. *)
Definition createGenerationJob (template_id : string) (source_ids : list string)
    (md : ContentMetadata) (uuid : string) (now : Date) (w : World) : nat * World :=
  let job := new_job template_id source_ids md uuid now in
  (length (generationJobs w),
   emitJobEvent job (set_jobs (generationJobs w ++ [job]) w)).

(** [getJobById(id)]: the first job of the registry with that id, as the
    place of the object. *)
Definition getJobById (id : string) (w : World) : option nat :=
  fst <$> list_find (λ job, job_id job = id) (generationJobs w).

Definition with_progress (p : Q) (message : string) (now : Date)
    (job : GenerationJob) : GenerationJob :=
  {| job_id := job_id job;
     templateId := templateId job;
     sourceDocumentIds := sourceDocumentIds job;
     status := status job;
     createdAt := createdAt job;
     updatedAt := now;
     result := result job;
     progress := p;
     error := error job;
     statusMessage :=
       if decide (message = "") then statusMessage job else Some message;
     metadata := metadata job |}.

Definition updateJobProgress (id : string) (p : Q) (message : string) (now : Date)
    (w : World) : World :=
  match getJobById id w with
  | None => w
  | Some i => emit_job i (modify_job i (with_progress p message now) w)
  end.

(** What an operation draws from its environment: the clock reading and the
    identifiers [uuidv4()] returns (for a section and for a content). *)
Record Env := mkEnv {
  env_now : Date;
  env_uuid : string;
  env_uuid' : string
}.

(** What resumes a suspended execution. *)
Inductive Reply :=
| Timer                                       (* a [setTimeout] elapsed *)
| Completion (o : Outcome)                    (* the awaited call ended *)
| Completions (texts : list string)           (* [Promise.all] fulfilled *)
| CompletionsRejected (message : string).     (* [Promise.all] rejected *)

Definition start_processing (now : Date) (job : GenerationJob) : GenerationJob :=
  {| job_id := job_id job;
     templateId := templateId job;
     sourceDocumentIds := sourceDocumentIds job;
     status := processing;
     createdAt := createdAt job;
     updatedAt := now;
     result := result job;
     progress := progress job;
     error := error job;
     statusMessage := statusMessage job;
     metadata := metadata job |}.

(** The assignments of lines 164-168. *)
Definition complete_job (content : GeneratedContent) (now : Date)
    (job : GenerationJob) : GenerationJob :=
  {| job_id := job_id job;
     templateId := templateId job;
     sourceDocumentIds := sourceDocumentIds job;
     status := completed;
     createdAt := createdAt job;
     updatedAt := now;
     result := Some content;
     progress := 100;
     error := error job;
     statusMessage := Some "Memorandum generation complete";
     metadata := metadata job |}.

(** The assignments of a failure: by the [catch] block of [processJob]
    (lines 174-177) and by [cancelJob] (lines 243-246). *)
Definition fail_with (message note : string) (now : Date)
    (job : GenerationJob) : GenerationJob :=
  {| job_id := job_id job;
     templateId := templateId job;
     sourceDocumentIds := sourceDocumentIds job;
     status := failed;
     createdAt := createdAt job;
     updatedAt := now;
     result := result job;
     progress := progress job;
     error := Some message;
     statusMessage := Some note;
     metadata := metadata job |}.

(** The assignments of [retryJob], lines 272-276. *)
Definition requeue (now : Date) (job : GenerationJob) : GenerationJob :=
  {| job_id := job_id job;
     templateId := templateId job;
     sourceDocumentIds := sourceDocumentIds job;
     status := queued;
     createdAt := createdAt job;
     updatedAt := now;
     result := result job;
     progress := 0;
     error := None;
     statusMessage := Some "Restarting job";
     metadata := metadata job |}.

(** The [catch] block of [processJob]. *)
Definition catch_error (i : nat) (message : string) (now : Date) (w : World) : World :=
  emit_job i (modify_job i (fail_with message "Failed to generate memorandum" now) w).

(** [saveGeneratedContentToStorage]: replace the content of the same id or
    append. *)
Definition saveGeneratedContentToStorage (content : GeneratedContent)
    (contents : list GeneratedContent) : list GeneratedContent :=
  match list_find (λ c, gc_id c = gc_id content) contents with
  | Some (existingIndex, _) => <[existingIndex := content]> contents
  | None => contents ++ [content]
  end.

(** Lines 134-140 of [processJob]. *)
Definition after_generation (id : string) (content : GeneratedContent)
    (now : Date) (w : World) : World * Stage :=
  (updateJobProgress id 75 "Enhancing content quality" now
     (updateJobProgress id 70 "Content generation complete" now w),
   Delay1000 content).

Definition after_gen_step (i : nat) (id : string) (step : GenStep)
    (now : Date) (w : World) : World * Stage :=
  match step with
  | GenAwait g => (w, Generating g)
  | GenReturn content => after_generation id content now w
  | GenThrow message => (catch_error i message now w, Finished)
  end.

(** Lines 144-149 of [processJob], from the end of [Promise.all]. *)
Definition after_enhancement (id : string) (content : GeneratedContent)
    (texts : list string) (now : Date) (w : World) : option (World * Stage) :=
  match enhancedSections (sections content) texts with
  | None => None
  | Some secs =>
      Some (updateJobProgress id 92 "Validating content coherence" now
              (updateJobProgress id 90 "Quality enhancement complete" now w),
            Validating (improvedContent content secs now))
  end.

(** One synchronous stretch of [processJob], from where the execution is
    suspended to its next suspension or its end. Awaits that no timer and
    no call of the completion service stands behind are passed through.
    [None]: the reply does not answer what the execution waits for. *)
Definition processJob_resume `{JSONParser} (e : Execution) (r : Reply) (env : Env)
    (w : World) : option (World * Stage) :=
  match generationJobs w !! ex_job e with
  | None => None
  | Some job =>
      let i := ex_job e in
      let id := job_id job in
      let now := env_now env in
      match ex_stage e, r with
      | Scheduled, Timer =>
          Some (updateJobProgress id 5 "Analyzing documents and template" now
                  (emit_job i (modify_job i (start_processing now) w)),
                Delay500)
      | Delay500, Timer =>
          let w1 := updateJobProgress id 10 "Starting content generation" now w in
          Some (after_gen_step i id
                  (generateCompleteContent_begin (ex_template e)
                     (ex_sourceDocuments e) (metadata job) (env_uuid' env) now)
                  now w1)
      | Generating g, Completion o =>
          let '(p, step) :=
            generateCompleteContent_resume g o (env_uuid env) (env_uuid' env) now in
          let w1 :=
            match p with
            | Some v => updateJobProgress id (10 + v * (6 # 10)) "Generating content" now w
            | None => w
            end in
          Some (after_gen_step i id step now w1)
      | Delay1000 content, Timer =>
          match enhance_pending content with
          | [] => after_enhancement id content [] now w
          | _ :: _ => Some (w, Enhancing content)
          end
      | Enhancing content, Completions texts =>
          after_enhancement id content texts now w
      | Enhancing content, CompletionsRejected message =>
          Some (catch_error i message now w, Finished)
      | Validating enhancedContent, Completion o =>
          let content :=
            finalContent enhancedContent (validateContentCoherence o) now in
          let w1 := updateJobProgress id 95 "Saving generated content" now w in
          let w2 :=
            set_contents (saveGeneratedContentToStorage content (storedContents w1)) w1 in
          Some (emit_job i (modify_job i (complete_job content now) w2), Finished)
      | _, _ => None
      end
  end.

Definition set_stage (st : Stage) (e : Execution) : Execution :=
  {| ex_job := ex_job e;
     ex_template := ex_template e;
     ex_sourceDocuments := ex_sourceDocuments e;
     ex_stage := st |}.

(** The [k]-th execution is resumed. *)
Definition resume `{JSONParser} (k : nat) (r : Reply) (env : Env) (w : World)
  : option World :=
  match executions w !! k with
  | None => None
  | Some e =>
      match processJob_resume e r env w with
      | None => None
      | Some (w', st) => Some (set_executions (<[k := set_stage st e]> (executions w')) w')
      end
  end.

(** [setTimeout(() => processJob(job, template, sourceDocuments), 500)] *)
Definition schedule (i : nat) (template : Template)
    (sourceDocuments : list SourceDocument) (w : World) : World :=
  set_executions
    (executions w ++ [{| ex_job := i; ex_template := template;
                         ex_sourceDocuments := sourceDocuments;
                         ex_stage := Scheduled |}]) w.

(** [startGenerationJob]; [inl] is the thrown validation error. *)
Definition startGenerationJob (template : option Template)
    (sourceDocuments : list SourceDocument) (md : ContentMetadata)
    (env : Env) (w : World) : (string + nat) * World :=
  match template with
  | None => (inl "Template is required", w)
  | Some template =>
      if decide (length sourceDocuments = 0) then
        (inl "At least one source document is required", w)
      else if decide (assetName md = "" ∨ assetType md = "") then
        (inl "Asset metadata is incomplete", w)
      else
        let '(i, w1) :=
          createGenerationJob (tpl_id template) (doc_id <$> sourceDocuments) md
                              (env_uuid env) (env_now env) w in
        (inr i, schedule i template sourceDocuments w1)
  end.

Definition getTemplateById (id : string) (w : World) : option Template :=
  List.find (λ t, bool_decide (tpl_id t = id)) (storedTemplates w).

Definition getDocumentById (id : string) (w : World) : option SourceDocument :=
  List.find (λ d, bool_decide (doc_id d = id)) (storedDocuments w).

Definition cancelJob (id : string) (now : Date) (w : World) : bool * World :=
  match getJobById id w with
  | None => (false, w)
  | Some i =>
      match generationJobs w !! i with
      | None => (false, w)
      | Some job =>
          if decide (status job = completed ∨ status job = failed) then (false, w)
          else
            (true,
             emit_job i
               (modify_job i (fail_with "Job cancelled by user" "Cancelled" now) w))
      end
  end.

Definition retryJob (id : string) (now : Date) (w : World) : bool * World :=
  match getJobById id w with
  | None => (false, w)
  | Some i =>
      match generationJobs w !! i with
      | None => (false, w)
      | Some job =>
          if decide (status job ≠ failed) then (false, w)
          else
            match getTemplateById (templateId job) w with
            | None => (false, w)
            | Some template =>
                let sourceDocuments :=
                  omap (λ id, getDocumentById id w) (sourceDocumentIds job) in
                if decide (length sourceDocuments = 0) then (false, w)
                else
                  (true,
                   schedule i template sourceDocuments
                     (emit_job i (modify_job i (requeue now) w)))
            end
      end
  end.

(** ** Runs of the job manager *)

(** What can happen to the module, one event-loop task at a time. *)
Inductive Op :=
| OpStart (template : option Template) (sourceDocuments : list SourceDocument)
          (md : ContentMetadata) (env : Env)
| OpCreate (template_id : string) (source_ids : list string)
           (md : ContentMetadata) (env : Env)
| OpCancel (id : string) (now : Date)
| OpRetry (id : string) (now : Date)
| OpAddListener (id : string) (callback : Handler)
| OpRemoveListener (id : string) (callback : Handler)
| OpStorage (ts : list Template) (ds : list SourceDocument)
| OpResume (k : nat) (r : Reply) (env : Env).

(** [uuidv4()] does not return an identifier already in use. *)
Definition fresh_id (uuid : string) (w : World) : Prop :=
  uuid ∉ job_id <$> generationJobs w.

(** [None]: the operation cannot happen in [w]. *)
Definition step `{JSONParser} (op : Op) (w : World) : option World :=
  match op with
  | OpStart template sourceDocuments md env =>
      if decide (fresh_id (env_uuid env) w)
      then Some (startGenerationJob template sourceDocuments md env w).2
      else None
  | OpCreate template_id source_ids md env =>
      if decide (fresh_id (env_uuid env) w)
      then Some (createGenerationJob template_id source_ids md
                   (env_uuid env) (env_now env) w).2
      else None
  | OpCancel id now => Some (cancelJob id now w).2
  | OpRetry id now => Some (retryJob id now w).2
  | OpAddListener id callback => Some (addJobEventListener id callback w)
  | OpRemoveListener id callback => Some (removeJobEventListener id callback w)
  | OpStorage ts ds => Some (set_storage ts ds w)
  | OpResume k r env => resume k r env w
  end.

Fixpoint run `{JSONParser} (ops : list Op) (w : World) : option World :=
  match ops with
  | [] => Some w
  | op :: ops' =>
      match step op w with
      | Some w' => run ops' w'
      | None => None
      end
  end.

Definition initial : World :=
  {| generationJobs := [];
     jobEventListeners := ∅;
     storedTemplates := [];
     storedDocuments := [];
     storedContents := [];
     executions := [];
     emitted := [] |}.

(** The worlds the module can be in: from the empty registry by any
    operations in any order. *)
Inductive reachable `{JSONParser} : World → Prop :=
| reachable_initial : reachable initial
| reachable_step w op w' :
    reachable w → step op w = Some w' → reachable w'.

(** An execution that has not run to its end. *)
Definition live (e : Execution) : Prop := ex_stage e ≠ Finished.

(** [cancelJob] is not applied to a job that an execution of [processJob]
    is scheduled for or works on. *)
Definition cancel_idle (op : Op) (w : World) : Prop :=
  match op with
  | OpCancel id _ =>
      ∀ i e, getJobById id w = Some i → e ∈ executions w → live e → ex_job e ≠ i
  | _ => True
  end.

Inductive reachable_idle `{JSONParser} : World → Prop :=
| reachable_idle_initial : reachable_idle initial
| reachable_idle_step w op w' :
    reachable_idle w → cancel_idle op w → step op w = Some w' → reachable_idle w'.

(** Execution [k] alone is resumed, once per reply. *)
Definition drive `{JSONParser} (k : nat) (rs : list (Reply * Env)) (w : World)
  : option World :=
  run ((λ r, OpResume k r.1 r.2) <$> rs) w.

(** The emissions since the world had [n] of them. *)
Definition emitted_since (n : nat) (w : World) : list GenerationJob :=
  em_job <$> drop n (emitted w).

(** ** The writes of an execution

    [processJob] never reads the fields it assigns: what a stretch of it
    writes to its job is determined by the stage, the reply and the
    metadata of the job. *)

Inductive Write :=
| WStart                                     (* lines 111-113 *)
| WProgress (p : Q) (message : string)       (* a call of [updateJobProgress] *)
| WComplete (content : GeneratedContent)     (* lines 164-169 *)
| WFail (message : string).                  (* the [catch] block *)

Definition apply_write (now : Date) (wr : Write) : GenerationJob → GenerationJob :=
  match wr with
  | WStart => start_processing now
  | WProgress p message => with_progress p message now
  | WComplete content => complete_job content now
  | WFail message => fail_with message "Failed to generate memorandum" now
  end.

(** The job after the writes, and the copies emitted after each. *)
Definition written (now : Date) (ws : list Write) (job : GenerationJob) : GenerationJob :=
  fold_left (λ j wr, apply_write now wr j) ws job.

Fixpoint snapshots (now : Date) (ws : list Write) (job : GenerationJob)
  : list GenerationJob :=
  match ws with
  | [] => []
  | wr :: ws' => apply_write now wr job :: snapshots now ws' (apply_write now wr job)
  end.

Definition gen_writes (step : GenStep) : list Write * Stage :=
  match step with
  | GenAwait g => ([], Generating g)
  | GenReturn content =>
      ([WProgress 70 "Content generation complete";
        WProgress 75 "Enhancing content quality"], Delay1000 content)
  | GenThrow message => ([WFail message], Finished)
  end.

Definition enhancement_writes (content : GeneratedContent) (texts : list string)
    (now : Date) : option (list Write * Stage) :=
  match enhancedSections (sections content) texts with
  | None => None
  | Some secs =>
      Some ([WProgress 90 "Quality enhancement complete";
             WProgress 92 "Validating content coherence"],
            Validating (improvedContent content secs now))
  end.

Definition writes `{JSONParser} (e : Execution) (r : Reply) (env : Env)
    (job : GenerationJob) : option (list Write * Stage) :=
  let now := env_now env in
  match ex_stage e, r with
  | Scheduled, Timer =>
      Some ([WStart; WProgress 5 "Analyzing documents and template"], Delay500)
  | Delay500, Timer =>
      let '(ws, st) :=
        gen_writes (generateCompleteContent_begin (ex_template e)
                      (ex_sourceDocuments e) (metadata job) (env_uuid' env) now) in
      Some (WProgress 10 "Starting content generation" :: ws, st)
  | Generating g, Completion o =>
      let '(p, step) :=
        generateCompleteContent_resume g o (env_uuid env) (env_uuid' env) now in
      let '(ws, st) := gen_writes step in
      Some (match p with
            | Some v => [WProgress (10 + v * (6 # 10)) "Generating content"]
            | None => []
            end ++ ws, st)
  | Delay1000 content, Timer =>
      match enhance_pending content with
      | [] => enhancement_writes content [] now
      | _ :: _ => Some ([], Enhancing content)
      end
  | Enhancing content, Completions texts => enhancement_writes content texts now
  | Enhancing content, CompletionsRejected message => Some ([WFail message], Finished)
  | Validating enhancedContent, Completion o =>
      Some ([WProgress 95 "Saving generated content";
             WComplete (finalContent enhancedContent (validateContentCoherence o) now)],
            Finished)
  | _, _ => None
  end.

(** The copy [emitJobEvent] passes in [w], with its receivers. *)
Definition emission (w : World) (job : GenerationJob) : Emission :=
  {| em_job := job;
     em_handlers := default [] (jobEventListeners w !! job_id job) |}.

(** [w'] is [w] after the writes [ws] to the job object at place [i],
    which held [job], and nothing else but a change of the stored contents. *)
Definition effect (i : nat) (job : GenerationJob) (now : Date) (ws : list Write)
    (w w' : World) : Prop :=
  generationJobs w' = <[i := written now ws job]> (generationJobs w)
  ∧ emitted w' = emitted w ++ (emission w <$> snapshots now ws job)
  ∧ executions w' = executions w
  ∧ jobEventListeners w' = jobEventListeners w
  ∧ storedTemplates w' = storedTemplates w
  ∧ storedDocuments w' = storedDocuments w.

Definition is_progress (wr : Write) : Prop :=
  match wr with WProgress _ _ => True | _ => False end.

(** The status of the job an execution at some stage works on, when no
    other operation has touched the job. *)
Definition stage_status (st : Stage) : JobStatus :=
  match st with Scheduled => queued | _ => processing end.

(** No two jobs of the registry have the same identifier. *)
Definition registered_once (w : World) : Prop :=
  NoDup (job_id <$> generationJobs w).



Definition progress_le (a b : GenerationJob) : Prop := (progress a <= progress b)%Q.


(** ** The words of the specification *)

(** Every node of a section forest, parents before their children. *)
Fixpoint section_nodes (section : TemplateSection) : list TemplateSection :=
  section :: flat_map section_nodes (sec_children section).

Definition forest_nodes (template : Template) : list TemplateSection :=
  flat_map section_nodes (template_sections template).

(** The top-level sections, each followed by its children. *)
Definition nodes_to_depth2 (template : Template) : list TemplateSection :=
  flat_map (λ section, section :: sec_children section) (template_sections template).

(** Section 4.3, stage 2: the linear sequence holds every section node of
    the forest exactly once. *)
Definition covers_forest (template : Template) : Prop :=
  sortedSections template ≡ₚ sec_id <$> forest_nodes template.

(** Section 4.3, stage 2: the sections are generated one after the other,
    and the progress reported after each is (completed / total) * 100. *)
Fixpoint expected_trace (total processed : nat) (ids : list string) : list GenEvent :=
  match ids with
  | [] => []
  | id :: rest =>
      CallFor id :: Progress (sectionProgress (S processed) total)
      :: expected_trace total (S processed) rest
  end.




(** One assignment [sectionToDocMap.set(section.id, sortedDocs)]. *)
Definition record_ranking (docs : list SourceDocument)
    (m : gmap string (list string)) (section : TemplateSection)
  : gmap string (list string) :=
  <[sec_id section := sortedDocs section docs]> m.

(** Section 4.2, step 2: the relevance-ranked list for the section, as
    documents. *)
Definition rankedDocuments (sourceDocuments : list SourceDocument)
    (relevantDocIds : list string) : list SourceDocument :=
  JS.sort (λ a b, JS.indexOf relevantDocIds (doc_id a)
                  - JS.indexOf relevantDocIds (doc_id b))%Z
          (filter (λ doc, doc_id doc ∈ relevantDocIds) sourceDocuments).



(** Section 4.3, stage 4: the call of the completion service failed, or
    its reply does not parse. *)
Definition validation_failed `{JSONParser} (o : Outcome) : Prop :=
  match o with
  | Rejected _ => True
  | Resolved validationResult => JSON_parse validationResult = None
  end.

(** Section 8: [result] is present iff the status is [completed]; [error]
    is present iff the status is [failed]. *)
Definition result_error_consistent (job : GenerationJob) : Prop :=
  (is_Some (result job) ↔ status job = completed)
  ∧ (is_Some (error job) ↔ status job = failed).

(** One half of it: a completed job has a result, a failed job an error. *)
Definition result_error_present (job : GenerationJob) : Prop :=
  (status job = completed → is_Some (result job))
  ∧ (status job = failed → is_Some (error job)).

(** What holds of the registry and the executions as long as no job is
    cancelled under an execution: the identifiers are distinct; an
    execution that has not ended works on a job of the status of its stage,
    and on that job alone; and result and error go with the status. *)
Definition idle_invariant (w : World) : Prop :=
  registered_once w
  ∧ (∀ k e, executions w !! k = Some e → live e →
       ∃ job, generationJobs w !! ex_job e = Some job
              ∧ status job = stage_status (ex_stage e))
  ∧ (∀ k1 k2 e1 e2,
       executions w !! k1 = Some e1 → executions w !! k2 = Some e2 →
       live e1 → live e2 → ex_job e1 = ex_job e2 → k1 = k2)
  ∧ Forall result_error_consistent (generationJobs w).

Definition always_consistent `{JSONParser} : Prop :=
  ∀ w, reachable w → Forall result_error_consistent (generationJobs w).

(** ** The event bus on the heap

    [emitJobEvent] passes [{ ...job }], a new object with the properties of
    the job. What the properties refer to is not copied: the model below
    has the objects in a heap, so that it shows which ones the callback and
    the registry share. *)

Module Heap.

Definition loc := nat.

Inductive value :=
| Undefined
| Str (s : string)
| Num (n : Z)
| Ref (l : loc).

(** An object: its own properties in creation order. *)
Definition object := list (string * value).

(** The heap: the object at location [l] is the [l]-th one. *)
Definition heap := list object.

Fixpoint get (o : object) (k : string) : value :=
  match o with
  | [] => Undefined
  | (k', v) :: o' => if decide (k' = k) then v else get o' k
  end.

(** [{ ...o }] *)
Definition spread (l : loc) (h : heap) : loc * heap :=
  (length h, h ++ [default [] (h !! l)]).

(** An assignment [job.p1. ... .pn.field = v] in the body of a callback
    whose parameter is [job]. *)
Record Assignment := mkAssignment {
  path : list string;
  field : string;
  assigned : value
}.

(** A callback, by the assignments it makes. *)
Definition Callback := list Assignment.

Fixpoint resolve (h : heap) (l : loc) (p : list string) : option loc :=
  match p with
  | [] => Some l
  | k :: p' =>
      match h !! l with
      | Some o => match get o k with Ref l' => resolve h l' p' | _ => None end
      | None => None
      end
  end.

(** An assignment through a path that does not lead to an object assigns
    nothing. *)
Definition assign (received : loc) (a : Assignment) (h : heap) : heap :=
  match resolve h received (path a) with
  | Some l => alter (JS.obj_set (field a) (assigned a)) l h
  | None => h
  end.

Definition call (callback : Callback) (received : loc) (h : heap) : heap :=
  fold_left (λ h a, assign received a h) callback h.

(** [emitJobEvent(job)], lines 50-56. *)
Definition emitJobEvent (jobEventListeners : gmap string (list Callback))
    (job : loc) (h : heap) : heap :=
  match h !! job with
  | None => h
  | Some o =>
      match get o "id" with
      | Str id =>
          match jobEventListeners !! id with
          | None => h
          | Some callbacks =>
              fold_left
                (λ h callback, let '(copy, h') := spread job h in call callback copy h')
                callbacks h
          end
      | _ => h
      end
  end.

(** The value of a property as a reader of the job sees it, following
    references. *)
Definition read (h : heap) (l : loc) (p : list string) (k : string) : value :=
  match resolve h l p with
  | Some l' => get (default [] (h !! l')) k
  | None => Undefined
  end.

(** Section 4.5: no mutation a handler performs on the object it
    receives changes the stored job. *)
Definition handlers_cannot_change_job : Prop :=
  ∀ (jobEventListeners : gmap string (list Callback)) (job : loc) (h : heap)
    (p : list string) (k : string),
    read (emitJobEvent jobEventListeners job h) job p k = read h job p k.

End Heap.

(** ** Template parser ([parseTemplateContent] of [lib/documents.ts]) *)

Module Text.

(** [s.split(sep)] for a separator of one character: the pieces between
    its occurrences, the empty string giving one empty piece. *)
Fixpoint split (sep : ascii) (s : string) : list string :=
  match s with
  | EmptyString => [EmptyString]
  | String c s' =>
      if decide (c = sep) then EmptyString :: split sep s'
      else
        match split sep s' with
        | piece :: pieces => String c piece :: pieces
        | [] => [String c EmptyString]
        end
  end.

(** [s.trim()]: the white space of [trim] is the one of [\s]. *)
Fixpoint trimStart (s : string) : string :=
  match s with
  | EmptyString => EmptyString
  | String c s' => if JS.is_space c then trimStart s' else s
  end.

Fixpoint trimEnd (s : string) : string :=
  match s with
  | EmptyString => EmptyString
  | String c s' =>
      match trimEnd s' with
      | EmptyString => if JS.is_space c then EmptyString else String c EmptyString
      | rest => String c rest
      end
  end.

Definition trim (s : string) : string := trimEnd (trimStart s).

(** [s.startsWith(p)] *)
Definition startsWith (p s : string) : bool := String.prefix p s.

(** [s.substring(n)] *)
Fixpoint substring_from (n : nat) (s : string) : string :=
  match n, s with
  | 0, _ => s
  | S n', String _ s' => substring_from n' s'
  | S _, EmptyString => EmptyString
  end.

Definition LF : ascii := ascii_of_nat 10.
Definition TAB : ascii := ascii_of_nat 9.

End Text.

(** The helper [createSection] of the parser, with the identifier
    [uuidv4()] returned. *)
Definition createSection (uuid title : string) (level : Z) : TemplateSection :=
  {| sec_id := uuid;
     sec_title := Text.trim title;
     sec_content := "";
     sec_type := heading;
     sec_level := Some level;
     sec_children := [] |}.

(** [section.children.push(child)] *)
Definition push_child (child section : TemplateSection) : TemplateSection :=
  {| sec_id := sec_id section;
     sec_title := sec_title section;
     sec_content := sec_content section;
     sec_type := sec_type section;
     sec_level := sec_level section;
     sec_children := sec_children section ++ [child] |}.

(** [section.content += line + '\n'] and the change of type that follows
    it (lines 66-71 and 75-80). *)
Definition append_line (line : string) (section : TemplateSection) : TemplateSection :=
  let content := (sec_content section ++ line ++ nl)%string in
  {| sec_id := sec_id section;
     sec_title := sec_title section;
     sec_content := content;
     sec_type :=
       if decide (sec_type section = heading ∧ Text.trim content ≠ "")
       then text else sec_type section;
     sec_level := sec_level section;
     sec_children := sec_children section |}.

(** An assignment to the child at place [j] of a section. *)
Definition alter_child (f : TemplateSection → TemplateSection) (j : nat)
    (section : TemplateSection) : TemplateSection :=
  {| sec_id := sec_id section;
     sec_title := sec_title section;
     sec_content := sec_content section;
     sec_type := sec_type section;
     sec_level := sec_level section;
     sec_children := alter f j (sec_children section) |}.

(** The variables of the loop. [currentSubSection] is an object among the
    children of [currentSection]: it is named by its place there. *)
Record Parser := mkParser {
  parsed : list TemplateSection;                 (* [sections] *)
  currentSection : option TemplateSection;
  currentSubSection : option nat;
  drawn : nat                                    (* calls of [uuidv4()] so far *)
}.

(** The body of the loop over the lines; [uuidv4 k] is what the [k]-th
    call of [uuidv4()] returns. *)
Definition parse_line (uuidv4 : nat → string) (p : Parser) (raw : string) : Parser :=
  let line := Text.trim raw in
  if decide (line = "") then p
  else if Text.startsWith "# " line then
    {| parsed := parsed p ++ option_list (currentSection p);
       currentSection :=
         Some (createSection (uuidv4 (drawn p)) (Text.substring_from 2 line) 1);
       currentSubSection := None;
       drawn := S (drawn p) |}
  else if Text.startsWith "## " line then
    match currentSection p with
    | Some section =>
        {| parsed := parsed p;
           currentSection :=
             Some (push_child
                     (createSection (uuidv4 (drawn p)) (Text.substring_from 3 line) 2)
                     section);
           currentSubSection := Some (length (sec_children section));
           drawn := S (drawn p) |}
    | None => p
    end
  else if Text.startsWith "### " line then
    let newSubSection :=
      createSection (uuidv4 (drawn p)) (Text.substring_from 4 line) 3 in
    {| parsed := parsed p;
       currentSection :=
         match currentSubSection p, currentSection p with
         | Some j, Some section => Some (alter_child (push_child newSubSection) j section)
         | None, Some section => Some (push_child newSubSection section)
         | _, None => None
         end;
       currentSubSection := currentSubSection p;
       drawn := S (drawn p) |}
  else
    {| parsed := parsed p;
       currentSection :=
         match currentSubSection p, currentSection p with
         | Some j, Some section => Some (alter_child (append_line line) j section)
         | None, Some section => Some (append_line line section)
         | _, None => None
         end;
       currentSubSection := currentSubSection p;
       drawn := drawn p |}.

Definition parse_lines (uuidv4 : nat → string) (lines : list string) : Parser :=
  fold_left (parse_line uuidv4) lines
    {| parsed := []; currentSection := None; currentSubSection := None; drawn := 0 |}.

(** The [sections] of the structure [parseTemplateContent] returns. *)
Definition parseTemplateContent (uuidv4 : nat → string) (content : string)
  : list TemplateSection :=
  let p := parse_lines uuidv4 (Text.split Text.LF content) in
  parsed p ++ option_list (currentSection p).

(** [loadFileAsTemplate] once the file is read, and [generateSampleTemplate]
    with its text as [content]: the identifier of the template is drawn
    first, those of the sections after it. *)
Definition templateOf (uuidv4 : nat → string) (name content : string) : Template :=
  {| tpl_id := uuidv4 0;
     tpl_name := name;
     tpl_content := content;
     tpl_structure := Some (parseTemplateContent (λ k, uuidv4 (S k)) content) |}.

(** ** Storage ([lib/documents.ts])

    The text kept under a key is the one [JSON.stringify] wrote there; a
    stored list is the value it parses to, the dates revived. *)

Definition saveDocumentToStorage (document : SourceDocument) (w : World) : World :=
  set_storage (storedTemplates w) (storedDocuments w ++ [document]) w.

Definition saveTemplateToStorage (template : Template) (w : World) : World :=
  set_storage (storedTemplates w ++ [template]) (storedDocuments w) w.

Definition getGeneratedContentById (id : string) (w : World) : option GeneratedContent :=
  List.find (λ c, bool_decide (gc_id c = id)) (storedContents w).

Definition deleteGeneratedContent (id : string) (w : World) : World :=
  set_contents (filter (λ c, gc_id c ≠ id) (storedContents w)) w.

Definition deleteSourceDocument (id : string) (w : World) : World :=
  set_storage (storedTemplates w) (filter (λ d, doc_id d ≠ id) (storedDocuments w)) w.

Definition deleteTemplate (id : string) (w : World) : World :=
  set_storage (filter (λ t, tpl_id t ≠ id) (storedTemplates w)) (storedDocuments w) w.

(** The store of the generated contents after [saveGeneratedContentToStorage]. *)
Definition saveContent (content : GeneratedContent) (w : World) : World :=
  set_contents (saveGeneratedContentToStorage content (storedContents w)) w.

(** ** More of the job manager *)


(** The callbacks [emitJobEvent] would call for a job of identifier [id]. *)
Definition listeners_of (id : string) (w : World) : list Handler :=
  default [] (jobEventListeners w !! id).

(** ** More of the content pipeline *)


(** ** Review of a generated content ([ContentViewPage]) *)

(** The callback of [content.sections.map] in [handleUpdateSection]. *)
Definition updateSection (sectionId newContent : string) (st : ReviewStatus)
    (section : GeneratedSection) : GeneratedSection :=
  if decide (gs_id section = sectionId) then
    {| gs_id := gs_id section;
       templateSectionId := templateSectionId section;
       gs_title := gs_title section;
       gs_content := newContent;
       gs_type := gs_type section;
       reviewStatus := st;
       sourceReferences := sourceReferences section |}
  else section.

(** [handleUpdateSection]: the state [content] of the page and the store. *)
Definition handleUpdateSection (sectionId newContent : string) (st : ReviewStatus)
    (now : Date) (content : option GeneratedContent) (w : World)
  : option GeneratedContent * World :=
  match content with
  | None => (None, w)
  | Some content =>
      let updatedContent :=
        {| gc_id := gc_id content;
           gc_templateId := gc_templateId content;
           sections := updateSection sectionId newContent st <$> sections content;
           gc_createdAt := gc_createdAt content;
           gc_updatedAt := now;
           gc_status := gc_status content;
           gc_metadata := gc_metadata content;
           validationResults := validationResults content |} in
      (Some updatedContent, saveContent updatedContent w)
  end.

(** ** Words for the properties of the parser *)

(** A section made from a [###] line: nothing below it, no text of its own. *)
Definition third_level (section : TemplateSection) : Prop :=
  sec_level section = Some 3%Z ∧ sec_children section = []
  ∧ sec_content section = "" ∧ sec_type section = heading.

Definition second_level (section : TemplateSection) : Prop :=
  sec_level section = Some 2%Z ∧ Forall third_level (sec_children section).

Definition first_level (section : TemplateSection) : Prop :=
  sec_level section = Some 1%Z
  ∧ Forall (λ child, second_level child ∨ third_level child) (sec_children section).

(** A line that [parseTemplateContent] takes for a heading of the first
    level. *)
Definition is_top_heading (raw : string) : bool :=
  Text.startsWith "# " (Text.trim raw).

(** Every node of a list of sections, parents before their children. *)
Definition nodes_of (secs : list TemplateSection) : list TemplateSection :=
  flat_map section_nodes secs.

(** The type of a section tells whether it has text. *)
Definition typed_by_content (section : TemplateSection) : Prop :=
  (sec_content section = "" ∧ sec_type section = heading)
  ∨ (sec_content section ≠ "" ∧ sec_type section = text).

(** The sections the parser has so far: those pushed and the current one. *)
Definition top_sections (p : Parser) : list TemplateSection :=
  parsed p ++ option_list (currentSection p).

(** What the loop of the parser keeps: the sections are of the first
    level, and [currentSubSection] is a child of the second level of
    [currentSection]. *)
Definition parser_levels (p : Parser) : Prop :=
  Forall first_level (parsed p)
  ∧ match currentSection p with
    | Some section =>
        first_level section
        ∧ match currentSubSection p with
          | Some j => ∃ child, sec_children section !! j = Some child ∧ second_level child
          | None => True
          end
    | None => currentSubSection p = None
    end.

(** The text of a section is empty or begins with a character that is not
    white space, and its type goes with it. *)
Definition text_begins (section : TemplateSection) : Prop :=
  (sec_content section = "" ∧ sec_type section = heading)
  ∨ (∃ c rest, sec_content section = String c rest ∧ JS.is_space c = false
               ∧ sec_type section = text).

(** The title of a heading line of the first level. *)
Definition top_title (raw : string) : string :=
  Text.trim (Text.substring_from 2 (Text.trim raw)).

(** ** Words for the properties of the job manager *)

(** What a job is created with and no operation assigns afterwards. *)
Definition same_identity (a b : GenerationJob) : Prop :=
  job_id a = job_id b ∧ templateId a = templateId b
  ∧ sourceDocumentIds a = sourceDocumentIds b
  ∧ createdAt a = createdAt b ∧ metadata a = metadata b.

(** A suspended [generateCompleteContent] has only sections of the
    flattened sequence left, and it has not thrown. *)
Definition gen_in_template (step : GenStep) : Prop :=
  match step with
  | GenAwait g => gen_rest g ⊆ flattenedSections (gen_template g)
  | GenReturn _ => True
  | GenThrow _ => False
  end.

(** ** Words for the properties of the matcher and the generator *)

(** Every character of a string has a property. *)
Fixpoint all_chars (P : ascii → Prop) (s : string) : Prop :=
  match s with
  | EmptyString => True
  | String c s' => P c ∧ all_chars P s'
  end.

(** A character of [[a-z0-9_]]. *)
Definition keyword_char (c : ascii) : Prop :=
  JS.is_word c = true ∧ JS.is_upper c = false.

(** What a section is if it was enhanced: the text of the service, and
    reviewed. *)
Definition enhanced_from (section : GeneratedSection) (enhancedContent : string)
    (enhanced : GeneratedSection) : Prop :=
  gs_id enhanced = gs_id section
  ∧ templateSectionId enhanced = templateSectionId section
  ∧ gs_title enhanced = gs_title section
  ∧ gs_type enhanced = gs_type section
  ∧ sourceReferences enhanced = sourceReferences section
  ∧ gs_content enhanced = enhancedContent
  ∧ reviewStatus enhanced = reviewed.

(** ** Configuration ([lib/config.ts]) *)

(** The object kept under 'appConfig': keys to strings. *)
Definition LocalConfig := list (string * string).

(** [o[k]]; [None] is [undefined]. *)
Fixpoint obj_get {V} (o : list (string * V)) (k : string) : option V :=
  match o with
  | [] => None
  | (k', v) :: o' => if decide (k' = k) then Some v else obj_get o' k
  end.

(** [{ ...a, ...b }] *)
Definition spread2 {V} (a b : list (string * V)) : list (string * V) :=
  fold_left (λ o kv, JS.obj_set kv.1 kv.2 o) (JS.Object_entries b) (JS.Object_entries a).

(** [getLocalConfig]; the item is [None] when it is absent or its text does
    not parse, the cases in which the function returns the empty object. *)
Definition getLocalConfig (item : option LocalConfig) : LocalConfig :=
  default [] item.

(** [setLocalConfig]: the item afterwards. What is read back has its keys
    in the order in which the stored text lists them. *)
Definition setLocalConfig (config : LocalConfig) (item : option LocalConfig)
  : option LocalConfig :=
  Some (JS.Object_entries (spread2 (getLocalConfig item) config)).

Definition saveApiKey (key value : string) (item : option LocalConfig)
  : option LocalConfig :=
  setLocalConfig [(key, value)] item.

Definition saveConfig (config : LocalConfig) (item : option LocalConfig)
  : option LocalConfig :=
  setLocalConfig config item.

Record Config {Number : Type} := mkConfig {
  apiKeys_openrouter : string;
  ai_defaultModel : string;
  ai_temperature : Number;
  ai_maxTokens : Number;
  app_name : string;
  app_environment : string
}.
Arguments Config : clear implicits.

(** [localConfig.KEY || fallback]: the empty string counts as absent. *)
Definition or_default (localConfig : LocalConfig) (key fallback : string) : string :=
  match obj_get localConfig key with
  | Some value => if decide (value = "") then fallback else value
  | None => fallback
  end.

(** [localConfig.KEY ? parse(localConfig.KEY) : fallback] *)
Definition parsed_or_default {Number} (parse : string → Number)
    (localConfig : LocalConfig) (key : string) (fallback : Number) : Number :=
  match obj_get localConfig key with
  | Some value => if decide (value = "") then fallback else parse value
  | None => fallback
  end.

(** [getConfig]; [defaultConfig] is the value the module computed when it
    was loaded, [parseFloat] and [parseInt] are those of the language. *)
Definition getConfig {Number} (parseFloat parseInt : string → Number)
    (defaultConfig : Config Number) (item : option LocalConfig) : Config Number :=
  let localConfig := getLocalConfig item in
  {| apiKeys_openrouter :=
       or_default localConfig "OPENROUTER_API_KEY" (apiKeys_openrouter defaultConfig);
     ai_defaultModel :=
       or_default localConfig "DEFAULT_AI_MODEL" (ai_defaultModel defaultConfig);
     ai_temperature :=
       parsed_or_default parseFloat localConfig "DEFAULT_TEMPERATURE"
                         (ai_temperature defaultConfig);
     ai_maxTokens :=
       parsed_or_default parseInt localConfig "MAX_TOKENS" (ai_maxTokens defaultConfig);
     app_name := or_default localConfig "APP_NAME" (app_name defaultConfig);
     app_environment := or_default localConfig "APP_ENV" (app_environment defaultConfig) |}.

(** [isApiKeyConfigured] of [lib/api.ts] *)
Definition isApiKeyConfigured {Number} (parseFloat parseInt : string → Number)
    (defaultConfig : Config Number) (item : option LocalConfig) : bool :=
  negb (bool_decide
          (apiKeys_openrouter (getConfig parseFloat parseInt defaultConfig item) = "")).

(** An object has one value for a key. *)
Definition is_object {V} (o : list (string * V)) : Prop := NoDup o.*1.

(** ** Tables in a text ([detectAndParseTabularData] of [lib/documents.ts]) *)

(** The lines of the text, trimmed, the empty ones left out. *)
Definition text_lines (text : string) : list string :=
  filter (λ line, 0 < String.length line) (Text.trim <$> Text.split Text.LF text).

Definition hasMultipleDelimiters (line : string) : bool :=
  (JS.includes line "|" && (2 <? length (Text.split "|" line)))
  || (JS.includes line (String Text.TAB "")
      && (1 <? length (Text.split Text.TAB line))).

(** The variables of the first pass. *)
Record Scan := mkScan {
  tables : list (list string);
  currentTable : list string;
  inTable : bool
}.

(** The body of the loop of the first pass. *)
Definition scan_line (st : Scan) (line : string) : Scan :=
  if hasMultipleDelimiters line then
    {| tables := tables st;
       currentTable := (if inTable st then currentTable st else []) ++ [line];
       inTable := true |}
  else if inTable st then
    {| tables :=
         if 1 <? length (currentTable st)
         then tables st ++ [currentTable st] else tables st;
       currentTable := [];
       inTable := false |}
  else st.

(** [tables] after the first pass. *)
Definition detectTables (lines : list string) : list (list string) :=
  let st :=
    fold_left scan_line lines {| tables := []; currentTable := []; inTable := false |} in
  if inTable st && (1 <? length (currentTable st))
  then tables st ++ [currentTable st] else tables st.

(** The cells of a line: [line.split(delimiter).map(cell => cell.trim())],
    and for a table of [|] the empty cells taken out. *)
Definition cells_of (delimiter : ascii) (line : string) : list string :=
  let cells := Text.trim <$> Text.split delimiter line in
  if decide (delimiter = "|"%char) then filter (λ cell, cell ≠ "") cells else cells.

(** [headerRow[j] || `column${j+1}`] *)
Definition headerKey (headerRow : list string) (j : nat) : string :=
  match headerRow !! j with
  | Some header => if decide (header = "") then "column" ++ pretty (j + 1) else header
  | None => "column" ++ pretty (j + 1)
  end.

(** [rowObj] after the loop over [j]. *)
Definition rowObj (headerRow cells : list string) : list (string * string) :=
  fold_left (λ o j, JS.obj_set (headerKey headerRow j) (default "" (cells !! j)) o)
            (seq 0 (length headerRow `min` length cells)) [].

(** The callback of [tables.map] in the second pass; [None] is the error
    thrown by [tableLines[0].includes] when there is no first line. *)
Definition parseTable (tableLines : list string) : option (list (list (string * string))) :=
  match tableLines with
  | [] => None
  | first :: _ =>
      let delimiter := if JS.includes first "|" then "|"%char else Text.TAB in
      let headerRow := cells_of delimiter first in
      let dataStartIndex :=
        if bool_decide (delimiter = "|"%char)
           && match tableLines !! 1 with
              | Some second => JS.includes second "-"
              | None => false
              end
        then 2 else 1 in
      Some ((λ line, rowObj headerRow (cells_of delimiter line))
              <$> drop dataStartIndex tableLines)
  end.

Definition detectAndParseTabularData (text : string)
  : option (list (list (list (string * string)))) :=
  mapM parseTable (detectTables (text_lines text)).

(** What the first pass keeps: the tables found have two lines or more,
    all of them with delimiters, and so has the table being read. *)
Definition table_lines (t : list string) : Prop :=
  Forall (λ line, hasMultipleDelimiters line = true) t.

Definition scan_invariant (processed : list string) (st : Scan) : Prop :=
  Forall (λ t, 2 ≤ length t ∧ table_lines t) (tables st)
  ∧ table_lines (currentTable st)
  ∧ (inTable st = true → currentTable st ≠ [])
  ∧ concat (tables st) ++ (if inTable st then currentTable st else [])
    `sublist_of` processed.
(** ** Concrete inputs *)

Module Ex.

Definition md : ContentMetadata :=
  {| assetName := "Tower"; assetType := "office"; location := "Berlin";
     client := "ACME"; date := "2024"; otherProperties := [] |}.

Definition summary : TemplateSection :=
  mkTemplateSection "s1" "Executive Summary" "Market overview and returns"
                    text (Some 1%Z) [].

Definition d1 : SourceDocument :=
  mkSourceDocument "d1" "memo" "text/plain" "Executive Summary of the market" 0 31.
Definition d2 : SourceDocument :=
  mkSourceDocument "d2" "notes" "text/plain" "nothing here" 0 12.
Definition d3 : SourceDocument :=
  mkSourceDocument "d3" "study" "text/plain" "the MARKET grows" 0 16.

Definition docs : list SourceDocument := [d2; d3; d1].

(** [JSON.parse] on the replies used below: only the empty object parses. *)
Definition parser : JSONParser :=
  λ s, if decide (s = "{}") then Some [] else None.

(** A template whose structure was not parsed: no sections. *)
Definition plain : Template := mkTemplate "t0" "plain" "" None.

Definition env (now : Date) : Env := mkEnv now "u1" "u2".

(** A job is started; its execution begins. *)
Definition begun : list Op :=
  [OpAddListener "j1" 7;
   OpStart (Some plain) [d1] md (mkEnv 0 "j1" "");
   OpResume 0 Timer (env 1)].

Definition running : World := default initial (@run parser begun initial).

(** The rest of the pipeline, the service answering the validation with
    the empty object. *)
Definition rest : list (Reply * Env) :=
  [(Timer, env 3); (Timer, env 4); (Completion (Resolved "{}"), env 5)].

(** The job is cancelled while its execution waits at line 119, and the
    execution goes on to its end. *)
Definition cancelled_run : list Op :=
  begun ++ [OpCancel "j1" 2] ++ ((λ r, OpResume 0 r.1 r.2) <$> rest).

(** A template of one section, and a job started on it. *)
Definition one : Template := mkTemplate "t1" "one" "" (Some [summary]).

Definition queued_world : World :=
  default initial
    (@run parser [OpAddListener "j1" 7;
                  OpStart (Some one) docs md (mkEnv 0 "j1" "")] initial).

(** Its whole pipeline: one section generated, enhanced, validated. *)
Definition replies : list (Reply * Env) :=
  [(Timer, env 1); (Timer, env 2);
   (Completion (Resolved "Summary text"), env 3);
   (Timer, env 4); (Completions ["Better summary text"], env 5);
   (Completion (Resolved "{}"), env 6)].


(** The execution of [running] suspended in [validateContentCoherence]. *)
Definition validating_world : World :=
  default initial
    (@drive parser 0 [(Timer, env 3); (Timer, env 4)] running).

Definition validating_execution : Execution :=
  default (mkExecution 0 plain [] Finished) (executions validating_world !! 0).

Definition validating_content : GeneratedContent :=
  match ex_stage validating_execution with
  | Validating c => c
  | _ => mkGeneratedContent "" "" [] 0 0 draft md None
  end.

(** A failed job, its template and documents no longer stored; and the
    same with them stored. *)
Definition failed_world : World :=
  (cancelJob "j1" 2 running).2.

Definition restored_world : World := set_storage [plain] [d1] failed_world.

(** A template as [parseTemplateContent] builds it from the lines
    [# A], [## B], [### C]: the third heading is a child of the second. *)
Definition deep : Template :=
  mkTemplate "t3" "deep" ""
    (Some [mkTemplateSection "a" "A" "" heading (Some 1%Z)
             [mkTemplateSection "b" "B" "" heading (Some 2%Z)
                [mkTemplateSection "c" "C" "" heading (Some 3%Z) []]]]).

(** A heap with a job (at 1) and its metadata object (at 0). *)
Definition heap0 : Heap.heap :=
  [ [("assetName", Heap.Str "Tower"); ("assetType", Heap.Str "office")];
    [("id", Heap.Str "j1"); ("status", Heap.Str "processing");
     ("progress", Heap.Num 5); ("metadata", Heap.Ref 0)] ].

(** [job => { job.metadata.assetName = "X"; }] *)
Definition meddler : Heap.Callback :=
  [ {| Heap.path := ["metadata"]; Heap.field := "assetName";
       Heap.assigned := Heap.Str "X" |} ].

(** [job => { job.status = "completed"; }] *)
Definition overwriter : Heap.Callback :=
  [ {| Heap.path := []; Heap.field := "status";
       Heap.assigned := Heap.Str "completed" |} ].

Definition meddling : gmap string (list Heap.Callback) := {[ "j1" := [meddler] ]}.

Definition overwriting : gmap string (list Heap.Callback) :=
  {[ "j1" := [overwriter] ]}.

End Ex.


(** ** More concrete inputs *)

Module Sample.

(** The identifiers [uuidv4()] returns, one after the other. *)
Definition uuids (k : nat) : string :=
  default "" (["a"; "b"; "c"; "d"; "e"; "f"; "g"; "h"] !! k).

(** A text of three headings, one below the other, and a line of text. *)
Definition headings : string :=
  "# A" ++ nl ++ "## B" ++ nl ++ "### C" ++ nl ++ "  body of B ".

(** A stored configuration, and the defaults of a module loaded without
    environment. *)
Definition stored : option LocalConfig :=
  Some [("APP_NAME", "Memo"); ("OPENROUTER_API_KEY", "sk-old")].

Definition defaults : Config Q :=
  {| apiKeys_openrouter := "sk-env"; ai_defaultModel := "anthropic/claude-3-opus";
     ai_temperature := (3 # 10)%Q; ai_maxTokens := 4000%Q;
     app_name := "InvestDoc AI"; app_environment := "development" |}.

End Sample.
(** * Properties *)

(** ** Facts about the JavaScript primitives *)

Section SortFacts.
Context {A : Type} (compareFn : A → A → Z) (key : A → Z).
Hypothesis compare_key : ∀ a b, compareFn a b = (key a - key b)%Z.

Let ascending (a b : A) : Prop := (key a ≤ key b)%Z.

Lemma sort_insert_perm x l : JS.sort_insert compareFn x l ≡ₚ x :: l.
Proof.
  induction l as [|y l IH]; simpl; [done|].
  case_match; [done|]. rewrite IH. apply Permutation_swap.
Qed.

Lemma sort_perm l : JS.sort compareFn l ≡ₚ l.
Proof.
  induction l as [|x l IH]; simpl; [done|].
  rewrite sort_insert_perm. by f_equiv.
Qed.

Lemma sort_length l : length (JS.sort compareFn l) = length l.
Proof. by rewrite sort_perm. Qed.

Lemma sort_insert_sorted x l :
  StronglySorted ascending l → StronglySorted ascending (JS.sort_insert compareFn x l).
Proof.
  induction 1 as [|y l Hl IH Hy]; simpl.
  - repeat constructor.
  - rewrite compare_key. destruct (Z.leb_spec (key x - key y) 0) as [Hle|Hgt].
    + constructor; [by constructor|].
      constructor; [unfold ascending; lia|].
      eapply Forall_impl; [exact Hy|]. unfold ascending. intros z ?. lia.
    + constructor; [done|].
      rewrite sort_insert_perm. constructor; [unfold ascending; lia | done].
Qed.

Lemma sort_sorted l : StronglySorted ascending (JS.sort compareFn l).
Proof.
  induction l as [|x l IH]; simpl; [constructor|]. by apply sort_insert_sorted.
Qed.

(** Stability: elements of equal key keep their order. *)
Lemma sort_insert_stable v x l :
  filter (λ a, key a = v) (JS.sort_insert compareFn x l)
  = filter (λ a, key a = v) (x :: l).
Proof.
  induction l as [|y l IH]; simpl; [done|].
  rewrite compare_key. destruct (Z.leb_spec (key x - key y) 0) as [Hle|Hgt]; [done|].
  rewrite (filter_cons _ y), IH, !(filter_cons _ x), (filter_cons _ y).
  repeat case_decide; try done; lia.
Qed.

Lemma sort_stable v l :
  filter (λ a, key a = v) (JS.sort compareFn l) = filter (λ a, key a = v) l.
Proof.
  induction l as [|x l IH]; simpl; [done|].
  rewrite sort_insert_stable, !(filter_cons _ x), IH. done.
Qed.

Lemma sort_insert_split x l :
  ∃ la lb, l = la ++ lb ∧ JS.sort_insert compareFn x l = la ++ x :: lb
           ∧ Forall (λ y, key y < key x)%Z la.
Proof.
  induction l as [|y l (la & lb & Hl & Hins & Hla)]; simpl.
  - by exists [], [].
  - rewrite compare_key. destruct (Z.leb_spec (key x - key y) 0) as [Hle|Hgt].
    + by exists [], (y :: l).
    + exists (y :: la), lb. rewrite Hins, Hl at 1. split_and!; try done.
      constructor; [lia|done].
Qed.

(** Order: an element that comes before another one of no smaller key
    still comes before it after the sort. *)
Lemma sort_pair x y l :
  [x; y] `sublist_of` l → (key x ≤ key y)%Z →
  [x; y] `sublist_of` JS.sort compareFn l.
Proof.
  intros Hsub Hle. induction l as [|a l IH]; [by apply sublist_nil_r in Hsub|].
  simpl. destruct (sort_insert_split a (JS.sort compareFn l))
    as (la & lb & Hl & -> & Hla).
  apply sublist_cons_r in Hsub as [Hsub|(l' & [= <- <-] & Hy)].
  - specialize (IH Hsub). rewrite Hl in IH.
    etrans; [exact IH|]. apply sublist_app; [done|]. by apply sublist_cons.
  - apply singleton_sublist_l in Hy.
    rewrite <- (sort_perm l), Hl, elem_of_app in Hy.
    destruct Hy as [Hy|Hy].
    + eapply Forall_forall in Hla; [|exact Hy]. simpl in Hla. lia.
    + apply sublist_inserts_l, sublist_skip. by apply singleton_sublist_l.
Qed.

End SortFacts.




(** ** The relevance matcher *)







Lemma Set_of_elem {A} `{EqDecision A} (xs : list A) x : x ∈ JS.Set_of xs ↔ x ∈ xs.
Proof.
  unfold JS.Set_of.
  assert (∀ acc, x ∈ fold_left JS.Set_add xs acc ↔ x ∈ acc ∨ x ∈ xs) as Hgen.
  { induction xs as [|y xs IH]; intros acc; simpl.
    - rewrite elem_of_nil. tauto.
    - rewrite IH, elem_of_cons. unfold JS.Set_add.
      case_decide as Hy; [|rewrite elem_of_app, list_elem_of_singleton; tauto].
      split; [tauto|]. intros [?|[->|?]]; auto. }
  rewrite Hgen, elem_of_nil. tauto.
Qed.














(** Induction on a section with the property known of its children. *)
Lemma TemplateSection_nested_ind (P : TemplateSection → Prop) :
  (∀ section, Forall P (sec_children section) → P section) →
  ∀ section, P section.
Proof.
  intros Hstep. fix IH 1. intros [i t c ty lv children].
  apply Hstep. simpl. induction children as [|child children IHc]; constructor.
  - apply IH.
  - apply IHc.
Qed.

(** The recursion over the forest records one ranking per node, parents
    before their children. *)
Lemma processSection_nodes docs section m :
  processSection docs section m
  = fold_left (record_ranking docs) (section_nodes section) m.
Proof.
  revert m. induction section as [section IH] using TemplateSection_nested_ind.
  intros m. destruct section as [i t c ty lv children]. simpl in *.
  change (<[i:=sortedDocs (mkTemplateSection i t c ty lv children) docs]> m)
    with (record_ranking docs m (mkTemplateSection i t c ty lv children)).
  generalize (record_ranking docs m (mkTemplateSection i t c ty lv children)).
  induction IH as [|child children Hchild _ IHc]; intros m'; simpl; [done|].
  rewrite fold_left_app, <- Hchild. apply IHc.
Qed.

Lemma matchDocumentsToSections_nodes template docs :
  matchDocumentsToSections template docs
  = fold_left (record_ranking docs) (forest_nodes template) ∅.
Proof.
  unfold matchDocumentsToSections, forest_nodes.
  generalize (∅ : gmap string (list string)).
  induction (template_sections template) as [|s secs IH]; intros m; simpl; [done|].
  by rewrite fold_left_app, <- processSection_nodes, IH.
Qed.




(** ** The section generator *)







Lemma filter_lengths {A} (P : A → Prop) `{∀ x, Decision (P x)} (l : list A) :
  length (filter P l) + length (filter (λ x, ¬ P x) l) = length l.
Proof. by rewrite <- length_app, filter_app_complement. Qed.

Lemma selectDocuments_unfold docs ids :
  selectDocuments docs ids
  = if (length (rankedDocuments docs ids) <? 3)%nat
    then rankedDocuments docs ids
         ++ take (3 - length (rankedDocuments docs ids))
                 (filter (λ doc, doc_id doc ∉ ids) docs)
    else rankedDocuments docs ids.
Proof. reflexivity. Qed.

Lemma rankedDocuments_others_length docs ids :
  length (rankedDocuments docs ids)
  + length (filter (λ doc, doc_id doc ∉ ids) docs) = length docs.
Proof.
  unfold rankedDocuments. rewrite sort_length.
  apply (filter_lengths (λ doc, doc_id doc ∈ ids)).
Qed.



(** ** The content pipeline *)

Lemma flattenedSections_nodes template :
  flattenedSections template = sec_id <$> nodes_to_depth2 template.
Proof.
  unfold flattenedSections, nodes_to_depth2.
  induction (template_sections template) as [|s secs IH]; [done|].
  simpl. rewrite fmap_app, IH. done.
Qed.

Lemma find_child_id sectionId children child :
  List.find (λ c, bool_decide (sec_id c = sectionId)) children = Some child →
  sec_id child = sectionId.
Proof.
  intros Hfind. apply find_some in Hfind as [_ Hid].
  by apply bool_decide_eq_true in Hid.
Qed.

Lemma find_child_none sectionId children :
  List.find (λ c, bool_decide (sec_id c = sectionId)) children = None →
  sectionId ∉ sec_id <$> children.
Proof.
  intros Hfind Hin. apply list_elem_of_fmap in Hin as (c & -> & Hc).
  apply list_elem_of_In in Hc.
  pose proof (find_none _ _ Hfind c Hc) as Hno. simpl in Hno.
  by apply bool_decide_eq_false in Hno.
Qed.

(** The search of [generateSectionContent] finds every identifier of the
    flattened sequence. *)
Lemma findSection_loop_found sectionId secs acc :
  sectionId ∈ flat_map (λ s, sec_id s :: (sec_id <$> sec_children s)) secs
  ∨ (∃ s, acc = Some s ∧ sec_id s = sectionId) →
  ∃ s, findSection_loop sectionId secs acc = Some s ∧ sec_id s = sectionId.
Proof.
  revert acc. induction secs as [|s secs IH]; intros acc Hin; simpl.
  - destruct Hin as [Hin|Hacc]; [by inversion Hin|done].
  - destruct (decide (sec_id s = sectionId)) as [Heq|Hne]; [by exists s|].
    apply IH.
    destruct (List.find _ (sec_children s)) as [child|] eqn:Hfind.
    + right. exists child. split; [done|]. by eapply find_child_id.
    + apply find_child_none in Hfind.
      destruct Hin as [Hin|Hacc]; [|by right].
      left. simpl in Hin. rewrite elem_of_cons, elem_of_app in Hin.
      destruct Hin as [?|[?|?]]; [congruence|done..].
Qed.

Lemma generateSectionContent_begin_found template docs sectionId matches :
  sectionId ∈ flattenedSections template →
  ∃ fr, generateSectionContent_begin template docs sectionId matches = Some fr
        ∧ sec_id (fr_section fr) = sectionId.
Proof.
  intros Hin. unfold generateSectionContent_begin.
  destruct (findSection_loop_found sectionId (template_sections template) None)
    as (s & -> & Hs); [by left|].
  eexists. split; [done|]. done.
Qed.

(** The loop of [generateCompleteContent], all calls answered. *)
Lemma gen_run_resolved template docs md matches contentUuid now ids :
  ∀ replies secs processed total,
    ids ⊆ flattenedSections template →
    length replies = length ids →
    ∃ evs content,
      gen_run ((λ r : string * string, (Resolved r.1, r.2)) <$> replies)
              (gen_loop template docs md matches secs processed total ids
                        contentUuid now) contentUuid now
      = Some (evs, inr content)
      ∧ call_event (gen_loop template docs md matches secs processed total ids
                             contentUuid now) ++ evs
        = expected_trace total processed ids
      ∧ templateSectionId <$> sections content = (templateSectionId <$> secs) ++ ids
      ∧ gs_content <$> sections content = (gs_content <$> secs) ++ replies.*1.
Proof.
  induction ids as [|sectionId ids IH]; intros replies secs processed total Hsub Hlen.
  - destruct replies; [|done]. simpl. eexists _, _. split; [done|].
    simpl. by rewrite !app_nil_r.
  - destruct replies as [|[generated uuid] replies]; [done|].
    destruct (generateSectionContent_begin_found template docs sectionId matches)
      as (fr & Hfr & Hid); [apply Hsub; by left|].
    unfold gen_loop at 1 2. rewrite Hfr. csimpl. fold gen_loop.
    edestruct (IH replies
                 (secs ++ [generateSectionContent_end fr generated uuid])
                 (S processed) total)
      as (evs & content & -> & Hevs & Hids & Htexts).
    { intros i Hi. apply Hsub. by right. }
    { simpl in Hlen. lia. }
    eexists _, content. split; [done|]. split_and!.
    + rewrite Hid. simpl. by rewrite Hevs.
    + rewrite Hids, fmap_app, <- app_assoc. simpl. by rewrite Hid.
    + rewrite Htexts, fmap_app, <- app_assoc. done.
Qed.

(** C4 (amended). [generateCompleteContent] puts the top-level sections and
    their direct children, each once, into a sequence ordered by heading
    level ascending, sections of equal level staying in document order (so
    a top-level section comes before its children when its level is not
    above theirs); deeper descendants are not in the sequence. It generates
    the sections one after the other in that order and reports, after each,
    the progress (completed sections / total sections) * 100. *)
Theorem generation_order (template : Template)
    (sourceDocuments : list SourceDocument) (md : ContentMetadata) :
  let ids := sortedSections template in
  ids ≡ₚ sec_id <$> nodes_to_depth2 template
  ∧ StronglySorted (λ a b, levelOf template a ≤ levelOf template b)%Z ids
  ∧ (∀ v, filter (λ i, levelOf template i = v) ids
          = filter (λ i, levelOf template i = v) (sec_id <$> nodes_to_depth2 template))
  ∧ (∀ section child,
       section ∈ template_sections template → child ∈ sec_children section →
       (levelOf template (sec_id section) ≤ levelOf template (sec_id child))%Z →
       [sec_id section; sec_id child] `sublist_of` ids)
  ∧ (∀ (replies : list (string * string)) contentUuid now,
       length replies = length ids →
       ∃ content,
         generateCompleteContent template sourceDocuments md
           ((λ r : string * string, (Resolved r.1, r.2)) <$> replies) contentUuid now
         = Some (expected_trace (length ids) 0 ids, inr content)
         ∧ templateSectionId <$> sections content = ids
         ∧ gs_content <$> sections content = replies.*1).
Proof.
  intros ids. unfold ids, sortedSections.
  rewrite <- flattenedSections_nodes. split_and!.
  - apply sort_perm.
  - by apply (sort_sorted _ (levelOf template)).
  - intros v. by apply (sort_stable _ (levelOf template)).
  - intros section child Hsec Hchild Hlevel.
    apply (sort_pair _ (levelOf template)); [done| |done].
    unfold flattenedSections.
    apply list_elem_of_split in Hsec as (l1 & l2 & ->).
    rewrite flat_map_app. simpl.
    apply sublist_inserts_l, sublist_skip, sublist_inserts_r.
    apply singleton_sublist_l. by apply list_elem_of_fmap_2.
  - intros replies contentUuid now Hlen.
    unfold generateCompleteContent, generateCompleteContent_begin.
    fold (sortedSections template) in *.
    edestruct (gen_run_resolved template sourceDocuments md
                 (matchDocumentsToSections template sourceDocuments)
                 contentUuid now (sortedSections template) replies [] 0
                 (length (flattenedSections template)))
      as (evs & content & -> & Hevs & Hids & Htexts).
    { intros i Hi. unfold sortedSections in Hi. by rewrite sort_perm in Hi. }
    { done. }
    exists content. split_and!; [|done..].
    rewrite Hevs. unfold sortedSections at 2. by rewrite sort_length.
Qed.

(** C4, as stated, fails: a section at the third level of a forest is not
    in the sequence. *)
Lemma generation_skips_grandchildren : ¬ covers_forest Ex.deep.
Proof.
  unfold covers_forest. intros Hperm.
  apply Permutation_length in Hperm. vm_compute in Hperm. discriminate.
Qed.

(** ** The job manager: what an execution does to the world *)

Lemma getJobById_lookup w i job :
  NoDup (job_id <$> generationJobs w) → generationJobs w !! i = Some job →
  getJobById (job_id job) w = Some i.
Proof.
  intros Hnd Hi. unfold getJobById.
  destruct (list_find _ (generationJobs w)) as [[j job']|] eqn:Hfind; simpl.
  - apply list_find_Some in Hfind as (Hj & Hid & _). f_equal.
    eapply (NoDup_lookup _ j i (job_id job) Hnd).
    + by rewrite list_lookup_fmap, Hj; simpl; f_equal.
    + by rewrite list_lookup_fmap, Hi.
  - apply list_find_None in Hfind.
    eapply Forall_lookup_1 in Hfind; [|exact Hi]. done.
Qed.

Lemma getJobById_Some w id i :
  getJobById id w = Some i →
  ∃ job, generationJobs w !! i = Some job ∧ job_id job = id.
Proof.
  unfold getJobById.
  destruct (list_find _ (generationJobs w)) as [[j job]|] eqn:Hfind; [|done].
  simpl. intros [= <-]. apply list_find_Some in Hfind as (Hj & Hid & _). eauto.
Qed.

Lemma apply_write_id now wr job : job_id (apply_write now wr job) = job_id job.
Proof. by destruct wr. Qed.

Lemma written_id now ws job : job_id (written now ws job) = job_id job.
Proof.
  revert job. induction ws as [|wr ws IH]; intros job; [done|].
  unfold written in *. simpl. by rewrite IH, apply_write_id.
Qed.

Lemma written_snoc now ws wr job :
  written now (ws ++ [wr]) job = apply_write now wr (written now ws job).
Proof. unfold written. by rewrite fold_left_app. Qed.

Lemma snapshots_snoc now ws wr job :
  snapshots now (ws ++ [wr]) job
  = snapshots now ws job ++ [apply_write now wr (written now ws job)].
Proof.
  revert job. induction ws as [|wr' ws IH]; intros job; [done|].
  simpl. by rewrite IH.
Qed.

Lemma insert_ids (jobs : list GenerationJob) i job job' :
  jobs !! i = Some job → job_id job' = job_id job →
  job_id <$> <[i := job']> jobs = job_id <$> jobs.
Proof.
  intros Hi Hid. rewrite list_fmap_insert, Hid.
  apply list_insert_id. by rewrite list_lookup_fmap, Hi.
Qed.

Lemma effect_nil i job now w :
  generationJobs w !! i = Some job → effect i job now [] w w.
Proof.
  intros Hi. unfold effect. simpl. rewrite app_nil_r.
  split_and!; try done. symmetry. by apply list_insert_id.
Qed.

Lemma effect_lookup i job now ws w w' :
  generationJobs w !! i = Some job → effect i job now ws w w' →
  generationJobs w' !! i = Some (written now ws job).
Proof.
  intros Hi (-> & _). apply list_lookup_insert_eq. by eapply lookup_lt_Some.
Qed.

Lemma effect_ids i job now ws w w' :
  generationJobs w !! i = Some job → effect i job now ws w w' →
  job_id <$> generationJobs w' = job_id <$> generationJobs w.
Proof.
  intros Hi (-> & _). eapply insert_ids; [done|]. apply written_id.
Qed.

(** An assignment to the job followed by [emitJobEvent(job)]. *)
Lemma effect_write i job now ws wr w w' :
  generationJobs w !! i = Some job → effect i job now ws w w' →
  effect i job now (ws ++ [wr]) w (emit_job i (modify_job i (apply_write now wr) w')).
Proof.
  intros Hi Heff. pose proof (effect_lookup _ _ _ _ _ _ Hi Heff) as Hi'.
  destruct Heff as (Hjobs & Hem & Hex & Hls & Hts & Hds).
  unfold emit_job, modify_job. simpl.
  rewrite list_lookup_alter_eq, Hi'. simpl.
  unfold effect, emitJobEvent. simpl.
  rewrite written_snoc, snapshots_snoc, fmap_app, app_assoc, <- Hem. simpl.
  split_and!; try done.
  - rewrite Hjobs. apply list_eq. intros j.
    destruct (decide (i = j)) as [<-|Hne].
    + rewrite list_lookup_alter_eq, !list_lookup_insert_eq;
        [done|by eapply lookup_lt_Some..].
    + by rewrite list_lookup_alter_ne, !list_lookup_insert_ne.
  - unfold emission. by rewrite Hls, apply_write_id, written_id.
Qed.

(** A call [updateJobProgress(job.id, p, message)]. *)
Lemma effect_progress i job now ws p message w w' :
  NoDup (job_id <$> generationJobs w) →
  generationJobs w !! i = Some job → effect i job now ws w w' →
  effect i job now (ws ++ [WProgress p message]) w
         (updateJobProgress (job_id job) p message now w').
Proof.
  intros Hnd Hi Heff. unfold updateJobProgress.
  rewrite <- (written_id now ws job).
  rewrite (getJobById_lookup w' i (written now ws job)).
  - by apply (effect_write i job now ws (WProgress p message)).
  - by rewrite (effect_ids _ _ _ _ _ _ Hi Heff).
  - by eapply effect_lookup.
Qed.

Lemma effect_contents i job now ws cs w w' :
  effect i job now ws w w' → effect i job now ws w (set_contents cs w').
Proof. intros Heff. exact Heff. Qed.

Lemma after_gen_step_effect i job now ws step w w1 :
  NoDup (job_id <$> generationJobs w) →
  generationJobs w !! i = Some job → effect i job now ws w w1 →
  ∃ w2, after_gen_step i (job_id job) step now w1 = (w2, (gen_writes step).2)
        ∧ effect i job now (ws ++ (gen_writes step).1) w w2.
Proof.
  intros Hnd Hi Heff. destruct step as [g|content|message]; simpl.
  - eexists. split; [done|]. by rewrite app_nil_r.
  - eexists. split; [done|].
    change (ws ++ [WProgress 70 "Content generation complete";
                   WProgress 75 "Enhancing content quality"])
      with (ws ++ [WProgress 70 "Content generation complete"]
               ++ [WProgress 75 "Enhancing content quality"]).
    rewrite app_assoc. by repeat apply effect_progress.
  - eexists. split; [done|].
    by apply (effect_write i job now ws (WFail message)).
Qed.

Lemma after_enhancement_effect i job now content texts w :
  NoDup (job_id <$> generationJobs w) →
  generationJobs w !! i = Some job →
  match enhancement_writes content texts now with
  | None => after_enhancement (job_id job) content texts now w = None
  | Some (ws, st) =>
      ∃ w', after_enhancement (job_id job) content texts now w = Some (w', st)
            ∧ effect i job now ws w w'
  end.
Proof.
  intros Hnd Hi. unfold enhancement_writes, after_enhancement.
  destruct (enhancedSections (sections content) texts) as [secs|]; [|done].
  eexists. split; [done|].
  apply (effect_progress i job now [WProgress 90 "Quality enhancement complete"]);
    [done..|].
  apply (effect_progress i job now []); [done..|]. by apply effect_nil.
Qed.

(** A stretch of [processJob] does to the world what its writes say. *)
Lemma processJob_resume_effect `{JSONParser} e r env w job :
  NoDup (job_id <$> generationJobs w) →
  generationJobs w !! ex_job e = Some job →
  match writes e r env job with
  | None => processJob_resume e r env w = None
  | Some (ws, st) =>
      ∃ w', processJob_resume e r env w = Some (w', st)
            ∧ effect (ex_job e) job (env_now env) ws w w'
  end.
Proof.
  intros Hnd Hi. unfold writes, processJob_resume. rewrite Hi.
  pose proof (effect_nil _ _ (env_now env) _ Hi) as Hnil.
  destruct (ex_stage e) as [| |g|content|content|content|], r as [|o|texts|message];
    try done.
  - eexists. split; [done|].
    apply (effect_progress _ _ _ [WStart]); [done..|].
    by apply (effect_write _ _ _ [] WStart).
  - pose proof (effect_progress _ _ _ _ 10 "Starting content generation" _ _
                  Hnd Hi Hnil) as H10.
    edestruct (after_gen_step_effect (ex_job e) job (env_now env) _
                 (generateCompleteContent_begin (ex_template e)
                    (ex_sourceDocuments e) (metadata job) (env_uuid' env)
                    (env_now env)) w _ Hnd Hi H10) as (w2 & Hw2 & Heff).
    destruct (gen_writes _) as [ws st]. simpl in *. exists w2. by rewrite Hw2.
  - destruct (generateCompleteContent_resume g o (env_uuid env) (env_uuid' env)
                (env_now env)) as [p step].
    assert (∃ w1, w1 = match p with
                       | Some v => updateJobProgress (job_id job) (10 + v * (6 # 10))
                                     "Generating content" (env_now env) w
                       | None => w
                       end
                  ∧ effect (ex_job e) job (env_now env)
                      (match p with
                       | Some v => [WProgress (10 + v * (6 # 10)) "Generating content"]
                       | None => []
                       end) w w1) as (w1 & Hw1 & Heff1).
    { destruct p as [v|]; eexists; (split; [done|]); [|done].
      by apply (effect_progress _ _ _ []). }
    rewrite <- Hw1.
    edestruct (after_gen_step_effect (ex_job e) job (env_now env) _ step w w1
                 Hnd Hi Heff1) as (w2 & Hw2 & Heff).
    destruct (gen_writes step) as [ws st]. simpl in *. exists w2. by rewrite Hw2.
  - destruct (enhance_pending content).
    + by apply after_enhancement_effect.
    + eauto.
  - by apply after_enhancement_effect.
  - eexists. split; [done|]. by apply (effect_write _ _ _ [] (WFail message)).
  - eexists. split; [done|].
    apply (effect_write _ _ _ [WProgress 95 "Saving generated content"]
             (WComplete _)); [done|].
    apply effect_contents. by apply (effect_progress _ _ _ []).
Qed.

(** The writes of a stretch: the first one starts the job; every other one
    reports progress and may end with the failure or the completion. *)
Lemma writes_cases `{JSONParser} e r env job ws st :
  writes e r env job = Some (ws, st) →
  (ex_stage e = Scheduled ∧ r = Timer ∧ st = Delay500
   ∧ ws = [WStart; WProgress 5 "Analyzing documents and template"])
  ∨ (ex_stage e ≠ Scheduled ∧ live e
     ∧ ∃ ps, Forall is_progress ps
             ∧ ((ws = ps ∧ st ≠ Finished ∧ st ≠ Scheduled)
                ∨ (∃ message, ws = ps ++ [WFail message] ∧ st = Finished)
                ∨ (∃ content o, ws = ps ++ [WComplete content] ∧ st = Finished
                     ∧ (∃ c, ex_stage e = Validating c) ∧ r = Completion o))).
Proof.
  unfold writes, live.
  assert (∀ step ps, Forall is_progress ps →
            ∃ ps', Forall is_progress ps'
              ∧ ((ps ++ (gen_writes step).1 = ps' ∧ (gen_writes step).2 ≠ Finished
                  ∧ (gen_writes step).2 ≠ Scheduled)
                 ∨ (∃ message, ps ++ (gen_writes step).1 = ps' ++ [WFail message]
                               ∧ (gen_writes step).2 = Finished))) as Hgen.
  { intros [g|content|message] ps Hps; simpl.
    - exists ps. rewrite app_nil_r. auto.
    - eexists. split; [|left; done]. apply Forall_app. by repeat constructor.
    - exists ps. eauto. }
  assert (∀ content texts, enhancement_writes content texts (env_now env)
                           = Some (ws, st) →
            Forall is_progress ws ∧ st ≠ Finished ∧ st ≠ Scheduled) as Henh.
  { intros content texts. unfold enhancement_writes.
    destruct (enhancedSections _ _); [|done]. intros [= <- <-].
    by repeat constructor. }
  destruct (ex_stage e) as [| |g|content|content|content|] eqn:Hst,
           r as [|o|texts|message]; try done.
  - intros [= <- <-]. by left.
  - intros Hw. right. split_and!; try done.
    destruct (Hgen (generateCompleteContent_begin (ex_template e)
                      (ex_sourceDocuments e) (metadata job) (env_uuid' env)
                      (env_now env))
                   [WProgress 10 "Starting content generation"])
      as (ps & Hps & Hcases); [by repeat constructor|].
    destruct (gen_writes _) as [ws' st']. simpl in *. injection Hw as <- <-.
    exists ps. split; [done|].
    destruct Hcases as [(? & ? & ?)|(message & ? & ?)];
      [left|right; left; exists message]; done.
  - intros Hw. right. split_and!; try done.
    destruct (generateCompleteContent_resume g o _ _ _) as [p step].
    destruct (Hgen step
                (match p with
                 | Some v => [WProgress (10 + v * (6 # 10)) "Generating content"]
                 | None => []
                 end))
      as (ps & Hps & Hcases); [by destruct p; repeat constructor|].
    destruct (gen_writes step) as [ws' st']. simpl in *. injection Hw as <- <-.
    exists ps. split; [done|].
    destruct Hcases as [(? & ? & ?)|(message & ? & ?)];
      [left|right; left; exists message]; done.
  - intros Hw. right. split_and!; try done.
    destruct (enhance_pending content).
    + apply Henh in Hw as (? & ? & ?). exists ws. auto.
    + injection Hw as <- <-. exists []. split; [constructor|]. left. done.
  - intros Hw. right. split_and!; try done.
    apply Henh in Hw as (? & ? & ?). exists ws. auto.
  - intros [= <- <-]. right. split_and!; try done.
    exists []. split; [constructor|]. right. left. by exists message.
  - intros [= <- <-]. right. split_and!; try done.
    exists [WProgress 95 "Saving generated content"].
    split; [by repeat constructor|]. right. right. eauto 10.
Qed.

Lemma written_progress now ps job :
  Forall is_progress ps →
  status (written now ps job) = status job
  ∧ result (written now ps job) = result job
  ∧ error (written now ps job) = error job.
Proof.
  intros Hps. revert job. induction Hps as [|wr ps Hwr _ IH]; intros job; [done|].
  destruct wr; try done.
  change (written now (WProgress p message :: ps) job)
    with (written now ps (with_progress p message now job)).
  destruct (IH (with_progress p message now job)) as (-> & -> & ->). done.
Qed.

Lemma alter_as_insert {A} (f : A → A) (l : list A) i x :
  l !! i = Some x → alter f i l = <[i := f x]> l.
Proof.
  intros Hi. apply list_eq. intros j. destruct (decide (i = j)) as [<-|Hne].
  - rewrite list_lookup_alter_eq, list_lookup_insert_eq, Hi;
      [done|by eapply lookup_lt_Some].
  - by rewrite list_lookup_alter_ne, list_lookup_insert_ne.
Qed.

(** What [resume] does, in terms of the writes. *)
Lemma resume_unfold `{JSONParser} k r env w w' :
  registered_once w → resume k r env w = Some w' →
  ∃ e job ws st w1,
    executions w !! k = Some e
    ∧ generationJobs w !! ex_job e = Some job
    ∧ writes e r env job = Some (ws, st)
    ∧ effect (ex_job e) job (env_now env) ws w w1
    ∧ w' = set_executions (<[k := set_stage st e]> (executions w1)) w1.
Proof.
  intros Hnd. unfold resume.
  destruct (executions w !! k) as [e|] eqn:He; [|done].
  destruct (generationJobs w !! ex_job e) as [job|] eqn:Hjob.
  - pose proof (processJob_resume_effect e r env w job Hnd Hjob) as Heff.
    destruct (writes e r env job) as [[ws st]|] eqn:Hw.
    + destruct Heff as (w1 & -> & Heff). intros [= <-]. by exists e, job, ws, st, w1.
    + by rewrite Heff.
  - unfold processJob_resume. by rewrite Hjob.
Qed.

(** And the other way round: the writes can be made. *)
Lemma resume_fold `{JSONParser} k r env w e job ws st :
  registered_once w →
  executions w !! k = Some e → generationJobs w !! ex_job e = Some job →
  writes e r env job = Some (ws, st) →
  ∃ w1, effect (ex_job e) job (env_now env) ws w w1
        ∧ resume k r env w
          = Some (set_executions (<[k := set_stage st e]> (executions w1)) w1).
Proof.
  intros Hnd He Hjob Hw. unfold resume. rewrite He.
  pose proof (processJob_resume_effect e r env w job Hnd Hjob) as Heff.
  rewrite Hw in Heff. destruct Heff as (w1 & -> & Heff). eauto.
Qed.

Lemma cancelJob_cases id now w :
  cancelJob id now w = (false, w)
  ∨ ∃ i job,
      getJobById id w = Some i ∧ generationJobs w !! i = Some job
      ∧ status job ≠ completed ∧ status job ≠ failed
      ∧ cancelJob id now w
        = (true,
           emitJobEvent (fail_with "Job cancelled by user" "Cancelled" now job)
             (set_jobs (<[i := fail_with "Job cancelled by user" "Cancelled" now job]>
                          (generationJobs w)) w)).
Proof.
  unfold cancelJob. destruct (getJobById id w) as [i|] eqn:Hget; [|by left].
  destruct (generationJobs w !! i) as [job|] eqn:Hi; [|by left].
  case_decide as Hst; [by left|]. right. exists i, job.
  split_and!; try done; [tauto..|].
  unfold emit_job, modify_job. simpl.
  rewrite (alter_as_insert _ _ _ _ Hi), list_lookup_insert_eq;
    [done|by eapply lookup_lt_Some].
Qed.

Lemma retryJob_cases id now w :
  retryJob id now w = (false, w)
  ∨ ∃ i job template sourceDocuments,
      getJobById id w = Some i ∧ generationJobs w !! i = Some job
      ∧ status job = failed
      ∧ getTemplateById (templateId job) w = Some template
      ∧ sourceDocuments = omap (λ id, getDocumentById id w) (sourceDocumentIds job)
      ∧ sourceDocuments ≠ []
      ∧ retryJob id now w
        = (true,
           schedule i template sourceDocuments
             (emitJobEvent (requeue now job)
                (set_jobs (<[i := requeue now job]> (generationJobs w)) w))).
Proof.
  unfold retryJob. destruct (getJobById id w) as [i|] eqn:Hget; [|by left].
  destruct (generationJobs w !! i) as [job|] eqn:Hi; [|by left].
  case_decide as Hst; [by left|].
  destruct (getTemplateById (templateId job) w) as [template|] eqn:Htpl; [|by left].
  case_decide as Hlen; [by left|]. right.
  exists i, job, template, (omap (λ id, getDocumentById id w) (sourceDocumentIds job)).
  split_and!; try done.
  - intros Hnil. by rewrite Hnil in Hlen.
  - unfold emit_job, modify_job. simpl.
    rewrite (alter_as_insert _ _ _ _ Hi), list_lookup_insert_eq;
      [done|by eapply lookup_lt_Some].
Qed.

(** Every operation keeps the identifiers of the registry distinct. *)
Lemma step_registered_once `{JSONParser} op w w' :
  registered_once w → step op w = Some w' → registered_once w'.
Proof.
  unfold registered_once. intros Hnd Hstep.
  assert (∀ md env t ids,
            fresh_id (env_uuid env) w →
            NoDup (job_id <$> generationJobs
                     (createGenerationJob t ids md (env_uuid env) (env_now env) w).2))
    as Hcreate.
  { intros md env t ids Hfresh. simpl. rewrite fmap_app. simpl.
    apply NoDup_app. split_and!; [done| |apply NoDup_singleton].
    intros x Hx ->%list_elem_of_singleton. done. }
  destruct op as [template docs md env|t ids md env|id now|id now|id h|id h|ts ds
                 |k r env]; simpl in Hstep.
  - case_decide as Hfresh; [|done]. injection Hstep as <-.
    unfold startGenerationJob. destruct template as [template|]; [|done].
    repeat case_decide; try done. by apply Hcreate.
  - case_decide as Hfresh; [|done]. injection Hstep as <-. by apply Hcreate.
  - injection Hstep as <-.
    destruct (cancelJob_cases id now w) as [->|(i & job & _ & Hi & _ & _ & ->)];
      [done|].
    simpl. by rewrite (insert_ids _ _ job).
  - injection Hstep as <-.
    destruct (retryJob_cases id now w)
      as [->|(i & job & t & ds & _ & Hi & _ & _ & _ & _ & ->)]; [done|].
    simpl. by rewrite (insert_ids _ _ job).
  - injection Hstep as <-. done.
  - injection Hstep as <-. unfold removeJobEventListener.
    by destruct (jobEventListeners w !! id).
  - injection Hstep as <-. done.
  - apply resume_unfold in Hstep as (e & job & ws & st & w1 & _ & Hi & _ & Heff & ->);
      [|done].
    simpl. by rewrite (effect_ids _ _ _ _ _ _ Hi Heff).
Qed.

Lemma reachable_registered_once `{JSONParser} w : reachable w → registered_once w.
Proof.
  induction 1 as [|w op w' _ IH Hstep]; [constructor|].
  by eapply step_registered_once.
Qed.

(** ** The job manager: result and error against the status *)

Section JobPredicate.
Context `{JSONParser}.
Variable P : GenerationJob → Prop.
Hypothesis P_new : ∀ t ids md uuid now, P (new_job t ids md uuid now).
Hypothesis P_write : ∀ now wr job, P job → P (apply_write now wr job).
Hypothesis P_cancel : ∀ message note now job, P job → P (fail_with message note now job).
Hypothesis P_requeue : ∀ now job, P job → P (requeue now job).

Lemma written_keeps now ws job : P job → P (written now ws job).
Proof.
  revert job. induction ws as [|wr ws IH]; intros job HP; [done|].
  apply IH, P_write, HP.
Qed.

(** A property of jobs that the assignments of the module keep holds of
    every job after every operation. *)
Lemma step_keeps op w w' :
  registered_once w → Forall P (generationJobs w) → step op w = Some w' →
  Forall P (generationJobs w').
Proof.
  intros Hnd Hall Hstep.
  assert (∀ md env t ids,
            Forall P (generationJobs
              (createGenerationJob t ids md (env_uuid env) (env_now env) w).2))
    as Hcreate.
  { intros md env t ids. simpl. apply Forall_app. split; [done|].
    constructor; [apply P_new|constructor]. }
  destruct op as [template docs md env|t ids md env|id now|id now|id h|id h|ts ds
                 |k r env]; simpl in Hstep.
  - case_decide; [|done]. injection Hstep as <-.
    unfold startGenerationJob. destruct template as [template|]; [|done].
    repeat case_decide; try done. apply Hcreate.
  - case_decide; [|done]. injection Hstep as <-. apply Hcreate.
  - injection Hstep as <-.
    destruct (cancelJob_cases id now w) as [->|(i & job & _ & Hi & _ & _ & ->)];
      [done|].
    simpl. apply Forall_insert; [done|]. apply P_cancel.
    by eapply Forall_lookup_1.
  - injection Hstep as <-.
    destruct (retryJob_cases id now w)
      as [->|(i & job & t & ds & _ & Hi & _ & _ & _ & _ & ->)]; [done|].
    simpl. apply Forall_insert; [done|]. apply P_requeue.
    by eapply Forall_lookup_1.
  - by injection Hstep as <-.
  - injection Hstep as <-. unfold removeJobEventListener.
    by destruct (jobEventListeners w !! id).
  - by injection Hstep as <-.
  - apply resume_unfold in Hstep
      as (e & job & ws & st & w1 & _ & Hi & _ & (Hjobs & _) & ->); [|done].
    simpl. rewrite Hjobs. apply Forall_insert; [done|]. apply written_keeps.
    by eapply Forall_lookup_1.
Qed.

Lemma reachable_keeps w : reachable w → Forall P (generationJobs w).
Proof.
  induction 1 as [|w op w' Hw IH Hstep]; [constructor|].
  eapply step_keeps; [|done..]. by apply reachable_registered_once.
Qed.

End JobPredicate.

Lemma reachable_idle_reachable `{JSONParser} w : reachable_idle w → reachable w.
Proof. induction 1; [constructor|]. by eapply reachable_step. Qed.

Lemma stage_status_started st : st ≠ Scheduled → stage_status st = processing.
Proof. by destruct st. Qed.

(** One stretch of an execution that works on an untouched job. *)
Lemma writes_consistent `{JSONParser} e r env job ws st :
  result_error_consistent job → status job = stage_status (ex_stage e) →
  writes e r env job = Some (ws, st) →
  live e
  ∧ result_error_consistent (written (env_now env) ws job)
  ∧ (st ≠ Finished → status (written (env_now env) ws job) = stage_status st).
Proof.
  intros [Hres Herr] Hst Hw.
  destruct (writes_cases e r env job ws st Hw)
    as [(He & _ & -> & ->)|(He & Hlive & ps & Hps & Hcases)].
  - rewrite He in Hst. simpl in Hst. split; [unfold live; by rewrite He|].
    unfold result_error_consistent. simpl.
    rewrite Hres, Herr, Hst. split; [|done]. split; split; done.
  - rewrite (stage_status_started _ He) in Hst. split; [done|].
    destruct (written_progress (env_now env) ps job Hps) as (Hs & Hr & Her).
    assert (¬ is_Some (result job)) as Hnores by (rewrite Hres, Hst; done).
    assert (¬ is_Some (error job)) as Hnoerr by (rewrite Herr, Hst; done).
    destruct Hcases as [(-> & Hnf & Hns)|[(message & -> & ->)|(c & o & -> & -> & _)]].
    + unfold result_error_consistent. rewrite Hs, Hr, Her.
      rewrite (stage_status_started _ Hns). done.
    + rewrite written_snoc. unfold result_error_consistent. simpl.
      rewrite Hr. split; [|done]. split; [split; [done|done]|].
      split; [done|eauto].
    + rewrite written_snoc. unfold result_error_consistent. simpl.
      rewrite Her. split; [|done]. split; [split; [done|eauto]|].
      split; done.
Qed.

Lemma new_job_consistent t ids md uuid now :
  result_error_consistent (new_job t ids md uuid now).
Proof.
  split; simpl; (split; [intros [? ?]; done|done]).
Qed.

Lemma idle_invariant_create t ids md uuid now w :
  fresh_id uuid w → idle_invariant w →
  idle_invariant (createGenerationJob t ids md uuid now w).2.
Proof.
  intros Hfresh (Hnd & Hjob & Hone & Hall). split_and!; simpl.
  - unfold registered_once. simpl. rewrite fmap_app. simpl.
    apply NoDup_app. split_and!; [done| |apply NoDup_singleton].
    intros x Hx ->%list_elem_of_singleton. done.
  - intros k e He Hlive. destruct (Hjob k e He Hlive) as (job & Hi & Hst).
    exists job. split; [|done]. by apply lookup_app_l_Some.
  - exact Hone.
  - apply Forall_app. split; [done|].
    constructor; [apply new_job_consistent|constructor].
Qed.

(** An execution scheduled for a job that is queued and that no execution
    works on. *)
Lemma idle_invariant_schedule i job template docs w :
  idle_invariant w →
  generationJobs w !! i = Some job → status job = queued →
  (∀ k e, executions w !! k = Some e → live e → ex_job e ≠ i) →
  idle_invariant (schedule i template docs w).
Proof.
  intros (Hnd & Hjob & Hone & Hall) Hi Hst Hfree. split_and!; simpl; [done| | |done].
  - intros k e He Hlive. apply lookup_app_Some in He as [He|[_ He]].
    + by apply (Hjob k).
    + apply list_lookup_singleton_Some in He as [_ <-]. simpl. eauto.
  - intros k1 k2 e1 e2 He1 He2 Hl1 Hl2 Hsame.
    apply lookup_app_Some in He1 as [He1|[Hk1 He1]],
          He2 as [He2|[Hk2 He2]].
    + by apply (Hone k1 k2 e1 e2).
    + apply list_lookup_singleton_Some in He2 as [_ <-]. simpl in Hsame.
      by destruct (Hfree k1 e1 He1 Hl1).
    + apply list_lookup_singleton_Some in He1 as [_ <-]. simpl in Hsame.
      by destruct (Hfree k2 e2 He2 Hl2).
    + apply list_lookup_singleton_Some in He1 as [Hk1' _],
            He2 as [Hk2' _]. lia.
Qed.

Lemma idle_invariant_emit job w :
  idle_invariant w → idle_invariant (emitJobEvent job w).
Proof. done. Qed.

(** A job that no execution works on is given other contents. *)
Lemma idle_invariant_insert i job job' w :
  idle_invariant w →
  generationJobs w !! i = Some job → job_id job' = job_id job →
  result_error_consistent job' →
  (∀ k e, executions w !! k = Some e → live e → ex_job e ≠ i) →
  idle_invariant (set_jobs (<[i := job']> (generationJobs w)) w).
Proof.
  intros (Hnd & Hjob & Hone & Hall) Hi Hid Hcons Hfree.
  split_and!; simpl; [|  |done|].
  - unfold registered_once. simpl. by rewrite (insert_ids _ _ job).
  - intros k e He Hlive. destruct (Hjob k e He Hlive) as (job0 & Hi0 & Hst).
    exists job0. split; [|done].
    rewrite list_lookup_insert_ne; [done|]. intros Heq. by apply (Hfree k e).
  - by apply Forall_insert.
Qed.

Lemma idle_step `{JSONParser} op w w' :
  idle_invariant w → cancel_idle op w → step op w = Some w' → idle_invariant w'.
Proof.
  intros Hinv Hidle Hstep.
  destruct op as [template docs md env|t ids md env|id now|id now|id h|id h|ts ds
                 |k r env]; simpl in Hstep.
  - case_decide as Hfresh; [|done]. injection Hstep as <-.
    unfold startGenerationJob. destruct template as [template|]; [|done].
    repeat case_decide; try done.
    pose proof (idle_invariant_create (tpl_id template) (doc_id <$> docs) md
                  (env_uuid env) (env_now env) w Hfresh Hinv) as Hinv'.
    simpl in *.
    eapply (idle_invariant_schedule _ _ _ _ _ Hinv').
    + simpl. by apply list_lookup_middle.
    + done.
    + simpl. intros k e He Hlive Hk.
      destruct Hinv as (_ & Hjob & _).
      destruct (Hjob k e He Hlive) as (job & Hi & _).
      apply lookup_lt_Some in Hi. lia.
  - case_decide as Hfresh; [|done]. injection Hstep as <-.
    by apply idle_invariant_create.
  - injection Hstep as <-.
    destruct (cancelJob_cases id now w)
      as [->|(i & job & Hget & Hi & Hnc & Hnf & ->)]; [done|].
    simpl. apply idle_invariant_emit.
    apply (idle_invariant_insert i job); [done..| |].
    + destruct Hinv as (_ & _ & _ & Hall).
      destruct (Forall_lookup_1 _ _ _ _ Hall Hi) as [Hres Herr].
      split; simpl; [|split; eauto].
      rewrite Hres. split; [done|done].
    + intros k e He Hlive. apply (Hidle i e Hget); [|done].
      by eapply list_elem_of_lookup_2.
  - injection Hstep as <-.
    destruct (retryJob_cases id now w)
      as [->|(i & job & t & ds & Hget & Hi & Hfailed & _ & _ & _ & ->)]; [done|].
    assert (∀ k e, executions w !! k = Some e → live e → ex_job e ≠ i) as Hfree.
    { intros k e He Hlive <-. destruct Hinv as (_ & Hjob & _).
      destruct (Hjob k e He Hlive) as (job0 & Hi0 & Hst).
      rewrite Hi in Hi0. injection Hi0 as <-. rewrite Hfailed in Hst.
      by destruct (ex_stage e). }
    apply (idle_invariant_schedule i (requeue now job)).
    + apply idle_invariant_emit.
      apply (idle_invariant_insert i job); [done..| |done].
      destruct Hinv as (_ & _ & _ & Hall).
      destruct (Forall_lookup_1 _ _ _ _ Hall Hi) as [Hres Herr].
      split; simpl; [|split; [intros [? ?]; done|done]].
      rewrite Hres, Hfailed. done.
    + simpl. apply list_lookup_insert_eq. by eapply lookup_lt_Some.
    + done.
    + done.
  - by injection Hstep as <-.
  - injection Hstep as <-. unfold removeJobEventListener.
    by destruct (jobEventListeners w !! id).
  - by injection Hstep as <-.
  - pose proof Hinv as (Hnd & Hjob & Hone & Hall).
    apply resume_unfold in Hstep
      as (e & job & ws & st & w1 & He & Hi & Hw & Heff & ->); [|done].
    destruct Heff as (Hjobs & _ & Hexecs & _).
    pose proof (Forall_lookup_1 _ _ _ _ Hall Hi) as Hcons.
    assert (live e) as Hlive.
    { destruct (writes_cases _ _ _ _ _ _ Hw) as [(Hs & _)|(_ & ? & _)]; [|done].
      unfold live. by rewrite Hs. }
    destruct (Hjob k e He Hlive) as (job0 & Hi0 & Hst).
    rewrite Hi in Hi0. injection Hi0 as <-.
    destruct (writes_consistent e r env job ws st Hcons Hst Hw)
      as (_ & Hcons' & Hst').
    split_and!; simpl; rewrite ?Hjobs, ?Hexecs.
    + unfold registered_once. simpl. rewrite Hjobs.
      rewrite (insert_ids _ _ job); [done..|]. apply written_id.
    + intros k' e' He' Hlive'.
      apply list_lookup_insert_Some in He' as [(<- & <- & _)|(Hne & He')].
      * simpl. exists (written (env_now env) ws job). split.
        -- apply list_lookup_insert_eq. by eapply lookup_lt_Some.
        -- by apply Hst'.
      * destruct (Hjob k' e' He' Hlive') as (job' & Hi' & Hst'').
        exists job'. split; [|done].
        rewrite list_lookup_insert_ne; [done|].
        intros Hsame. apply Hne. by apply (Hone k k' e e').
    + intros k1 k2 e1 e2 He1 He2 Hl1 Hl2 Hsame.
      apply list_lookup_insert_Some in He1 as [(<- & <- & _)|(Hne1 & He1)];
        apply list_lookup_insert_Some in He2 as [(Hk & <- & _)|(Hne2 & He2)].
      * done.
      * by apply (Hone k k2 e e2).
      * subst k2. by apply (Hone k1 k e1 e).
      * by apply (Hone k1 k2 e1 e2).
    + by apply Forall_insert.
Qed.

Lemma reachable_idle_invariant `{JSONParser} w : reachable_idle w → idle_invariant w.
Proof.
  induction 1 as [|w op w' _ IH Hidle Hstep].
  - split_and!; try done; constructor.
  - by eapply idle_step.
Qed.

Lemma run_reachable `{JSONParser} ops w w' :
  reachable w → run ops w = Some w' → reachable w'.
Proof.
  revert w. induction ops as [|op ops IH]; intros w Hw Hrun; simpl in Hrun.
  - by injection Hrun as <-.
  - destruct (step op w) as [w1|] eqn:Hstep; [|done].
    apply (IH w1); [|done]. by eapply reachable_step.
Qed.

Lemma run_app `{JSONParser} ops1 ops2 w :
  run (ops1 ++ ops2) w = run ops1 w ≫= run ops2.
Proof.
  revert w. induction ops1 as [|op ops1 IH]; intros w; simpl; [done|].
  destruct (step op w); [apply IH|done].
Qed.

(** C2 (amended). After any operations in any order a completed job has a
    result and a failed job has an error; and as long as no job is
    cancelled while an execution is scheduled for it or works on it, the
    result is present if and only if the job is completed and the error if
    and only if it is failed. *)
Theorem result_error_against_status `{JSONParser} :
  (∀ w, reachable w → Forall result_error_present (generationJobs w))
  ∧ (∀ w, reachable_idle w → Forall result_error_consistent (generationJobs w)).
Proof.
  split.
  - apply reachable_keeps.
    + done.
    + intros now [] job [Hc Hf]; split; simpl; try done; eauto.
    + intros message note now job [Hc Hf]. split; simpl; [done|eauto].
    + intros now job [Hc Hf]. done.
  - intros w Hw. by apply reachable_idle_invariant in Hw as (_ & _ & _ & Hall).
Qed.

(** C2, as stated, fails: in a run in which a job is cancelled while its
    execution waits at line 119 and the pipeline then ends well, the job is
    completed, has a result, and still has the error of the cancellation:
    the error is present although the status is not [failed]. *)
Lemma cancelled_job_completes_with_error :
  (λ job, (status job, error job, bool_decide (is_Some (result job))))
    <$> (@run Ex.parser Ex.cancelled_run initial ≫= λ w, generationJobs w !! 0)
  = Some (completed, Some "Job cancelled by user", true)
  ∧ ¬ @always_consistent Ex.parser.
Proof.
  split; [vm_compute; reflexivity|].
  intros Hall.
  destruct (@run Ex.parser Ex.cancelled_run initial) as [w|] eqn:Hrun;
    [|vm_compute in Hrun; discriminate].
  pose proof (Hall w (run_reachable _ _ _ reachable_initial Hrun)) as Hjobs.
  vm_compute in Hrun. injection Hrun as <-.
  pose proof (Forall_lookup_1 _ _ 0 _ Hjobs eq_refl) as [_ [Herr _]].
  simpl in Herr. by specialize (Herr (mk_is_Some _ _ eq_refl)).
Qed.

(** ** The job manager: cancellation against a running pipeline *)



Lemma drive_nil `{JSONParser} k w : drive k [] w = Some w.
Proof. done. Qed.





(** The last stretch: whatever the job holds, it is completed. *)
Lemma validating_completes `{JSONParser} k o env w e c job :
  registered_once w →
  executions w !! k = Some e → ex_stage e = Validating c →
  generationJobs w !! ex_job e = Some job →
  ∃ w',
    resume k (Completion o) env w = Some w'
    ∧ generationJobs w' !! ex_job e
      = Some (complete_job (finalContent c (validateContentCoherence o) (env_now env))
                (env_now env)
                (with_progress 95 "Saving generated content" (env_now env) job))
    ∧ executions w' !! k = Some (set_stage Finished e).
Proof.
  intros Hnd He Hst Hi.
  destruct (resume_fold k (Completion o) env w e job
              [WProgress 95 "Saving generated content";
               WComplete (finalContent c (validateContentCoherence o) (env_now env))]
              Finished Hnd He Hi) as (w1 & Heff & ->).
  { unfold writes. by rewrite Hst. }
  eexists. split; [done|]. simpl. split.
  - by apply (effect_lookup _ _ _ _ _ _ Hi Heff).
  - destruct Heff as (_ & _ & -> & _).
    apply list_lookup_insert_eq. by eapply lookup_lt_Some.
Qed.



(** ** The coherence validation *)

(** C7. If the call of the completion service in [validateContentCoherence]
    fails or its reply does not parse, the function returns the empty map
    and raises nothing; the execution of [processJob] goes on from it to
    its end, and the job is completed, its result carrying the empty map. *)
Theorem validation_failure_is_not_fatal `{JSONParser} (o : Outcome)
    (w : World) (k : nat) (e : Execution) (c : GeneratedContent) (env : Env)
    (job : GenerationJob) :
  validation_failed o →
  registered_once w →
  executions w !! k = Some e → ex_stage e = Validating c →
  generationJobs w !! ex_job e = Some job →
  validateContentCoherence o = []
  ∧ ∃ w' job' content,
      resume k (Completion o) env w = Some w'
      ∧ generationJobs w' !! ex_job e = Some job'
      ∧ status job' = completed
      ∧ result job' = Some content
      ∧ validationResults content = Some []
      ∧ sections content = sections c
      ∧ ex_stage <$> executions w' !! k = Some Finished.
Proof.
  intros Hfail Hnd He Hst Hi.
  assert (validateContentCoherence o = []) as Hempty.
  { destruct o as [reply|message]; simpl in *; [by rewrite Hfail|done]. }
  split; [done|].
  destruct (validating_completes k o env w e c job Hnd He Hst Hi)
    as (w' & Hres & Hi' & He').
  eexists w', _, _. split_and!; [done|done|done|done| |done|by rewrite He'].
  simpl. by rewrite Hempty.
Qed.

(** ** The job manager: progress *)
















Global Instance progress_le_transitive : Transitive progress_le.
Proof. intros a b c. unfold progress_le. apply Qle_trans. Qed.



Lemma validation_failure_is_not_fatal_witness :
  @validation_failed Ex.parser (Resolved "Sorry, no JSON")
  ∧ @validateContentCoherence Ex.parser (Resolved "Sorry, no JSON") = []
  ∧ ∃ w' job' content,
      @resume Ex.parser 0 (Completion (Resolved "Sorry, no JSON")) (Ex.env 5)
              Ex.validating_world = Some w'
      ∧ generationJobs w' !! ex_job Ex.validating_execution = Some job'
      ∧ status job' = completed
      ∧ result job' = Some content
      ∧ validationResults content = Some []
      ∧ sections content = sections Ex.validating_content
      ∧ ex_stage <$> executions w' !! 0 = Some Finished.
Proof.
  split; [reflexivity|].
  eapply (@validation_failure_is_not_fatal Ex.parser (Resolved "Sorry, no JSON")
            Ex.validating_world 0 Ex.validating_execution Ex.validating_content
            (Ex.env 5)).
  - reflexivity.
  - apply (bool_decide_unpack _). vm_compute. exact I.
  - vm_compute. reflexivity.
  - reflexivity.
  - vm_compute. reflexivity.
Defined.

(** ** The job manager: retry *)

Lemma omap_resolvable {A B} (f : A → option B) (l : list A) x y :
  x ∈ l → f x = Some y → omap f l ≠ [].
Proof.
  intros Hx Hf Hnil.
  assert (y ∈ omap f l) as Hy by (apply list_elem_of_omap; eauto).
  rewrite Hnil in Hy. by apply not_elem_of_nil in Hy.
Qed.

Lemma omap_unresolvable {A B} (f : A → option B) (l : list A) :
  (∀ x, x ∈ l → f x = None) → omap f l = [].
Proof.
  intros Hnone. destruct (omap f l) as [|y l'] eqn:Homap; [done|].
  assert (y ∈ omap f l) as Hy by (rewrite Homap; by left).
  apply list_elem_of_omap in Hy as (x & Hx & Hfx).
  by rewrite (Hnone x Hx) in Hfx.
Qed.

(** C9. [retryJob] returns false, and changes nothing, for an unknown job
    id and for a job that is queued, processing or completed; applied to a
    failed job whose template resolves and of whose source documents at
    least one resolves, it returns true, sets the progress to 0, clears
    the error, makes the job queued, emits the job and schedules a new
    execution of [processJob] for it. *)
Theorem retry_only_from_failed (id : string) (now : Date) (w : World) :
  ((getJobById id w = None
    ∨ ∃ i job, getJobById id w = Some i ∧ generationJobs w !! i = Some job
               ∧ status job ≠ failed) →
   retryJob id now w = (false, w))
  ∧ (∀ i job template docId doc,
       getJobById id w = Some i → generationJobs w !! i = Some job →
       status job = failed →
       getTemplateById (templateId job) w = Some template →
       docId ∈ sourceDocumentIds job → getDocumentById docId w = Some doc →
       ∃ w' job',
         retryJob id now w = (true, w')
         ∧ generationJobs w' = <[i := job']> (generationJobs w)
         ∧ status job' = queued ∧ progress job' = 0%Q ∧ error job' = None
         ∧ job_id job' = job_id job ∧ templateId job' = templateId job
         ∧ sourceDocumentIds job' = sourceDocumentIds job
         ∧ result job' = result job ∧ metadata job' = metadata job
         ∧ emitted w' = emitted w ++ [emission w job']
         ∧ executions w'
           = executions w
             ++ [{| ex_job := i; ex_template := template;
                    ex_sourceDocuments :=
                      omap (λ id, getDocumentById id w) (sourceDocumentIds job);
                    ex_stage := Scheduled |}]).
Proof.
  split.
  - intros [Hnone|(i & job & Hget & Hi & Hst)]; unfold retryJob.
    + by rewrite Hnone.
    + rewrite Hget, Hi. by rewrite decide_True.
  - intros i job template docId doc Hget Hi Hst Htpl Hin Hdoc.
    destruct (retryJob_cases id now w)
      as [Hno|(i' & job0 & t' & ds & Hget' & Hi' & _ & Htpl' & -> & _ & ->)].
    + exfalso. revert Hno. unfold retryJob. rewrite Hget, Hi, Htpl.
      rewrite decide_False by (intros Hne; by apply Hne).
      rewrite decide_False; [done|].
      intros Hlen%nil_length_inv.
      by apply (omap_resolvable (λ id, getDocumentById id w)
                  (sourceDocumentIds job) docId doc Hin Hdoc).
    + rewrite Hget in Hget'. injection Hget' as <-.
      rewrite Hi in Hi'. injection Hi' as <-.
      rewrite Htpl in Htpl'. injection Htpl' as <-.
      exists (schedule i template
                (omap (λ id, getDocumentById id w) (sourceDocumentIds job))
                (emitJobEvent (requeue now job)
                   (set_jobs (<[i:=requeue now job]> (generationJobs w)) w))),
             (requeue now job).
      split_and!; done.
Qed.

(** C10. Applied to a failed job whose template does not resolve, or none
    of whose source documents resolves, [retryJob] returns false and
    leaves the world as it is: the job record is unchanged, no event is
    emitted and no execution is scheduled. *)
Theorem retry_unresolvable_changes_nothing (id : string) (now : Date) (w : World)
    (i : nat) (job : GenerationJob) :
  getJobById id w = Some i → generationJobs w !! i = Some job →
  status job = failed →
  (getTemplateById (templateId job) w = None
   ∨ ∀ docId, docId ∈ sourceDocumentIds job → getDocumentById docId w = None) →
  retryJob id now w = (false, w)
  ∧ generationJobs (retryJob id now w).2 !! i = Some job
  ∧ emitted (retryJob id now w).2 = emitted w
  ∧ executions (retryJob id now w).2 = executions w.
Proof.
  intros Hget Hi Hst Hunres.
  assert (retryJob id now w = (false, w)) as ->; [|done].
  unfold retryJob. rewrite Hget, Hi.
  rewrite decide_False by (intros Hne; by apply Hne).
  destruct Hunres as [->|Hdocs]; [done|].
  destruct (getTemplateById (templateId job) w); [|done].
  by rewrite (omap_unresolvable _ _ Hdocs).
Qed.

Lemma retry_unresolvable_changes_nothing_witness :
  getJobById "j1" Ex.failed_world = Some 0
  ∧ (status <$> generationJobs Ex.failed_world !! 0) = Some failed
  ∧ retryJob "j1" 9 Ex.failed_world = (false, Ex.failed_world).
Proof.
  split; [reflexivity|]. split; [vm_compute; reflexivity|].
  eapply (retry_unresolvable_changes_nothing "j1" 9 Ex.failed_world 0).
  - reflexivity.
  - vm_compute. reflexivity.
  - reflexivity.
  - left. reflexivity.
Defined.

(** The same job with template and document stored again: the retry is
    applied. *)
Example retry_restored :
  (retryJob "j1" 9 Ex.restored_world).1 = true
  ∧ (λ job, (status job, progress job, error job))
      <$> generationJobs (retryJob "j1" 9 Ex.restored_world).2 !! 0
    = Some (queued, 0%Q, None)
  ∧ ex_stage <$> executions (retryJob "j1" 9 Ex.restored_world).2
    = [Delay500; Scheduled].
Proof. vm_compute. done. Qed.

(** ** The event bus *)

(** Every registered callback receives the copy, in the order of the
    registrations. *)
Lemma emitJobEvent_receivers job w :
  emitted (emitJobEvent job w)
  = emitted w ++ [{| em_job := job;
                     em_handlers := default [] (jobEventListeners w !! job_id job) |}].
Proof. done. Qed.

Lemma addJobEventListener_last id callback w :
  jobEventListeners (addJobEventListener id callback w) !! id
  = Some (default [] (jobEventListeners w !! id) ++ [callback]).
Proof. unfold addJobEventListener. simpl. apply lookup_insert_eq. Qed.

Lemma assign_own_frame received a (h ext : Heap.heap) :
  Heap.path a = [] → length h ≤ received →
  ∃ ext', Heap.assign received a (h ++ ext) = h ++ ext'.
Proof.
  intros Hpath Hle. unfold Heap.assign. rewrite Hpath.
  change (Heap.resolve (h ++ ext) received []) with (Some received).
  exists (alter (JS.obj_set (Heap.field a) (Heap.assigned a)) (received - length h) ext).
  by apply alter_app_r_alt.
Qed.

Lemma call_own_frame callback received (h ext : Heap.heap) :
  Forall (λ a, Heap.path a = []) callback → length h ≤ received →
  ∃ ext', Heap.call callback received (h ++ ext) = h ++ ext'.
Proof.
  intros Hown Hle. revert ext. unfold Heap.call.
  induction Hown as [|a callback Ha _ IH]; intros ext; simpl; [eauto|].
  destruct (assign_own_frame received a h ext Ha Hle) as [ext' ->]. apply IH.
Qed.

(** The part of the copy that works: assignments to the properties of the
    received object itself change no object that was there before. *)
Lemma own_assignments_frame (jobEventListeners : gmap string (list Heap.Callback))
    (job : Heap.loc) (h : Heap.heap) :
  (∀ id callbacks, jobEventListeners !! id = Some callbacks →
                   Forall (Forall (λ a, Heap.path a = [])) callbacks) →
  ∃ ext, Heap.emitJobEvent jobEventListeners job h = h ++ ext.
Proof.
  intros Hown. unfold Heap.emitJobEvent.
  destruct (h !! job) as [o|]; [|exists []; by rewrite app_nil_r].
  destruct (Heap.get o "id") as [|id| |]; try (exists []; by rewrite app_nil_r).
  destruct (jobEventListeners !! id) as [callbacks|] eqn:Hcbs;
    [|exists []; by rewrite app_nil_r].
  specialize (Hown id callbacks Hcbs).
  remember (λ (h0 : Heap.heap) (callback : Heap.Callback),
              let '(copy, h') := Heap.spread job h0 in
              Heap.call callback copy h') as deliver eqn:Hdeliver.
  assert (∀ ext, ∃ ext', fold_left deliver callbacks (h ++ ext) = h ++ ext')
    as Hfold.
  { clear Hcbs.
    induction Hown as [|callback callbacks Hcb _ IH]; intros ext; simpl; [eauto|].
    assert (deliver (h ++ ext) callback
            = Heap.call callback (length (h ++ ext))
                (h ++ (ext ++ [default [] ((h ++ ext) !! job)]))) as ->.
    { rewrite Hdeliver. unfold Heap.spread. by rewrite <- app_assoc. }
    destruct (call_own_frame callback (length (h ++ ext)) h
                (ext ++ [default [] ((h ++ ext) !! job)]) Hcb) as [ext' ->].
    { rewrite length_app. lia. }
    apply IH. }
  destruct (Hfold []) as [ext Hext]. rewrite app_nil_r in Hext. eauto.
Qed.

(** C8: the code at a callback that assigns through a property of the
    object it receives. The copy shares the metadata object with the
    stored job, and the assignment changes the metadata of the stored job. *)
Theorem handler_changes_stored_job :
  Heap.read Ex.heap0 1 ["metadata"] "assetName" = Heap.Str "Tower"
  ∧ Heap.read (Heap.emitJobEvent Ex.meddling 1 Ex.heap0) 1 ["metadata"] "assetName"
    = Heap.Str "X"
  ∧ ¬ Heap.handlers_cannot_change_job.
Proof.
  assert (Heap.read (Heap.emitJobEvent Ex.meddling 1 Ex.heap0) 1 ["metadata"]
                    "assetName" = Heap.Str "X") as Hafter by (vm_compute; reflexivity).
  split_and!; [reflexivity|exact Hafter|].
  intros Hclaim. rewrite Hclaim in Hafter. vm_compute in Hafter. discriminate.
Qed.

(** An assignment to a property of the copy itself leaves the stored job
    as it was. *)
Example own_assignment_is_harmless :
  Heap.emitJobEvent Ex.overwriting 1 Ex.heap0 !! 1 = Ex.heap0 !! 1
  ∧ Heap.read (Heap.emitJobEvent Ex.overwriting 1 Ex.heap0) 2 [] "status"
    = Heap.Str "completed".
Proof. vm_compute. done. Qed.

(** * Further properties of the code *)

(** ** The template parser *)

Lemma trimEnd_cons c s :
  JS.is_space c = false → ∃ t, Text.trimEnd (String c s) = String c t.
Proof. intros Hc. simpl. destruct (Text.trimEnd s); rewrite ?Hc; eauto. Qed.

Lemma trimStart_head s :
  Text.trimStart s = ""
  ∨ ∃ c t, Text.trimStart s = String c t ∧ JS.is_space c = false.
Proof.
  induction s as [|c s IH]; simpl; [by left|].
  destruct (JS.is_space c) eqn:Hc; [done|]. right. eauto.
Qed.

Lemma trim_head s :
  Text.trim s = "" ∨ ∃ c t, Text.trim s = String c t ∧ JS.is_space c = false.
Proof.
  unfold Text.trim. destruct (trimStart_head s) as [->|(c & t & -> & Hc)]; [by left|].
  right. destruct (trimEnd_cons c t Hc) as [t' ->]. eauto.
Qed.

Lemma trim_of_head c s : JS.is_space c = false → Text.trim (String c s) ≠ "".
Proof.
  intros Hc. unfold Text.trim. change (Text.trimStart (String c s))
    with (if JS.is_space c then Text.trimStart s else String c s).
  rewrite Hc. by destruct (trimEnd_cons c s Hc) as [t ->].
Qed.

Lemma third_level_created uuid title : third_level (createSection uuid title 3).
Proof. done. Qed.

Lemma second_level_created uuid title : second_level (createSection uuid title 2).
Proof. split; [done|constructor]. Qed.

Lemma first_level_created uuid title : first_level (createSection uuid title 1).
Proof. split; [done|constructor]. Qed.

Lemma parse_line_levels uuidv4 p raw :
  parser_levels p → parser_levels (parse_line uuidv4 p raw).
Proof.
  intros [Hparsed Hcur]. unfold parse_line.
  case_decide as Hline; [done|].
  destruct (Text.startsWith "# " _).
  { split; simpl; [|split; [apply first_level_created|done]].
    apply Forall_app. split; [done|].
    destruct (currentSection p); simpl; [|constructor].
    constructor; [tauto|constructor]. }
  destruct (Text.startsWith "## " _).
  { destruct (currentSection p) as [section|] eqn:Hsec;
      [|split; [done|by rewrite Hsec]].
    destruct Hcur as [[Hlevel Hchildren] _]. split; simpl; [done|]. split.
    - split; [done|]. apply Forall_app. split; [done|].
      constructor; [|constructor]. left. apply second_level_created.
    - eexists. split; [by apply list_lookup_middle|apply second_level_created]. }
  destruct (Text.startsWith "### " _).
  { split; simpl; [done|].
    destruct (currentSection p) as [section|]; [|by destruct (currentSubSection p)].
    destruct Hcur as [[Hlevel Hchildren] Hsub].
    destruct (currentSubSection p) as [j|].
    - destruct Hsub as (child & Hj & Hl2 & Hch). simpl. split.
      + split; [done|]. apply Forall_alter; [done|].
        intros x Hx _. rewrite Hj in Hx. injection Hx as <-. left.
        split; [done|]. simpl. apply Forall_app. split; [done|].
        constructor; [apply third_level_created|constructor].
      + eexists. split; [by rewrite list_lookup_alter_eq, Hj|].
        split; [done|]. simpl. apply Forall_app. split; [done|].
        constructor; [apply third_level_created|constructor].
    - split; [|done]. split; [done|]. simpl. apply Forall_app. split; [done|].
      constructor; [|constructor]. right. apply third_level_created. }
  split; simpl; [done|].
  destruct (currentSection p) as [section|]; [|by destruct (currentSubSection p)].
  destruct Hcur as [[Hlevel Hchildren] Hsub].
  destruct (currentSubSection p) as [j|].
  - destruct Hsub as (child & Hj & Hl2 & Hch). simpl. split.
    + split; [done|]. apply Forall_alter; [done|].
      intros x Hx _. rewrite Hj in Hx. injection Hx as <-. by left.
    + eexists. split; [by rewrite list_lookup_alter_eq, Hj|]. done.
  - done.
Qed.

Lemma parse_lines_levels uuidv4 lines p :
  parser_levels p → parser_levels (fold_left (parse_line uuidv4) lines p).
Proof.
  revert p. induction lines as [|raw lines IH]; intros p Hp; [done|].
  simpl. by apply IH, parse_line_levels.
Qed.

Lemma parseTemplateContent_levels uuidv4 content :
  Forall first_level (parseTemplateContent uuidv4 content).
Proof.
  unfold parseTemplateContent, parse_lines.
  destruct (parse_lines_levels uuidv4 (Text.split Text.LF content)
              {| parsed := []; currentSection := None;
                 currentSubSection := None; drawn := 0 |}) as [Hparsed Hcur].
  { split; [constructor|done]. }
  apply Forall_app. split; [done|].
  destruct (currentSection _); simpl; [|constructor].
  constructor; [tauto|constructor].
Qed.


Lemma nodes_of_cons x l : nodes_of (x :: l) = section_nodes x ++ nodes_of l.
Proof. done. Qed.

Lemma nodes_of_app l1 l2 : nodes_of (l1 ++ l2) = nodes_of l1 ++ nodes_of l2.
Proof. apply flat_map_app. Qed.

Lemma section_nodes_unfold s : section_nodes s = s :: nodes_of (sec_children s).
Proof. by destruct s. Qed.

(** What one turn of the loop does: nothing; or it pushes the current
    section and begins a new one; or it adds a new section below the
    current one; or it adds a line of text to the current section or to
    its current subsection. *)
Lemma parse_line_cases uuidv4 p raw :
  let p' := parse_line uuidv4 p raw in
  (p' = p ∧ is_top_heading raw = false)
  ∨ (is_top_heading raw = true ∧ parsed p' = top_sections p
     ∧ currentSection p'
       = Some (createSection (uuidv4 (drawn p))
                 (Text.substring_from 2 (Text.trim raw)) 1)
     ∧ drawn p' = S (drawn p))
  ∨ (is_top_heading raw = false ∧ parsed p' = parsed p ∧ drawn p' = S (drawn p)
     ∧ ∃ title level,
         currentSection p'
         = push_child (createSection (uuidv4 (drawn p)) title level)
           <$> currentSection p
         ∨ ∃ j, currentSection p'
                = alter_child
                    (push_child (createSection (uuidv4 (drawn p)) title level)) j
                  <$> currentSection p)
  ∨ (is_top_heading raw = false ∧ parsed p' = parsed p ∧ drawn p' = drawn p
     ∧ ∃ c rest, JS.is_space c = false
         ∧ (currentSection p' = append_line (String c rest) <$> currentSection p
            ∨ ∃ j, currentSection p'
                   = alter_child (append_line (String c rest)) j
                     <$> currentSection p)).
Proof.
  simpl. unfold parse_line, is_top_heading.
  case_decide as Hline; [left; by rewrite Hline|].
  destruct (Text.startsWith "# " _) eqn:Htop; [right; left; done|].
  destruct (Text.startsWith "## " _).
  { destruct (currentSection p) as [section|] eqn:Hsec; [|by left].
    right. right. left. simpl. split_and!; try done. eauto. }
  destruct (Text.startsWith "### " _).
  { right. right. left. simpl. split_and!; try done.
    eexists _, _.
    destruct (currentSubSection p) as [j|], (currentSection p); simpl; eauto. }
  right. right. right. simpl. split_and!; try done.
  destruct (trim_head raw) as [?|(c & rest & Hraw & Hc)]; [done|].
  exists c, rest. rewrite Hraw. split; [done|].
  destruct (currentSubSection p) as [j|], (currentSection p); simpl; eauto.
Qed.

Lemma top_sections_edit p p' f :
  parsed p' = parsed p → currentSection p' = f <$> currentSection p →
  top_sections p' = parsed p ++ (f <$> option_list (currentSection p)).
Proof.
  intros Hparsed Hcur. unfold top_sections. rewrite Hparsed, Hcur.
  by destruct (currentSection p).
Qed.

Lemma Forall_nodes_alter (P : TemplateSection → Prop) f j l :
  Forall P (nodes_of l) →
  (∀ x, Forall P (section_nodes x) → Forall P (section_nodes (f x))) →
  Forall P (nodes_of (alter f j l)).
Proof.
  intros Hl Hf. revert j. induction l as [|x l IH]; intros j; [done|].
  rewrite nodes_of_cons in Hl. apply Forall_app in Hl as [Hx Hl].
  destruct j as [|j].
  - change (alter f 0 (x :: l)) with (f x :: l).
    rewrite nodes_of_cons. apply Forall_app. auto.
  - change (alter f (S j) (x :: l)) with (x :: alter f j l).
    rewrite nodes_of_cons. apply Forall_app. auto.
Qed.

Lemma text_begins_push child section :
  Forall text_begins (section_nodes child) →
  Forall text_begins (section_nodes section) →
  Forall text_begins (section_nodes (push_child child section)).
Proof.
  rewrite !(section_nodes_unfold section), (section_nodes_unfold (push_child _ _)).
  intros Hchild [Hroot Hrest]%Forall_cons. simpl. constructor; [done|].
  rewrite nodes_of_app. apply Forall_app. split; [done|].
  unfold nodes_of. simpl. by rewrite app_nil_r.
Qed.

Lemma text_begins_append c rest section :
  JS.is_space c = false →
  Forall text_begins (section_nodes section) →
  Forall text_begins (section_nodes (append_line (String c rest) section)).
Proof.
  rewrite (section_nodes_unfold section), (section_nodes_unfold (append_line _ _)).
  intros Hc [Hroot Hrest]%Forall_cons. simpl. constructor; [|done].
  right. unfold append_line. cbn [sec_content sec_type].
  destruct Hroot as [[Hcontent Htype]|(c' & rest' & Hcontent & Hc' & Htype)];
    rewrite Hcontent, Htype.
  - exists c, (rest ++ nl)%string. split_and!; [done..|].
    rewrite decide_True; [done|]. split; [done|]. by apply trim_of_head.
  - exists c', (rest' ++ String c rest ++ nl)%string. split_and!; [done..|].
    by rewrite decide_False by (by intros [? _]).
Qed.

Lemma text_begins_alter_child f j section :
  (∀ x, Forall text_begins (section_nodes x) →
        Forall text_begins (section_nodes (f x))) →
  Forall text_begins (section_nodes section) →
  Forall text_begins (section_nodes (alter_child f j section)).
Proof.
  rewrite (section_nodes_unfold section), (section_nodes_unfold (alter_child _ _ _)).
  intros Hf [Hroot Hrest]%Forall_cons. simpl. constructor; [done|].
  by apply Forall_nodes_alter.
Qed.

Lemma parse_line_text uuidv4 p raw :
  Forall text_begins (nodes_of (top_sections p)) →
  Forall text_begins (nodes_of (top_sections (parse_line uuidv4 p raw))).
Proof.
  intros Hp.
  assert (∀ f p',
            (∀ x, Forall text_begins (section_nodes x) →
                  Forall text_begins (section_nodes (f x))) →
            parsed p' = parsed p → currentSection p' = f <$> currentSection p →
            Forall text_begins (nodes_of (top_sections p'))) as Hedit.
  { intros f p' Hf Hparsed Hcur.
    rewrite (top_sections_edit p p' f Hparsed Hcur).
    unfold top_sections in Hp. rewrite nodes_of_app in *.
    apply Forall_app in Hp as [Hp1 Hp2]. apply Forall_app. split; [done|].
    destruct (currentSection p) as [section|]; [|done]. simpl in *.
    unfold nodes_of in *. simpl in *. rewrite app_nil_r in *. by apply Hf. }
  assert (∀ uuid title level,
            Forall text_begins (section_nodes (createSection uuid title level)))
    as Hnew.
  { intros uuid title level. repeat constructor. }
  destruct (parse_line_cases uuidv4 p raw)
    as [[-> _]|[(_ & Hparsed & Hcur & _)
       |[(_ & Hparsed & _ & title & level & [Hcur|[j Hcur]])
        |(_ & Hparsed & _ & c & rest & Hc & [Hcur|[j Hcur]])]]]; [done|..].
  - unfold top_sections at 1. rewrite Hparsed, Hcur, nodes_of_app.
    apply Forall_app. split; [done|]. simpl. repeat constructor.
  - eapply Hedit; [|done..]. intros x. by apply text_begins_push.
  - eapply Hedit; [|done..]. intros x. apply text_begins_alter_child.
    intros y. by apply text_begins_push.
  - eapply Hedit; [|done..]. intros x. by apply text_begins_append.
  - eapply Hedit; [|done..]. intros x. apply text_begins_alter_child.
    intros y. by apply text_begins_append.
Qed.

(** X2. Every section [parseTemplateContent] makes, at any depth, has the
    type heading when it has no text and the type text when it has some;
    no other type is given. *)
Theorem parsed_type_follows_text (uuidv4 : nat → string) (content : string) :
  Forall typed_by_content (nodes_of (parseTemplateContent uuidv4 content)).
Proof.
  assert (∀ lines p,
            Forall text_begins (nodes_of (top_sections p)) →
            Forall text_begins
              (nodes_of (top_sections (fold_left (parse_line uuidv4) lines p))))
    as Hloop.
  { induction lines as [|raw lines IH]; intros p Hp; [done|].
    simpl. by apply IH, parse_line_text. }
  eapply Forall_impl; [apply (Hloop (Text.split Text.LF content)); constructor|].
  intros section [[Hcontent Htype]|(c & rest & Hcontent & _ & Htype)].
  - by left.
  - right. by rewrite Hcontent.
Qed.

Lemma parse_line_titles uuidv4 p raw :
  sec_title <$> top_sections (parse_line uuidv4 p raw)
  = (sec_title <$> top_sections p)
    ++ (if is_top_heading raw then [top_title raw] else []).
Proof.
  assert (∀ f p',
            (∀ x, sec_title (f x) = sec_title x) →
            parsed p' = parsed p → currentSection p' = f <$> currentSection p →
            sec_title <$> top_sections p' = sec_title <$> top_sections p) as Hedit.
  { intros f p' Hf Hparsed Hcur.
    rewrite (top_sections_edit p p' f Hparsed Hcur). unfold top_sections.
    rewrite !fmap_app. f_equal. destruct (currentSection p); [|done].
    simpl. by rewrite Hf. }
  destruct (parse_line_cases uuidv4 p raw)
    as [[-> ->]|[(-> & Hparsed & Hcur & _)
       |[(-> & Hparsed & _ & title & level & [Hcur|[j Hcur]])
        |(-> & Hparsed & _ & c & rest & Hc & [Hcur|[j Hcur]])]]];
    rewrite ?app_nil_r.
  - done.
  - unfold top_sections at 1. rewrite Hparsed, Hcur, fmap_app. done.
  - eapply Hedit; [|done..]. done.
  - eapply Hedit; [|done..]. done.
  - eapply Hedit; [|done..]. done.
  - eapply Hedit; [|done..]. done.
Qed.

(** X3. [parseTemplateContent] returns one section for each line that,
    trimmed, begins with [# ], in the order of these lines, and the title
    of the section is the rest of the line, trimmed. In particular a text
    without such a line gives no section: what stands before the first
    heading of level 1 is dropped. *)
Theorem parsed_top_sections (uuidv4 : nat → string) (content : string) :
  sec_title <$> parseTemplateContent uuidv4 content
  = top_title <$> filter (λ raw, is_top_heading raw = true)
                         (Text.split Text.LF content).
Proof.
  assert (∀ lines p,
            sec_title <$> top_sections (fold_left (parse_line uuidv4) lines p)
            = (sec_title <$> top_sections p)
              ++ (top_title <$> filter (λ raw, is_top_heading raw = true) lines))
    as Hloop.
  { induction lines as [|raw lines IH]; intros p; simpl; [by rewrite app_nil_r|].
    rewrite IH, parse_line_titles, <- app_assoc. f_equal.
    rewrite filter_cons. by destruct (is_top_heading raw). }
  apply (Hloop (Text.split Text.LF content)).
Qed.

Lemma ids_push child section :
  sec_id <$> section_nodes (push_child child section)
  = (sec_id <$> section_nodes section) ++ (sec_id <$> section_nodes child).
Proof.
  rewrite (section_nodes_unfold section), (section_nodes_unfold (push_child _ _)).
  simpl. rewrite nodes_of_app, fmap_app. unfold nodes_of at 2. simpl.
  by rewrite app_nil_r.
Qed.

Lemma ids_append line section :
  sec_id <$> section_nodes (append_line line section)
  = sec_id <$> section_nodes section.
Proof.
  by rewrite (section_nodes_unfold section), (section_nodes_unfold (append_line _ _)).
Qed.

Lemma ids_alter f j l extra :
  (∀ x, sec_id <$> section_nodes (f x) ⊆+ (sec_id <$> section_nodes x) ++ extra) →
  sec_id <$> nodes_of (alter f j l) ⊆+ (sec_id <$> nodes_of l) ++ extra.
Proof.
  intros Hf. revert j. induction l as [|x l IH]; intros j.
  - apply submseteq_nil_l.
  - destruct j as [|j].
    + change (alter f 0 (x :: l)) with (f x :: l).
      rewrite !nodes_of_cons, !fmap_app.
      rewrite <- (assoc_L (++)), (comm (++) _ extra), (assoc_L (++)).
      by apply submseteq_app.
    + change (alter f (S j) (x :: l)) with (x :: alter f j l).
      rewrite !nodes_of_cons, !fmap_app, <- (assoc_L (++)).
      by apply submseteq_app.
Qed.

Lemma ids_alter_child f j section extra :
  (∀ x, sec_id <$> section_nodes (f x) ⊆+ (sec_id <$> section_nodes x) ++ extra) →
  sec_id <$> section_nodes (alter_child f j section)
  ⊆+ (sec_id <$> section_nodes section) ++ extra.
Proof.
  intros Hf.
  rewrite (section_nodes_unfold section), (section_nodes_unfold (alter_child _ _ _)).
  simpl. apply submseteq_skip. by apply ids_alter.
Qed.

Lemma parse_line_ids uuidv4 p raw :
  sec_id <$> nodes_of (top_sections p) ⊆+ uuidv4 <$> seq 0 (drawn p) →
  sec_id <$> nodes_of (top_sections (parse_line uuidv4 p raw))
  ⊆+ uuidv4 <$> seq 0 (drawn (parse_line uuidv4 p raw)).
Proof.
  intros Hp.
  assert (∀ f p' extra,
            (∀ x, sec_id <$> section_nodes (f x)
                  ⊆+ (sec_id <$> section_nodes x) ++ extra) →
            parsed p' = parsed p → currentSection p' = f <$> currentSection p →
            sec_id <$> nodes_of (top_sections p')
            ⊆+ (sec_id <$> nodes_of (top_sections p)) ++ extra) as Hedit.
  { intros f p' extra Hf Hparsed Hcur.
    rewrite (top_sections_edit p p' f Hparsed Hcur). unfold top_sections.
    rewrite !nodes_of_app, !fmap_app, <- (assoc_L (++)).
    apply submseteq_app; [done|].
    destruct (currentSection p) as [section|]; simpl.
    - unfold nodes_of. simpl. rewrite !app_nil_r. apply Hf.
    - apply submseteq_nil_l. }
  assert (uuidv4 <$> seq 0 (S (drawn p))
          = (uuidv4 <$> seq 0 (drawn p)) ++ [uuidv4 (drawn p)]) as Hseq.
  { by rewrite seq_S, fmap_app. }
  destruct (parse_line_cases uuidv4 p raw)
    as [[-> _]|[(_ & Hparsed & Hcur & ->)
       |[(_ & Hparsed & -> & title & level & [Hcur|[j Hcur]])
        |(_ & Hparsed & -> & c & rest & Hc & [Hcur|[j Hcur]])]]]; [done|..].
  - unfold top_sections at 1. rewrite Hparsed, Hcur, nodes_of_app, fmap_app, Hseq.
    by apply submseteq_app.
  - rewrite Hseq. etrans; [|by apply submseteq_app].
    eapply Hedit; [|done..]. intros x. by rewrite ids_push.
  - rewrite Hseq. etrans; [|by apply submseteq_app].
    eapply Hedit; [|done..]. intros x. apply ids_alter_child.
    intros y. by rewrite ids_push.
  - rewrite <- (app_nil_r (uuidv4 <$> _)). etrans; [|by apply submseteq_app].
    eapply Hedit; [|done..]. intros x. by rewrite ids_append, app_nil_r.
  - rewrite <- (app_nil_r (uuidv4 <$> _)). etrans; [|by apply submseteq_app].
    eapply Hedit; [|done..]. intros x. apply ids_alter_child.
    intros y. by rewrite ids_append, app_nil_r.
Qed.

Lemma parse_line_drawn uuidv4 p raw :
  drawn (parse_line uuidv4 p raw) ≤ S (drawn p).
Proof.
  destruct (parse_line_cases uuidv4 p raw)
    as [[-> _]|[(_ & _ & _ & ->)|[(_ & _ & -> & _)|(_ & _ & -> & _)]]]; lia.
Qed.

Lemma parse_lines_ids uuidv4 lines p :
  sec_id <$> nodes_of (top_sections p) ⊆+ uuidv4 <$> seq 0 (drawn p) →
  let p' := fold_left (parse_line uuidv4) lines p in
  sec_id <$> nodes_of (top_sections p') ⊆+ uuidv4 <$> seq 0 (drawn p')
  ∧ drawn p' ≤ drawn p + length lines.
Proof.
  revert p. induction lines as [|raw lines IH]; intros p Hp; simpl.
  - split; [done|lia].
  - destruct (IH (parse_line uuidv4 p raw)) as [Hids Hdrawn];
      [by apply parse_line_ids|].
    split; [done|]. pose proof (parse_line_drawn uuidv4 p raw). simpl in *. lia.
Qed.

Lemma parseTemplateContent_ids uuidv4 content :
  NoDup (uuidv4 <$> seq 0 (length (Text.split Text.LF content))) →
  NoDup (sec_id <$> nodes_of (parseTemplateContent uuidv4 content)).
Proof.
  intros Hnd.
  destruct (parse_lines_ids uuidv4 (Text.split Text.LF content)
              {| parsed := []; currentSection := None;
                 currentSubSection := None; drawn := 0 |}) as [Hids Hdrawn].
  { apply submseteq_nil_l. }
  simpl in Hdrawn.
  fold (parse_lines uuidv4 (Text.split Text.LF content)) in Hids, Hdrawn.
  change (parseTemplateContent uuidv4 content)
    with (top_sections (parse_lines uuidv4 (Text.split Text.LF content))).
  apply submseteq_Permutation in Hids as [rest Hperm].
  assert (NoDup (uuidv4 <$> seq 0 (drawn (parse_lines uuidv4
                                            (Text.split Text.LF content))))) as Hnd'.
  { assert (uuidv4 <$> seq 0 (drawn (parse_lines uuidv4 (Text.split Text.LF content)))
            `sublist_of` uuidv4 <$> seq 0 (length (Text.split Text.LF content)))
      as Hsub; [|by eapply sublist_NoDup].
    apply fmap_sublist.
    replace (length (Text.split Text.LF content))
      with (drawn (parse_lines uuidv4 (Text.split Text.LF content))
            + (length (Text.split Text.LF content)
               - drawn (parse_lines uuidv4 (Text.split Text.LF content)))) by lia.
    rewrite seq_app. by apply sublist_inserts_r. }
  rewrite Hperm in Hnd'. by apply NoDup_app in Hnd' as [? _].
Qed.

(** X4. When [uuidv4()] does not return an identifier twice (at most one
    is drawn for a line of the text), the sections [parseTemplateContent]
    makes, at all depths, have pairwise distinct identifiers. *)
Theorem parsed_ids_distinct (uuidv4 : nat → string) (content : string) :
  NoDup (uuidv4 <$> seq 0 (length (Text.split Text.LF content))) →
  NoDup (sec_id <$> nodes_of (parseTemplateContent uuidv4 content)).
Proof.
  intros Hnd. set (lines := Text.split Text.LF content) in *.
  change (parseTemplateContent uuidv4 content)
    with (top_sections (parse_lines uuidv4 lines)).
  destruct (parse_lines_ids uuidv4 lines
              {| parsed := []; currentSection := None;
                 currentSubSection := None; drawn := 0 |}) as [Hids Hdrawn].
  { apply submseteq_nil_l. }
  fold (parse_lines uuidv4 lines) in Hids, Hdrawn. simpl in Hdrawn.
  assert (uuidv4 <$> seq 0 (drawn (parse_lines uuidv4 lines))
          `sublist_of` uuidv4 <$> seq 0 (length lines)) as Hsub.
  { apply fmap_sublist.
    replace (length lines)
      with (drawn (parse_lines uuidv4 lines)
            + (length lines - drawn (parse_lines uuidv4 lines))) by lia.
    rewrite seq_app. by apply sublist_inserts_r. }
  apply submseteq_Permutation in Hids as [rest Hperm].
  pose proof (sublist_NoDup _ _ Hnd Hsub) as Hnd'.
  rewrite Hperm in Hnd'. by apply NoDup_app in Hnd' as [? _].
Qed.

Lemma parsed_ids_distinct_witness :
  NoDup (Sample.uuids <$> seq 0 (length (Text.split Text.LF Sample.headings)))
  ∧ NoDup (sec_id <$> nodes_of (parseTemplateContent Sample.uuids Sample.headings)).
Proof.
  assert (NoDup (Sample.uuids
                   <$> seq 0 (length (Text.split Text.LF Sample.headings)))) as Hnd.
  { apply (bool_decide_unpack _). vm_compute. exact I. }
  split; [exact Hnd|]. exact (parsed_ids_distinct _ _ Hnd).
Defined.

(** The parser on three headings, one below the other: the text after the
    third heading goes to the section of the second. *)
Example parse_headings :
  parseTemplateContent Sample.uuids Sample.headings
  = [mkTemplateSection "a" "A" "" heading (Some 1%Z)
       [mkTemplateSection "b" "B" ("body of B" ++ nl) text (Some 2%Z)
          [mkTemplateSection "c" "C" "" heading (Some 3%Z) []]]].
Proof. vm_compute. reflexivity. Qed.

(** ** Parsed templates in the pipeline *)

Lemma filter_none {A} (P : A → Prop) `{∀ x, Decision (P x)} (l : list A) :
  Forall (λ x, ¬ P x) l → filter P l = [].
Proof.
  induction 1 as [|x l Hx _ IH]; [done|].
  by rewrite filter_cons, decide_False.
Qed.

Lemma sorted_three {A} (key : A → Z) (l : list A) :
  StronglySorted (λ a b, key a ≤ key b)%Z l →
  Forall (λ x, key x = 1 ∨ key x = 2 ∨ key x = 3)%Z l →
  l = filter (λ x, key x = 1%Z) l ++ filter (λ x, key x = 2%Z) l
      ++ filter (λ x, key x = 3%Z) l.
Proof.
  induction 1 as [|x l Hl IH Hx]; intros Hkeys; [done|].
  apply Forall_cons in Hkeys as [Hkx Hkeys]. specialize (IH Hkeys).
  rewrite !filter_cons.
  assert (∀ v, (v < key x)%Z → filter (λ y, key y = v) l = []) as Hlow.
  { intros v Hv. apply filter_none.
    eapply Forall_impl; [exact Hx|]. simpl. intros y Hy. lia. }
  destruct Hkx as [Hk|[Hk|Hk]]; rewrite Hk.
  - simpl. by rewrite <- IH.
  - simpl. rewrite (Hlow 1%Z) in * by lia. simpl in *. by rewrite <- IH.
  - simpl. rewrite (Hlow 1%Z), (Hlow 2%Z) in * by lia. simpl in *. by rewrite <- IH.
Qed.

Lemma NoDup_fmap_eq {A B} (f : A → B) (l : list A) x y :
  NoDup (f <$> l) → x ∈ l → y ∈ l → f x = f y → x = y.
Proof.
  intros Hnd [i Hi]%list_elem_of_lookup [j Hj]%list_elem_of_lookup Heq.
  assert (i = j) as ->.
  { eapply (NoDup_lookup _ i j (f x) Hnd).
    - by rewrite list_lookup_fmap, Hi.
    - by rewrite list_lookup_fmap, Hj, Heq. }
  congruence.
Qed.

(** With distinct identifiers, [findSectionById] finds the section that
    has the identifier. *)
Lemma findSectionById_loop_found secs section :
  NoDup (sec_id <$> flat_map (λ s, s :: sec_children s) secs) →
  section ∈ flat_map (λ s, s :: sec_children s) secs →
  findSectionById_loop (sec_id section) secs = Some section.
Proof.
  induction secs as [|t secs IH]; intros Hnd Hin; [by inversion Hin|].
  simpl in Hin. simpl.
  assert (∀ other, other ∈ t :: sec_children t → sec_id other = sec_id section →
                   other = section) as Hsame.
  { intros other Hother Hid.
    apply (NoDup_fmap_eq sec_id _ _ _ Hnd); [|done..].
    simpl. rewrite elem_of_cons, elem_of_app. rewrite elem_of_cons in Hother. tauto. }
  destruct (decide (sec_id t = sec_id section)) as [Heq|Hne].
  { f_equal. apply Hsame; [by left|done]. }
  destruct (List.find _ (sec_children t)) as [child|] eqn:Hfind.
  { f_equal. apply Hsame; [|by eapply find_child_id].
    right. apply list_elem_of_In. by apply find_some in Hfind as [? _]. }
  apply find_child_none in Hfind.
  change (flat_map (λ s, s :: sec_children s) (t :: secs))
    with ((t :: sec_children t) ++ flat_map (λ s, s :: sec_children s) secs) in Hnd.
  rewrite fmap_app in Hnd. apply NoDup_app in Hnd as (_ & _ & Hnd).
  apply IH; [done|].
  rewrite elem_of_cons, elem_of_app in Hin. destruct Hin as [->|[Hin|Hin]]; [done| |done].
  exfalso. apply Hfind. by apply list_elem_of_fmap_2.
Qed.

Lemma nodes_to_depth2_sublist secs :
  flat_map (λ s, s :: sec_children s) secs `sublist_of` nodes_of secs.
Proof.
  induction secs as [|s secs IH]; [done|].
  rewrite nodes_of_cons, section_nodes_unfold. simpl.
  apply sublist_skip, sublist_app; [|done].
  generalize (sec_children s). clear. intros l.
  induction l as [|c l IH]; [done|].
  rewrite nodes_of_cons, section_nodes_unfold. simpl.
  apply sublist_skip. by apply sublist_inserts_l.
Qed.

Lemma filter_fmap_on {A B} (f : A → B) (P : B → Prop) (Q : A → Prop)
    `{∀ x, Decision (P x)} `{∀ x, Decision (Q x)} (l : list A) :
  Forall (λ x, P (f x) ↔ Q x) l →
  filter P (f <$> l) = f <$> filter Q l.
Proof.
  induction 1 as [|x l Hx _ IH]; [done|].
  csimpl. rewrite !filter_cons, IH.
  destruct (decide (P (f x))), (decide (Q x)); try done; tauto.
Qed.

Lemma depth2_levels secs :
  Forall first_level secs →
  Forall (λ s, default 0 (sec_level s) = 1 ∨ default 0 (sec_level s) = 2
               ∨ default 0 (sec_level s) = 3)%Z
         (flat_map (λ s, s :: sec_children s) secs).
Proof.
  induction 1 as [|s secs [Hs Hch] _ IH]; [done|].
  simpl. constructor; [left; by rewrite Hs|].
  apply Forall_app. split; [|done].
  eapply Forall_impl; [exact Hch|]. simpl.
  intros c [[Hc _]|[Hc _]]; rewrite Hc; simpl; auto.
Qed.

Lemma depth2_by_level secs :
  Forall first_level secs →
  filter (λ s, default 0%Z (sec_level s) = 1%Z)
         (flat_map (λ s, s :: sec_children s) secs) = secs
  ∧ ∀ v : Z, v ≠ 0%Z → v ≠ 1%Z →
      filter (λ s, default 0%Z (sec_level s) = v)
             (flat_map (λ s, s :: sec_children s) secs)
      = filter (λ c, sec_level c = Some v) (flat_map sec_children secs).
Proof.
  induction 1 as [|s secs [Hs Hch] _ [IH1 IH2]]; [done|]. split.
  - simpl. rewrite filter_cons, filter_app, Hs, IH1. simpl.
    rewrite filter_none; [done|].
    eapply Forall_impl; [exact Hch|]. simpl.
    intros c [[Hc _]|[Hc _]]; by rewrite Hc.
  - intros v Hv0 Hv1. simpl. rewrite filter_cons, !filter_app, Hs, IH2 by done.
    simpl. rewrite decide_False by congruence. f_equal.
    apply list_filter_iff. intros c.
    destruct (sec_level c); simpl; [|done]. split; congruence.
Qed.

(** Sections of the levels the parser gives, sorted by level: the first
    level, then the children of the second, then those of the third. *)
Lemma sortedSections_levels template :
  Forall first_level (template_sections template) →
  NoDup (sec_id <$> nodes_of (template_sections template)) →
  let children := flat_map sec_children (template_sections template) in
  sortedSections template
  = (sec_id <$> template_sections template)
    ++ (sec_id <$> filter (λ c, sec_level c = Some 2%Z) children)
    ++ (sec_id <$> filter (λ c, sec_level c = Some 3%Z) children).
Proof.
  intros Hlevels Hnd children.
  assert (NoDup (sec_id <$> nodes_to_depth2 template)) as Hnd2.
  { eapply sublist_NoDup; [exact Hnd|].
    apply fmap_sublist, nodes_to_depth2_sublist. }
  assert (∀ s, s ∈ nodes_to_depth2 template →
               levelOf template (sec_id s) = default 0%Z (sec_level s)) as Hlevel.
  { intros s Hs. unfold levelOf, findSectionById.
    by rewrite (findSectionById_loop_found _ _ Hnd2 Hs). }
  assert (∀ v : Z,
            filter (λ i, levelOf template i = v) (flattenedSections template)
            = sec_id <$> filter (λ s, default 0%Z (sec_level s) = v)
                                (nodes_to_depth2 template)) as Hfilter.
  { intros v. rewrite flattenedSections_nodes. apply filter_fmap_on.
    apply Forall_forall. intros s Hs. by rewrite Hlevel. }
  pose proof (depth2_levels _ Hlevels) as Hkeys.
  destruct (depth2_by_level _ Hlevels) as [H1 Hv].
  unfold sortedSections.
  set (cmp := (λ a b, levelOf template a - levelOf template b)%Z).
  rewrite (sorted_three (levelOf template) (JS.sort cmp (flattenedSections template))).
  2:{ by apply (sort_sorted cmp (levelOf template)). }
  2:{ apply Forall_forall. intros i Hi.
      rewrite (sort_perm cmp), flattenedSections_nodes in Hi.
      apply list_elem_of_fmap in Hi as (s & -> & Hs).
      rewrite (Hlevel s Hs). by eapply Forall_forall in Hkeys. }
  rewrite !(sort_stable cmp (levelOf template)) by done.
  rewrite !Hfilter. unfold nodes_to_depth2. by rewrite H1, !Hv.
Qed.

(** X5. For the template of a text, as [loadFileAsTemplate] and
    [generateSampleTemplate] make it, [generateCompleteContent] generates
    the sections in this order: all sections of level 1 in the order of the
    text, then the sections of level 2, then the sections of level 3 that
    stand directly below a section of level 1. A section of level 3 below
    one of level 2 is not generated. *)
Theorem parsed_generation_order (uuidv4 : nat → string) (name content : string) :
  NoDup (uuidv4 <$> seq 0 (S (length (Text.split Text.LF content)))) →
  let template := templateOf uuidv4 name content in
  let children := flat_map sec_children (template_sections template) in
  sortedSections template
  = (sec_id <$> template_sections template)
    ++ (sec_id <$> filter (λ c, sec_level c = Some 2%Z) children)
    ++ (sec_id <$> filter (λ c, sec_level c = Some 3%Z) children).
Proof.
  intros Hnd. apply sortedSections_levels.
  - apply parseTemplateContent_levels.
  - apply parseTemplateContent_ids.
    change (seq 0 (S (length (Text.split Text.LF content))))
      with (0 :: seq 1 (length (Text.split Text.LF content))) in Hnd.
    rewrite fmap_cons in Hnd. apply NoDup_cons in Hnd as [_ Hnd].
    by rewrite <- fmap_S_seq, <- list_fmap_compose in Hnd.
Qed.

Lemma parsed_generation_order_witness :
  NoDup (Sample.uuids <$> seq 0 (S (length (Text.split Text.LF Sample.headings))))
  ∧ sortedSections (templateOf Sample.uuids "t" Sample.headings) = ["b"; "c"].
Proof.
  assert (NoDup (Sample.uuids
                   <$> seq 0 (S (length (Text.split Text.LF Sample.headings)))))
    as Hnd.
  { apply (bool_decide_unpack _). vm_compute. exact I. }
  split; [exact Hnd|].
  rewrite (parsed_generation_order Sample.uuids "t" Sample.headings Hnd).
  vm_compute. reflexivity.
Defined.

(** ** The stores *)

Lemma save_nil content : saveGeneratedContentToStorage content [] = [content].
Proof. done. Qed.

Lemma save_cons content c cs :
  saveGeneratedContentToStorage content (c :: cs)
  = if decide (gc_id c = gc_id content) then content :: cs
    else c :: saveGeneratedContentToStorage content cs.
Proof.
  unfold saveGeneratedContentToStorage. simpl.
  destruct (decide (gc_id c = gc_id content)); [done|].
  by destruct (list_find _ cs) as [[i x]|].
Qed.

Lemma find_content_cons id c cs :
  List.find (λ c, bool_decide (gc_id c = id)) (c :: cs)
  = if decide (gc_id c = id) then Some c
    else List.find (λ c, bool_decide (gc_id c = id)) cs.
Proof.
  simpl. destruct (decide (gc_id c = id)).
  - by rewrite bool_decide_eq_true_2.
  - by rewrite bool_decide_eq_false_2.
Qed.

Lemma save_find content cs :
  List.find (λ c, bool_decide (gc_id c = gc_id content))
            (saveGeneratedContentToStorage content cs) = Some content.
Proof.
  induction cs as [|c cs IH].
  - rewrite save_nil, find_content_cons. by rewrite decide_True.
  - rewrite save_cons. destruct (decide (gc_id c = gc_id content)).
    + rewrite find_content_cons. by rewrite decide_True.
    + rewrite find_content_cons. by rewrite decide_False.
Qed.

Lemma save_find_other content cs id :
  id ≠ gc_id content →
  List.find (λ c, bool_decide (gc_id c = id))
            (saveGeneratedContentToStorage content cs)
  = List.find (λ c, bool_decide (gc_id c = id)) cs.
Proof.
  intros Hne. induction cs as [|c cs IH].
  - rewrite save_nil, find_content_cons. by rewrite decide_False.
  - rewrite save_cons. destruct (decide (gc_id c = gc_id content)) as [Heq|Hc].
    + rewrite !find_content_cons. rewrite !decide_False by congruence. done.
    + rewrite !find_content_cons, IH. done.
Qed.

Lemma save_ids content cs :
  gc_id <$> saveGeneratedContentToStorage content cs
  = if decide (gc_id content ∈ gc_id <$> cs) then gc_id <$> cs
    else (gc_id <$> cs) ++ [gc_id content].
Proof.
  induction cs as [|c cs IH].
  - rewrite save_nil. case_decide as Hin; [|done]. by apply elem_of_nil in Hin.
  - rewrite save_cons. destruct (decide (gc_id c = gc_id content)) as [Heq|Hc].
    + rewrite decide_True by (csimpl; rewrite Heq; by left). csimpl. by rewrite Heq.
    + csimpl. rewrite IH. destruct (decide (gc_id content ∈ gc_id <$> cs)).
      * by rewrite decide_True by by right.
      * rewrite decide_False; [done|]. rewrite elem_of_cons. intros [?|?]; done.
Qed.

(** X6. [saveGeneratedContentToStorage] keeps one content for an
    identifier: after it, [getGeneratedContentById] finds the saved content
    under its identifier and what it found before under any other; the
    stored identifiers are those of before, in their order, with the new
    one at the end when it was not stored; so identifiers that were
    distinct stay distinct. *)
Theorem saved_content_is_found (content : GeneratedContent) (w : World) :
  let w' := saveContent content w in
  getGeneratedContentById (gc_id content) w' = Some content
  ∧ (∀ id, id ≠ gc_id content →
       getGeneratedContentById id w' = getGeneratedContentById id w)
  ∧ gc_id <$> storedContents w'
    = (if decide (gc_id content ∈ gc_id <$> storedContents w)
       then gc_id <$> storedContents w
       else (gc_id <$> storedContents w) ++ [gc_id content])
  ∧ (NoDup (gc_id <$> storedContents w) → NoDup (gc_id <$> storedContents w')).
Proof.
  simpl. unfold getGeneratedContentById, saveContent. simpl. split_and!.
  - apply save_find.
  - intros id Hne. by apply save_find_other.
  - apply save_ids.
  - intros Hnd. rewrite save_ids. case_decide as Hin; [done|].
    apply NoDup_app. split_and!; [done| |apply NoDup_singleton].
    intros x Hx ->%list_elem_of_singleton. done.
Qed.

Lemma find_filter_ne {A} (key : A → string) (id id' : string) (l : list A) :
  List.find (λ x, bool_decide (key x = id')) (filter (λ x, key x ≠ id) l)
  = if decide (id' = id) then None
    else List.find (λ x, bool_decide (key x = id')) l.
Proof.
  induction l as [|x l IH]; [by case_decide|].
  rewrite filter_cons. simpl.
  destruct (decide (key x ≠ id)) as [Hne|Heq%dec_stable]; simpl.
  - rewrite IH. destruct (decide (id' = id)) as [->|]; [|done].
    by rewrite bool_decide_eq_false_2.
  - rewrite IH. destruct (decide (id' = id)) as [->|Hne]; [done|].
    rewrite bool_decide_eq_false_2; [done|congruence].
Qed.

Lemma filter_absent {A} (key : A → string) (id : string) (l : list A) :
  List.find (λ x, bool_decide (key x = id)) l = None →
  filter (λ x, key x ≠ id) l = l.
Proof.
  induction l as [|x l IH]; [done|]. simpl.
  destruct (bool_decide (key x = id)) eqn:Hx; [done|]. intros Hfind.
  apply bool_decide_eq_false in Hx. rewrite filter_cons, decide_True by done.
  by rewrite IH.
Qed.

(** X7. After [deleteGeneratedContent(id)] no content is found under [id],
    every other identifier finds what it found before, and deleting an
    identifier that is not stored leaves the store as it is. *)
Theorem deleted_content_is_gone (id : string) (w : World) :
  let w' := deleteGeneratedContent id w in
  getGeneratedContentById id w' = None
  ∧ (∀ id', id' ≠ id →
       getGeneratedContentById id' w' = getGeneratedContentById id' w)
  ∧ (getGeneratedContentById id w = None → w' = w).
Proof.
  simpl. unfold getGeneratedContentById, deleteGeneratedContent. simpl. split_and!.
  - rewrite (find_filter_ne gc_id). by rewrite decide_True.
  - intros id' Hne. rewrite (find_filter_ne gc_id). by rewrite decide_False.
  - intros Hnone. rewrite (filter_absent gc_id) by done. by destruct w.
Qed.

Lemma find_app_key {A} (key : A → string) (id : string) (l : list A) (x : A) :
  List.find (λ y, bool_decide (key y = id)) (l ++ [x])
  = match List.find (λ y, bool_decide (key y = id)) l with
    | Some y => Some y
    | None => if decide (key x = id) then Some x else None
    end.
Proof.
  induction l as [|y l IH]; simpl.
  - destruct (decide (key x = id)).
    + by rewrite bool_decide_eq_true_2.
    + by rewrite bool_decide_eq_false_2.
  - by destruct (bool_decide (key y = id)).
Qed.

(** X8. [saveDocumentToStorage] and [saveTemplateToStorage] append
    without looking at the identifier: a document or template saved under
    an identifier that is already stored is not found by [getDocumentById]
    or [getTemplateById], which go on returning the earlier one; and
    [deleteSourceDocument] and [deleteTemplate] remove all that are stored
    under the identifier. *)
Theorem saved_document_may_be_shadowed (document : SourceDocument)
    (template : Template) (w : World) :
  (∀ id, getDocumentById id (saveDocumentToStorage document w)
         = match getDocumentById id w with
           | Some earlier => Some earlier
           | None => if decide (doc_id document = id) then Some document else None
           end)
  ∧ (∀ id, getTemplateById id (saveTemplateToStorage template w)
           = match getTemplateById id w with
             | Some earlier => Some earlier
             | None => if decide (tpl_id template = id) then Some template else None
             end)
  ∧ (∀ id, getDocumentById id (deleteSourceDocument id w) = None)
  ∧ (∀ id, getTemplateById id (deleteTemplate id w) = None).
Proof.
  unfold getDocumentById, getTemplateById, saveDocumentToStorage,
    saveTemplateToStorage, deleteSourceDocument, deleteTemplate. simpl.
  split_and!; intros id.
  - apply (find_app_key doc_id).
  - apply (find_app_key tpl_id).
  - rewrite (find_filter_ne doc_id). by rewrite decide_True.
  - rewrite (find_filter_ne tpl_id). by rewrite decide_True.
Qed.

(** ** The registry of the jobs *)

Lemma list_find_id_app (wanted : string) (jobs : list GenerationJob)
    (job : GenerationJob) :
  fst <$> list_find (λ j, job_id j = wanted) (jobs ++ [job])
  = match fst <$> list_find (λ j, job_id j = wanted) jobs with
    | Some earlier => Some earlier
    | None => if decide (job_id job = wanted) then Some (length jobs) else None
    end.
Proof.
  induction jobs as [|j jobs IH]; simpl.
  - by destruct (decide (job_id job = wanted)).
  - destruct (decide (job_id j = wanted)); [done|].
    destruct (list_find _ (jobs ++ [job])) as [[i x]|],
             (list_find _ jobs) as [[i' x']|]; simpl in *.
    + by injection IH as ->.
    + destruct (decide (job_id job = wanted)); [|done]. by injection IH as ->.
    + done.
    + by destruct (decide (job_id job = wanted)).
Qed.

(** X9. [createGenerationJob] puts the new job, queued and with progress
    0, at the end of the registry and emits one event with it, to the
    callbacks that are registered under its identifier. [getJobById] then
    finds it under its identifier, unless an earlier job has the same
    identifier, which it goes on finding; every other identifier finds
    what it found before. *)
Theorem created_job_lookup (template_id : string) (source_ids : list string)
    (md : ContentMetadata) (uuid : string) (now : Date) (w : World) :
  let created := createGenerationJob template_id source_ids md uuid now w in
  let job := new_job template_id source_ids md uuid now in
  generationJobs created.2 !! created.1 = Some job
  ∧ (∀ id, getJobById id created.2
           = match getJobById id w with
             | Some earlier => Some earlier
             | None => if decide (uuid = id) then Some created.1 else None
             end)
  ∧ emitted created.2
    = emitted w ++ [{| em_job := job; em_handlers := listeners_of uuid w |}].
Proof.
  simpl. split_and!.
  - by apply list_lookup_middle.
  - intros id. unfold getJobById. simpl. apply list_find_id_app.
  - done.
Qed.

Lemma getJobById_ids id w w' :
  job_id <$> generationJobs w = job_id <$> generationJobs w' →
  getJobById id w = getJobById id w'.
Proof.
  intros Hids. unfold getJobById.
  assert (∀ jobs, fst <$> list_find (λ j, job_id j = id) jobs
                  = fst <$> list_find (λ x, x = id) (job_id <$> jobs)) as Hfmap.
  { intros jobs. rewrite list_find_fmap, <- option_fmap_compose.
    by destruct (list_find _ jobs) as [[i x]|]. }
  by rewrite !Hfmap, Hids.
Qed.

(** X10. [updateJobProgress] does nothing, and emits nothing, when no job
    has the identifier. Otherwise it assigns to the first job of the
    identifier the progress it is given, whatever the progress and the
    status were, the time, and the message unless the message is empty;
    status, result and error stay; one event is emitted. *)
Theorem progress_update_frame (id : string) (p : Q) (message : string)
    (now : Date) (w : World) :
  let w' := updateJobProgress id p message now w in
  (getJobById id w = None → w' = w)
  ∧ (∀ i, getJobById id w = Some i →
       ∃ job job',
         generationJobs w !! i = Some job
         ∧ generationJobs w' = <[i := job']> (generationJobs w)
         ∧ progress job' = p ∧ updatedAt job' = now
         ∧ statusMessage job'
           = (if decide (message = "") then statusMessage job else Some message)
         ∧ status job' = status job ∧ result job' = result job
         ∧ error job' = error job ∧ same_identity job job'
         ∧ emitted w'
           = emitted w ++ [{| em_job := job'; em_handlers := listeners_of id w |}]).
Proof.
  simpl. unfold updateJobProgress. split.
  - by intros ->.
  - intros i Hget. rewrite Hget.
    destruct (getJobById_Some w id i Hget) as (job & Hi & Hid).
    exists job, (with_progress p message now job).
    unfold emit_job, modify_job. simpl.
    rewrite list_lookup_alter_eq, Hi. simpl.
    split_and!; try done.
    + by apply alter_as_insert.
    + unfold listeners_of. by rewrite Hid.
Qed.





(** X12. [cancelJob] returns true exactly when the first job of the
    identifier is queued or processing; it then makes the job failed with
    the error of a cancellation and leaves its progress and result as they
    are. When it returns false it changes nothing. Once it has been
    applied, a second [cancelJob] of the identifier returns false and
    changes nothing. *)
Theorem cancel_is_final (id : string) (now now' : Date) (w : World) :
  let r := cancelJob id now w in
  (r.1 = false → r.2 = w)
  ∧ (r.1 = true ↔
     ∃ i job, getJobById id w = Some i ∧ generationJobs w !! i = Some job
              ∧ (status job = queued ∨ status job = processing))
  ∧ (∀ i job, r.1 = true → getJobById id w = Some i →
       generationJobs w !! i = Some job →
       ∃ job', generationJobs r.2 !! i = Some job'
               ∧ status job' = failed ∧ error job' = Some "Job cancelled by user"
               ∧ progress job' = progress job ∧ result job' = result job)
  ∧ cancelJob id now' r.2 = (false, r.2).
Proof.
  simpl.
  destruct (cancelJob_cases id now w)
    as [Hno|(i & job & Hget & Hi & Hnc & Hnf & Hyes)].
  - rewrite Hno. simpl. split_and!; [done| |done|].
    + split; [done|]. intros (i & job & Hget & Hi & Hst). exfalso.
      revert Hno. unfold cancelJob. rewrite Hget, Hi.
      rewrite decide_False; [done|]. by destruct Hst as [-> | ->]; intros [?|?].
    + revert Hno. unfold cancelJob.
      destruct (getJobById id w) as [i|]; [|done].
      destruct (generationJobs w !! i) as [job|]; [|done].
      by case_decide.
  - rewrite Hyes. simpl. split_and!; [done| | |].
    + split; [|done]. intros _. exists i, job. split_and!; [done..|].
      destruct (status job); auto; done.
    + intros i' job0 _ Hget' Hi'. rewrite Hget in Hget'. injection Hget' as <-.
      rewrite Hi in Hi'. injection Hi' as <-.
      eexists. split; [apply list_lookup_insert_eq; by eapply lookup_lt_Some|done].
    + unfold cancelJob.
      rewrite (getJobById_ids id _ w) by (simpl; by rewrite (insert_ids _ _ job)).
      rewrite Hget. simpl.
      rewrite list_lookup_insert_eq by (by eapply lookup_lt_Some).
      by rewrite decide_True by (by right).
Qed.

(** ** The callbacks *)




(** ** What the operations keep *)








(** ** How an execution ends *)

Lemma updateJobProgress_contents id p message now w :
  storedContents (updateJobProgress id p message now w) = storedContents w.
Proof.
  unfold updateJobProgress. destruct (getJobById id w) as [i|]; [|done].
  unfold emit_job, modify_job. simpl. by destruct (alter _ i _ !! i).
Qed.

(** X15. When a call of the completion service for a section is rejected,
    or one of the calls of the enhancement, the execution ends there: the
    [catch] block makes the job failed with the message of the rejection;
    the progress stays where it was, the result is not touched and nothing
    is saved to the store of the generated contents. *)
Theorem rejected_call_fails_job `{JSONParser} (k : nat) (e : Execution)
    (r : Reply) (message : string) (env : Env) (w : World) (job : GenerationJob) :
  executions w !! k = Some e → generationJobs w !! ex_job e = Some job →
  ((∃ g, ex_stage e = Generating g) ∧ r = Completion (Rejected message))
  ∨ ((∃ c, ex_stage e = Enhancing c) ∧ r = CompletionsRejected message) →
  ∃ w' job',
    resume k r env w = Some w'
    ∧ generationJobs w' = <[ex_job e := job']> (generationJobs w)
    ∧ status job' = failed ∧ error job' = Some message
    ∧ statusMessage job' = Some "Failed to generate memorandum"
    ∧ progress job' = progress job ∧ result job' = result job
    ∧ storedContents w' = storedContents w
    ∧ ex_stage <$> executions w' !! k = Some Finished
    ∧ emitted_since (length (emitted w)) w' = [job'].
Proof.
  intros He Hi Hcase.
  assert (processJob_resume e r env w
          = Some (catch_error (ex_job e) message (env_now env) w, Finished)) as Hres.
  { unfold processJob_resume. rewrite Hi.
    by destruct Hcase as [[[g ->] ->]|[[c ->] ->]]. }
  unfold resume. rewrite He, Hres.
  eexists _, (fail_with message "Failed to generate memorandum" (env_now env) job).
  split; [done|]. unfold catch_error, emit_job, modify_job. simpl.
  rewrite list_lookup_alter_eq, Hi. simpl.
  split_and!; try done.
  - by apply alter_as_insert.
  - rewrite list_lookup_insert_eq by (by eapply lookup_lt_Some). done.
  - unfold emitted_since. simpl. by rewrite drop_app_length.
Qed.

Lemma rejected_call_fails_job_witness :
  ∃ w', @resume Ex.parser 0 (Completion (Rejected "no service")) (Ex.env 3)
          (default initial (@drive Ex.parser 0 [(Timer, Ex.env 1); (Timer, Ex.env 2)]
                              Ex.queued_world)) = Some w'
        ∧ (status <$> generationJobs w' !! 0) = Some failed
        ∧ storedContents w' = [].
Proof.
  set (w := default initial (@drive Ex.parser 0 [(Timer, Ex.env 1); (Timer, Ex.env 2)]
                               Ex.queued_world)).
  assert (∃ e, executions w !! 0 = Some e ∧ ∃ g, ex_stage e = Generating g) as (e & He & Hg).
  { vm_compute. eauto. }
  assert (ex_job e = 0) as He0.
  { vm_compute in He. by injection He as <-. }
  assert (∃ job, generationJobs w !! ex_job e = Some job) as [job Hjob].
  { rewrite He0. vm_compute. eauto. }
  destruct (@rejected_call_fails_job Ex.parser 0 e (Completion (Rejected "no service"))
              "no service" (Ex.env 3) w job He Hjob)
    as (w' & job' & Hres & Hjobs & Hst & _ & _ & _ & _ & Hcs & _); [left; by split|].
  exists w'. split; [exact Hres|]. split.
  - rewrite Hjobs, He0, list_lookup_insert_eq; [simpl; by rewrite Hst|].
    rewrite He0 in Hjob. by eapply lookup_lt_Some.
  - rewrite Hcs. vm_compute. reflexivity.
Defined.

Lemma emit_job_contents i w : storedContents (emit_job i w) = storedContents w.
Proof. unfold emit_job. by destruct (generationJobs w !! i). Qed.

Lemma validating_saves `{JSONParser} k o env w w' e c job :
  executions w !! k = Some e → ex_stage e = Validating c →
  generationJobs w !! ex_job e = Some job →
  resume k (Completion o) env w = Some w' →
  storedContents w'
  = saveGeneratedContentToStorage
      (finalContent c (validateContentCoherence o) (env_now env)) (storedContents w).
Proof.
  intros He Hst Hi. unfold resume. rewrite He. unfold processJob_resume.
  rewrite Hi, Hst. intros [= <-]. simpl.
  rewrite emit_job_contents. simpl. by rewrite updateJobProgress_contents.
Qed.

(** X16. When the validation has answered, the execution saves the final
    content under the identifier of the generated content and gives it to
    the job as its result: the result of the job is what the store holds
    under that identifier; what was stored under another identifier is
    still found. *)
Theorem completed_result_is_stored `{JSONParser} (k : nat) (o : Outcome)
    (env : Env) (w : World) (e : Execution) (c : GeneratedContent)
    (job : GenerationJob) :
  registered_once w →
  executions w !! k = Some e → ex_stage e = Validating c →
  generationJobs w !! ex_job e = Some job →
  ∃ w' final,
    resume k (Completion o) env w = Some w'
    ∧ (result <$> generationJobs w' !! ex_job e) = Some (Some final)
    ∧ gc_id final = gc_id c ∧ sections final = sections c
    ∧ getGeneratedContentById (gc_id c) w' = Some final
    ∧ (∀ id, id ≠ gc_id c →
         getGeneratedContentById id w' = getGeneratedContentById id w).
Proof.
  intros Hnd He Hst Hi.
  destruct (validating_completes k o env w e c job Hnd He Hst Hi)
    as (w' & Hres & Hi' & _).
  exists w', (finalContent c (validateContentCoherence o) (env_now env)).
  split; [done|]. rewrite Hi'. split_and!; [done..| |].
  - unfold getGeneratedContentById.
    rewrite (validating_saves k o env w w' e c job He Hst Hi Hres).
    apply (save_find (finalContent c (validateContentCoherence o) (env_now env))).
  - intros id Hne. unfold getGeneratedContentById.
    rewrite (validating_saves k o env w w' e c job He Hst Hi Hres).
    by apply save_find_other.
Qed.

Lemma completed_result_is_stored_witness :
  registered_once Ex.validating_world
  ∧ ∃ w' final,
      @resume Ex.parser 0 (Completion (Resolved "{}")) (Ex.env 5)
        Ex.validating_world = Some w'
      ∧ (result <$> generationJobs w' !! 0) = Some (Some final)
      ∧ getGeneratedContentById (gc_id Ex.validating_content) w' = Some final.
Proof.
  assert (registered_once Ex.validating_world) as Hnd.
  { apply (bool_decide_unpack _). vm_compute. exact I. }
  split; [exact Hnd|].
  assert (executions Ex.validating_world !! 0 = Some Ex.validating_execution) as He.
  { vm_compute. reflexivity. }
  assert (ex_stage Ex.validating_execution = Validating Ex.validating_content) as Hst.
  { vm_compute. reflexivity. }
  assert (∃ job, generationJobs Ex.validating_world
                 !! ex_job Ex.validating_execution = Some job) as [job Hjob].
  { vm_compute. eauto. }
  destruct (@completed_result_is_stored Ex.parser 0 (Resolved "{}") (Ex.env 5)
              Ex.validating_world Ex.validating_execution Ex.validating_content
              job Hnd He Hst Hjob)
    as (w' & final & Hres & Hresult & _ & _ & Hfound & _).
  exists w', final. split; [exact Hres|]. split; [exact Hresult|exact Hfound].
Defined.

(** ** How the generation ends *)

Lemma gen_loop_in_template t d md m secs c total ids cu now :
  ids ⊆ flattenedSections t →
  match gen_loop t d md m secs c total ids cu now with
  | GenAwait g => gen_template g = t ∧ gen_rest g ⊆ flattenedSections t
  | GenReturn _ => True
  | GenThrow _ => False
  end.
Proof.
  intros Hsub. destruct ids as [|id rest]; simpl; [done|].
  destruct (generateSectionContent_begin_found t d id m) as (fr & -> & _).
  { apply Hsub. by left. }
  simpl. split; [done|]. intros x Hx. apply Hsub. by right.
Qed.

Lemma gen_run_throws replies cu now :
  ∀ step evs message,
    gen_in_template step →
    gen_run replies step cu now = Some (evs, inl message) →
    ∃ uuid, (Rejected message, uuid) ∈ replies.
Proof.
  induction replies as [|[o u] replies IH]; intros step evs message Hin Hrun.
  - destruct step; simpl in *; done.
  - destruct step as [g| |]; simpl in Hin, Hrun; [|done..].
    destruct o as [generated|rejected].
    + simpl in Hrun.
      match type of Hrun with
      | match gen_run _ ?step' _ _ with _ => _ end = _ =>
          destruct (gen_run replies step' cu now) as [[evs' [m|content]]|] eqn:Hrun';
          [|done..];
          assert (gen_in_template step') as Hin'
      end.
      { pose proof (gen_loop_in_template (gen_template g) (gen_sourceDocuments g)
                      (gen_metadata g) (gen_documentMatches g)
                      (gen_sections g
                       ++ [generateSectionContent_end (gen_current g) generated u])
                      (S (gen_processedCount g)) (gen_totalSections g) (gen_rest g)
                      cu now Hin) as Hloop.
        destruct (gen_loop _ _ _ _ _ _ _ _ _ _) as [g'| |]; [|done..].
        simpl. by destruct Hloop as [-> ?]. }
      injection Hrun as _ <-.
      destruct (IH _ _ _ Hin' Hrun') as [uuid Huuid].
      exists uuid. by right.
    + simpl in Hrun. destruct replies; simpl in Hrun; injection Hrun as _ <-;
        exists u; by left.
Qed.

(** X17. [generateCompleteContent] throws only what a call of the
    completion service was rejected with: the error of a section that is
    not found in the template is never thrown, the sections it asks for
    being those it took from the template. *)
Theorem generation_fails_only_by_rejection (template : Template)
    (sourceDocuments : list SourceDocument) (md : ContentMetadata)
    (replies : list (Outcome * string)) (contentUuid : string) (now : Date)
    (evs : list GenEvent) (message : string) :
  generateCompleteContent template sourceDocuments md replies contentUuid now
  = Some (evs, inl message) →
  ∃ uuid, (Rejected message, uuid) ∈ replies.
Proof.
  unfold generateCompleteContent, generateCompleteContent_begin. intros Hrun.
  match type of Hrun with
  | match gen_run _ ?step _ _ with _ => _ end = _ =>
      destruct (gen_run replies step contentUuid now) as [[evs' r]|] eqn:Hrun';
      [|done];
      assert (gen_in_template step) as Hin
  end.
  { pose proof (gen_loop_in_template template sourceDocuments md
                  (matchDocumentsToSections template sourceDocuments) [] 0
                  (length (flattenedSections template)) (sortedSections template)
                  contentUuid now) as Hloop.
    destruct (gen_loop _ _ _ _ _ _ _ _ _ _) as [g'| |].
    - simpl. destruct Hloop as [-> ?]; [|done].
      intros i Hi. unfold sortedSections in Hi. by rewrite sort_perm in Hi.
    - done.
    - apply Hloop. intros i Hi. unfold sortedSections in Hi.
      by rewrite sort_perm in Hi. }
  injection Hrun as _ ->. by eapply gen_run_throws.
Qed.

Lemma generation_fails_only_by_rejection_witness :
  ∃ uuid, (Rejected "no service", uuid)
          ∈ [(Resolved "Summary text", "u1"); (Rejected "no service", "u2")].
Proof.
  apply (generation_fails_only_by_rejection
           (mkTemplate "t2" "two" ""
              (Some [Ex.summary;
                     mkTemplateSection "s2" "Risks" "" text (Some 1%Z) []]))
           Ex.docs Ex.md _ "c1" 0
           [CallFor "s1"; Progress (sectionProgress 1 2); CallFor "s2"]).
  vm_compute. reflexivity.
Defined.

Lemma gen_run_rejected template docs md matches message uuid later cu now sectionId :
  ∀ (answered : list (string * string)) ids secs processed total,
    ids ⊆ flattenedSections template →
    ids !! length answered = Some sectionId →
    ∃ evs,
      gen_run (((λ r : string * string, (Resolved r.1, r.2)) <$> answered)
               ++ (Rejected message, uuid) :: later)
              (gen_loop template docs md matches secs processed total ids cu now)
              cu now
      = Some (evs, inl message)
      ∧ call_event (gen_loop template docs md matches secs processed total ids cu now)
        ++ evs
        = expected_trace total processed (take (length answered) ids)
          ++ [CallFor sectionId].
Proof.
  induction answered as [|[generated u] answered IH];
    intros ids secs processed total Hsub Hid;
    (destruct ids as [|id ids]; [done|]);
    (destruct (generateSectionContent_begin_found template docs id matches)
      as (fr & Hfr & Hfound); [apply Hsub; by left|]);
    unfold gen_loop at 1 2; rewrite Hfr; csimpl; fold gen_loop.
  - injection Hid as <-. destruct later; simpl; eexists; by rewrite Hfound.
  - edestruct (IH ids (secs ++ [generateSectionContent_end fr generated u])
                 (S processed) total) as (evs & -> & Hevs).
    { intros i Hi. apply Hsub. by right. }
    { exact Hid. }
    eexists. split; [done|]. rewrite Hfound. simpl. by rewrite Hevs.
Qed.

(** X18. When the call for a section is rejected, [generateCompleteContent]
    throws the message at once: the sections before it have been generated
    one after the other, each followed by its report of progress, the
    call for the section has been made, and no section after it is asked
    for, whatever the service would have answered. No content is
    returned. *)
Theorem rejection_aborts_generation (template : Template)
    (sourceDocuments : list SourceDocument) (md : ContentMetadata)
    (answered : list (string * string)) (message uuid : string)
    (later : list (Outcome * string)) (contentUuid : string) (now : Date)
    (sectionId : string) :
  sortedSections template !! length answered = Some sectionId →
  generateCompleteContent template sourceDocuments md
    (((λ r : string * string, (Resolved r.1, r.2)) <$> answered)
     ++ (Rejected message, uuid) :: later) contentUuid now
  = Some (expected_trace (length (sortedSections template)) 0
            (take (length answered) (sortedSections template))
          ++ [CallFor sectionId],
          inl message).
Proof.
  intros Hid. unfold generateCompleteContent, generateCompleteContent_begin.
  edestruct (gen_run_rejected template sourceDocuments md
               (matchDocumentsToSections template sourceDocuments)
               message uuid later contentUuid now sectionId answered
               (sortedSections template) [] 0
               (length (flattenedSections template)))
    as (evs & -> & Hevs).
  { intros i Hi. unfold sortedSections in Hi. by rewrite sort_perm in Hi. }
  { done. }
  rewrite Hevs. unfold sortedSections at 2. by rewrite sort_length.
Qed.

Lemma rejection_aborts_generation_witness :
  generateCompleteContent Ex.one Ex.docs Ex.md
    [(Rejected "no service", "u1"); (Resolved "never read", "u2")] "c1" 0
  = Some ([CallFor "s1"], inl "no service").
Proof.
  apply (rejection_aborts_generation Ex.one Ex.docs Ex.md [] "no service" "u1"
           [(Resolved "never read", "u2")] "c1" 0 "s1").
  reflexivity.
Defined.

(** X19. For a template without sections, also one whose structure is
    absent, [generateCompleteContent] calls the completion service for
    nothing and never calls the progress callback (so it never divides by
    the number of sections, which is 0): it returns at once a draft
    without sections. *)
Theorem empty_template_generates_nothing (template : Template)
    (sourceDocuments : list SourceDocument) (md : ContentMetadata)
    (replies : list (Outcome * string)) (contentUuid : string) (now : Date) :
  template_sections template = [] →
  generateCompleteContent template sourceDocuments md replies contentUuid now
  = Some ([], inr {| gc_id := contentUuid;
                     gc_templateId := tpl_id template;
                     sections := [];
                     gc_createdAt := now;
                     gc_updatedAt := now;
                     gc_status := draft;
                     gc_metadata := md;
                     validationResults := None |}).
Proof.
  intros Hnone.
  unfold generateCompleteContent, generateCompleteContent_begin, sortedSections,
    flattenedSections.
  rewrite Hnone. simpl. by destruct replies.
Qed.

Lemma empty_template_generates_nothing_witness :
  ∃ content, generateCompleteContent Ex.plain Ex.docs Ex.md [] "c1" 0
             = Some ([], inr content)
             ∧ sections content = [].
Proof.
  eexists. split; [by apply (empty_template_generates_nothing Ex.plain)|done].
Defined.

(** ** The enhancement *)

Lemma enhancedSections_spec secs :
  ∀ texts secs',
    enhancedSections secs texts = Some secs' →
    length texts = length (filter (λ s, needsEnhancement s = true) secs)
    ∧ Forall2 (λ s s', (needsEnhancement s = false ∧ s' = s)
                       ∨ (needsEnhancement s = true ∧ needsEnhancement s' = true
                          ∧ enhanced_from s (gs_content s') s')) secs secs'
    ∧ gs_content <$> filter (λ s, needsEnhancement s = true) secs' = texts.
Proof.
  induction secs as [|s secs IH]; intros texts secs'; simpl.
  - destruct texts; [|done]. intros [= <-]. split_and!; [done|constructor|done].
  - destruct (needsEnhancement s) eqn:Hs.
    + destruct texts as [|t texts]; [done|].
      destruct (enhancedSections secs texts) as [rest|] eqn:Hrest; [|done].
      simpl. intros [= <-]. destruct (IH _ _ Hrest) as (Hlen & Hall & Htexts).
      assert (needsEnhancement
                {| gs_id := gs_id s; templateSectionId := templateSectionId s;
                   gs_title := gs_title s; gs_content := t; gs_type := gs_type s;
                   reviewStatus := reviewed;
                   sourceReferences := sourceReferences s |} = true) as Hs'.
      { revert Hs. unfold needsEnhancement. cbn [gs_type reviewStatus].
        by destruct (bool_decide (gs_type s = heading)). }
      rewrite !filter_cons, Hs, Hs'. rewrite !decide_True by done.
      csimpl. split_and!.
      * by rewrite Hlen.
      * constructor; [|done]. right. by repeat split.
      * by rewrite Htexts.
    + destruct (enhancedSections secs texts) as [rest|] eqn:Hrest; [|done].
      simpl. intros [= <-]. destruct (IH _ _ Hrest) as (Hlen & Hall & Htexts).
      rewrite !filter_cons, Hs. rewrite !decide_False by done.
      split_and!; [done| |done].
      constructor; [|done]. by left.
Qed.

Lemma enhancedSections_total secs :
  ∀ texts, length texts = length (filter (λ s, needsEnhancement s = true) secs) →
           is_Some (enhancedSections secs texts).
Proof.
  induction secs as [|s secs IH]; intros texts; simpl.
  - by destruct texts.
  - rewrite filter_cons. destruct (needsEnhancement s) eqn:Hs; simpl.
    + destruct texts as [|t texts]; [done|]. simpl. intros [= Hlen].
      destruct (IH texts Hlen) as [rest ->]. by eexists.
    + intros Hlen. destruct (IH texts Hlen) as [rest ->]. by eexists.
Qed.

(** X20. [enhanceContentQuality] calls the completion service once for
    each section that is not a heading and not approved, and returns the
    sections in their order: a heading or an approved section as it is;
    every other section with the text the service returned for it and the
    review status reviewed, its identifiers, title, type and source
    references unchanged. So after it every section that is not a heading
    is reviewed or approved. *)
Theorem enhancement_by_section (secs : list GeneratedSection) (texts : list string) :
  (is_Some (enhancedSections secs texts)
   ↔ length texts = length (filter (λ s, needsEnhancement s = true) secs))
  ∧ ∀ secs',
      enhancedSections secs texts = Some secs' →
      Forall2 (λ s s', (needsEnhancement s = false ∧ s' = s)
                       ∨ (needsEnhancement s = true ∧ needsEnhancement s' = true
                          ∧ enhanced_from s (gs_content s') s')) secs secs'
      ∧ gs_content <$> filter (λ s, needsEnhancement s = true) secs' = texts
      ∧ Forall (λ s', gs_type s' = heading ∨ reviewStatus s' = reviewed
                      ∨ reviewStatus s' = approved) secs'.
Proof.
  split.
  - split; [|apply enhancedSections_total].
    intros [secs' Hsecs']. by destruct (enhancedSections_spec _ _ _ Hsecs').
  - intros secs' Hsecs'.
    destruct (enhancedSections_spec _ _ _ Hsecs') as (_ & Hall & Htexts).
    split_and!; [done..|].
    clear Hsecs' Htexts. induction Hall as [|s s' secs secs' Hs _ IH]; [done|].
    constructor; [|done].
    destruct Hs as [[Hs ->]|(_ & _ & _ & _ & _ & _ & _ & _ & ->)]; [|auto].
    revert Hs. unfold needsEnhancement.
    destruct (bool_decide (gs_type s = heading)) eqn:Ht;
      [apply bool_decide_eq_true in Ht; auto|].
    destruct (bool_decide (reviewStatus s = approved)) eqn:Ha;
      [apply bool_decide_eq_true in Ha; auto|done].
Qed.

(** ** The sections sent to the validation *)


Lemma obj_set_keys {V} k (v : V) o :
  (JS.obj_set k v o).*1 = if decide (k ∈ o.*1) then o.*1 else o.*1 ++ [k].
Proof.
  induction o as [|[k0 v0] o IH].
  - case_decide as Hin; [by apply elem_of_nil in Hin|done].
  - change (JS.obj_set k v ((k0, v0) :: o))
      with (if decide (k0 = k) then (k0, v) :: o else (k0, v0) :: JS.obj_set k v o).
    destruct (decide (k0 = k)) as [->|Hne].
    + by rewrite decide_True by (by left).
    + rewrite fmap_cons, IH. destruct (decide (k ∈ o.*1)) as [Hin|Hnin].
      * by rewrite decide_True by (by right).
      * rewrite decide_False; [done|]. rewrite fmap_cons, elem_of_cons.
        by intros [?|?].
Qed.

Lemma obj_set_NoDup {V} k (v : V) o : NoDup o.*1 → NoDup (JS.obj_set k v o).*1.
Proof.
  intros Hnd. rewrite obj_set_keys. case_decide as Hin; [done|].
  apply NoDup_app. split_and!; [done| |apply NoDup_singleton].
  intros x Hx ->%list_elem_of_singleton. done.
Qed.


(** ** More of the relevance matcher *)

Lemma all_chars_rev P s : all_chars P s → all_chars P (String.rev s).
Proof.
  unfold String.rev. assert (all_chars P "") as Hacc by done.
  revert Hacc. generalize "". induction s as [|c s IH]; simpl; [done|].
  intros acc Hacc [? ?]. apply IH; simpl; auto.
Qed.

Lemma split_loop_chars P s cur b :
  all_chars (λ c, JS.is_space c = true ∨ P c) s → all_chars P cur →
  Forall (all_chars P) (JS.split_loop s cur b).
Proof.
  revert cur b. induction s as [|c s IH]; simpl; intros cur b Hs Hcur.
  - repeat constructor. by apply all_chars_rev.
  - destruct Hs as [Hc Hs]. destruct (JS.is_space c) eqn:Hsp; [destruct b|].
    + auto.
    + constructor; [by apply all_chars_rev|]. by apply IH.
    + apply IH; [done|]. simpl. split; [|done]. by destruct Hc.
Qed.

Lemma replaced_char c :
  let lower := JS.toLowerCase_char c in
  let kept := if JS.is_word lower || JS.is_space lower then lower else " "%char in
  JS.is_space kept = true ∨ keyword_char kept.
Proof.
  unfold keyword_char.
  destruct c as [[] [] [] [] [] [] [] []]; vm_compute; auto.
Qed.

Lemma replace_nonword_chars s :
  all_chars (λ c, JS.is_space c = true ∨ keyword_char c)
            (JS.replace_nonword (JS.toLowerCase s)).
Proof.
  induction s as [|c s IH]; simpl; [done|]. split; [|done]. apply replaced_char.
Qed.

Lemma Set_of_NoDup {A} `{EqDecision A} (xs : list A) : NoDup (JS.Set_of xs).
Proof.
  unfold JS.Set_of. assert (NoDup (@nil A)) as Hacc by constructor.
  revert Hacc. generalize (@nil A).
  induction xs as [|x xs IH]; intros acc Hacc; simpl; [done|].
  apply IH. unfold JS.Set_add. case_decide as Hin; [done|].
  apply NoDup_app. split_and!; [done| |apply NoDup_singleton].
  intros y Hy ->%list_elem_of_singleton. done.
Qed.

(** X22. The keywords [extractKeywords] returns are pairwise distinct;
    each is longer than 3 characters, is none of the common words, and
    consists of the characters a-z, 0-9 and the underscore only. A text
    without a word of more than 3 such characters has no keywords. *)
Theorem keywords_are_clean (text : string) :
  NoDup (extractKeywords text)
  ∧ Forall (λ keyword, 3 < String.length keyword ∧ (keyword ∉ commonWords)
                       ∧ all_chars keyword_char keyword)
           (extractKeywords text).
Proof.
  unfold extractKeywords. split; [apply Set_of_NoDup|].
  apply Forall_forall. intros keyword.
  rewrite Set_of_elem, !list_elem_of_filter. intros (Hcommon & Hlen & Hin).
  split_and!; [done..|].
  eapply Forall_forall in Hin; [exact Hin|].
  apply split_loop_chars; [apply replace_nonword_chars|done].
Qed.

Lemma Object_entries_perm {V} (o : list (string * V)) : JS.Object_entries o ≡ₚ o.
Proof.
  unfold JS.Object_entries.
  rewrite (sort_perm (λ a b : string * V, JS.index_of_key a.1 - JS.index_of_key b.1)%Z).
  induction o as [|kv o IH]; simpl; [done|].
  destruct (JS.is_array_index kv.1); simpl.
  - by f_equiv.
  - rewrite <- Permutation_middle. by f_equiv.
Qed.

Lemma docScores_keys section docs :
  NoDup (docScores section docs).*1 ∧ (docScores section docs).*1 ⊆ doc_id <$> docs.
Proof.
  unfold docScores.
  assert (∀ acc : list (string * nat),
            NoDup acc.*1 →
            NoDup (fold_left (λ o doc, JS.obj_set (doc_id doc)
                                         (scoreDocument section doc) o) docs acc).*1
            ∧ (fold_left (λ o doc, JS.obj_set (doc_id doc)
                                     (scoreDocument section doc) o) docs acc).*1
              ⊆ acc.*1 ++ (doc_id <$> docs)) as Hgen.
  { induction docs as [|d docs IH]; intros acc Hacc; simpl.
    - split; [done|]. by rewrite app_nil_r.
    - destruct (IH (JS.obj_set (doc_id d) (scoreDocument section d) acc))
        as [Hnd Hsub]; [by apply obj_set_NoDup|].
      split; [done|]. intros k Hk. apply Hsub in Hk.
      rewrite obj_set_keys in Hk.
      assert (k ∈ acc.*1 ∨ k = doc_id d ∨ k ∈ doc_id <$> docs) as Hcases.
      { case_decide; rewrite !elem_of_app in Hk; [tauto|].
        rewrite list_elem_of_singleton in Hk. tauto. }
      apply elem_of_app.
      destruct Hcases as [?|[->|?]]; [by left|right; by left|right; by right]. }
  destruct (Hgen [] (NoDup_nil_2)) as [Hnd Hsub]. by split.
Qed.

Lemma sortedDocs_keys section docs :
  NoDup (sortedDocs section docs) ∧ sortedDocs section docs ⊆ doc_id <$> docs.
Proof.
  destruct (docScores_keys section docs) as [Hnd Hsub].
  assert (sortedDocs section docs ⊆+ (docScores section docs).*1) as Hsubm.
  { unfold sortedDocs.
    rewrite <- (Object_entries_perm (docScores section docs)) at 2.
    rewrite <- (sort_perm (λ a b : string * nat, Z.of_nat b.2 - Z.of_nat a.2)%Z
                  (JS.Object_entries (docScores section docs))) at 2.
    apply fmap_submseteq, sublist_submseteq.
    generalize (JS.sort (λ a b : string * nat, Z.of_nat b.2 - Z.of_nat a.2)%Z
                  (JS.Object_entries (docScores section docs))).
    intros l. induction l as [|x l IH]; simpl; [done|].
    destruct (0 <? x.2); [by apply sublist_skip|by apply sublist_cons]. }
  split.
  - apply submseteq_Permutation in Hsubm as [rest Hperm].
    rewrite Hperm in Hnd. by apply NoDup_app in Hnd as [? _].
  - intros k Hk. apply Hsub. by eapply elem_of_submseteq.
Qed.

Lemma fold_ranking_lookup docs nodes m id :
  fold_left (record_ranking docs) nodes m !! id
  = match last (filter (λ s, sec_id s = id) nodes) with
    | Some section => Some (sortedDocs section docs)
    | None => m !! id
    end.
Proof.
  revert m. induction nodes as [|n nodes IH] using rev_ind; intros m; [done|].
  rewrite fold_left_app, filter_app, filter_cons, filter_nil. simpl.
  unfold record_ranking at 1.
  destruct (decide (sec_id n = id)) as [<-|Hne].
  - by rewrite last_snoc, lookup_insert_eq.
  - by rewrite app_nil_r, lookup_insert_ne, IH.
Qed.

(** X23. The map [matchDocumentsToSections] returns has an entry for the
    identifier of every section of the template, at every depth, and for
    nothing else; the entry is the ranking of the last section that has
    the identifier; and a ranking names documents of the input only, none
    of them twice, whatever the identifiers of the documents are. Without
    source documents every ranking is empty. *)
Theorem matcher_covers_forest (template : Template)
    (sourceDocuments : list SourceDocument) :
  let m := matchDocumentsToSections template sourceDocuments in
  (∀ id, is_Some (m !! id) ↔ id ∈ sec_id <$> forest_nodes template)
  ∧ (∀ id ranked,
       m !! id = Some ranked →
       (∃ section, last (filter (λ s, sec_id s = id) (forest_nodes template))
                   = Some section
                   ∧ ranked = sortedDocs section sourceDocuments)
       ∧ NoDup ranked ∧ ranked ⊆ doc_id <$> sourceDocuments)
  ∧ (sourceDocuments = [] → ∀ id ranked, m !! id = Some ranked → ranked = []).
Proof.
  simpl. rewrite matchDocumentsToSections_nodes.
  assert (∀ id ranked,
            fold_left (record_ranking sourceDocuments) (forest_nodes template) ∅ !! id
            = Some ranked →
            ∃ section, last (filter (λ s, sec_id s = id) (forest_nodes template))
                       = Some section
                       ∧ ranked = sortedDocs section sourceDocuments) as Hentry.
  { intros id ranked. rewrite fold_ranking_lookup.
    destruct (last _) as [section|]; [|by rewrite lookup_empty].
    intros [= <-]. eauto. }
  split_and!.
  - intros id. rewrite fold_ranking_lookup. split.
    + destruct (last _) as [section|] eqn:Hlast;
        [|rewrite lookup_empty; by intros [? ?]].
      intros _. apply last_Some in Hlast as [l' Hl'].
      assert (section ∈ filter (λ s, sec_id s = id) (forest_nodes template)) as Hs.
      { rewrite Hl'. apply elem_of_app. right. by left. }
      apply list_elem_of_filter in Hs as [<- Hs]. by apply list_elem_of_fmap_2.
    + intros (section & -> & Hs)%list_elem_of_fmap.
      destruct (last _) as [s'|] eqn:Hlast; [done|].
      apply last_None in Hlast.
      assert (section ∈ filter (λ s, sec_id s = sec_id section)
                               (forest_nodes template)) as Hin.
      { by apply list_elem_of_filter. }
      rewrite Hlast in Hin. by apply elem_of_nil in Hin.
  - intros id ranked Hm. destruct (Hentry id ranked Hm) as (section & Hlast & ->).
    split; [eauto|]. apply sortedDocs_keys.
  - intros -> id ranked Hm. by destruct (Hentry id ranked Hm) as (section & _ & ->).
Qed.

(** ** More of the section generator *)

(** X24. [generateSectionContent] takes as candidates the documents whose
    identifier is ranked for the section and, when these are fewer than
    3, as many of the others as make 3, or all: their number is the greater
    of the number of ranked documents and of 3 or the number of all
    documents; and every candidate is one of the source documents, none
    taken more often than it is given. *)
Theorem candidates_count (sourceDocuments : list SourceDocument)
    (relevantDocIds : list string) :
  length (selectDocuments sourceDocuments relevantDocIds)
  = length (filter (λ doc, doc_id doc ∈ relevantDocIds) sourceDocuments)
    `max` (3 `min` length sourceDocuments)
  ∧ selectDocuments sourceDocuments relevantDocIds ⊆+ sourceDocuments.
Proof.
  rewrite selectDocuments_unfold.
  pose proof (rankedDocuments_others_length sourceDocuments relevantDocIds) as Hsum.
  assert (length (rankedDocuments sourceDocuments relevantDocIds)
          = length (filter (λ doc, doc_id doc ∈ relevantDocIds) sourceDocuments))
    as Hranked by (unfold rankedDocuments; by rewrite sort_length).
  assert (rankedDocuments sourceDocuments relevantDocIds
          ++ filter (λ doc, doc_id doc ∉ relevantDocIds) sourceDocuments
          ≡ₚ sourceDocuments) as Hperm.
  { unfold rankedDocuments. rewrite sort_perm.
    apply (filter_app_complement (λ doc, doc_id doc ∈ relevantDocIds)). }
  rewrite <- Hranked.
  destruct (Nat.ltb_spec (length (rankedDocuments sourceDocuments relevantDocIds)) 3)
    as [Hlt|Hge].
  - split.
    + rewrite length_app, length_take. lia.
    + etrans; [|by apply Permutation_submseteq].
      apply submseteq_app; [done|]. apply sublist_submseteq, sublist_take.
  - split; [lia|]. etrans; [|by apply Permutation_submseteq].
    by apply submseteq_inserts_r.
Qed.

Lemma findSection_loop_absent sectionId secs acc :
  sectionId ∉ flat_map (λ s, sec_id s :: (sec_id <$> sec_children s)) secs →
  findSection_loop sectionId secs acc = acc.
Proof.
  revert acc. induction secs as [|s secs IH]; intros acc Hnot; simpl; [done|].
  simpl in Hnot. rewrite not_elem_of_cons, not_elem_of_app in Hnot.
  destruct Hnot as (Hs & Hch & Hrest).
  rewrite decide_False by done.
  destruct (List.find _ (sec_children s)) as [child|] eqn:Hfind; [|by apply IH].
  exfalso. apply Hch. apply find_some in Hfind as [Hin Hid].
  apply bool_decide_eq_true in Hid. rewrite <- Hid.
  apply list_elem_of_fmap_2. by apply list_elem_of_In.
Qed.

(** X25. [generateSectionContent] throws the error of a section that is
    not found exactly when the identifier is not that of a section of the
    top level or of a child of one: a section deeper in the template is
    not found. Otherwise the section it generates has the identifier, its
    candidates are selected from the ranking of that identifier (none, if
    the map has no entry), and one source reference is made for each
    candidate, in their order. *)
Theorem section_lookup_depth (template : Template)
    (sourceDocuments : list SourceDocument) (sectionId : string)
    (documentMatches : gmap string (list string)) :
  (generateSectionContent_begin template sourceDocuments sectionId documentMatches
   = None ↔ sectionId ∉ flattenedSections template)
  ∧ ∀ fr,
      generateSectionContent_begin template sourceDocuments sectionId documentMatches
      = Some fr →
      sec_id (fr_section fr) = sectionId
      ∧ fr_documents fr
        = selectDocuments sourceDocuments (default [] (documentMatches !! sectionId))
      ∧ documentId <$> fr_references fr = doc_id <$> fr_documents fr.
Proof.
  split.
  - split.
    + intros Hnone Hin.
      destruct (generateSectionContent_begin_found template sourceDocuments
                  sectionId documentMatches Hin) as (fr & Hfr & _).
      by rewrite Hfr in Hnone.
    + intros Hnot. unfold generateSectionContent_begin.
      by rewrite (findSection_loop_absent _ _ None Hnot).
  - intros fr Hfr.
    destruct (decide (sectionId ∈ flattenedSections template)) as [Hin|Hnot].
    + destruct (generateSectionContent_begin_found template sourceDocuments
                  sectionId documentMatches Hin) as (fr' & Hfr' & Hid).
      rewrite Hfr in Hfr'. injection Hfr' as <-. split; [done|].
      revert Hfr. unfold generateSectionContent_begin.
      destruct (findSection_loop _ _ _); [|done]. intros [= <-]. simpl.
      split; [done|]. by rewrite <- list_fmap_compose.
    + revert Hfr. unfold generateSectionContent_begin.
      by rewrite (findSection_loop_absent _ _ None Hnot).
Qed.

(** ** The configuration *)

Lemma obj_get_elem {V} (o : list (string * V)) k v :
  NoDup o.*1 → obj_get o k = Some v ↔ (k, v) ∈ o.
Proof.
  induction o as [|[k0 v0] o IH]; simpl; intros Hnd.
  - rewrite elem_of_nil. by split.
  - apply NoDup_cons in Hnd as [Hk0 Hnd]. rewrite elem_of_cons.
    destruct (decide (k0 = k)) as [->|Hne].
    + split; [intros [= ->]; by left|].
      intros [[= ->]|Hin]; [done|].
      exfalso. apply Hk0. by apply (list_elem_of_fmap_2 fst) in Hin.
    + rewrite IH by done. split; [auto|]. by intros [[= -> ->]|?].
Qed.

Lemma obj_get_perm {V} (o o' : list (string * V)) k :
  NoDup o.*1 → o ≡ₚ o' → obj_get o k = obj_get o' k.
Proof.
  intros Hnd Hperm.
  assert (NoDup o'.*1) as Hnd' by (by rewrite <- Hperm).
  destruct (obj_get o k) as [v|] eqn:Hget.
  - symmetry. apply obj_get_elem; [done|]. rewrite <- Hperm.
    by apply obj_get_elem.
  - destruct (obj_get o' k) as [v'|] eqn:Hget'; [|done].
    apply obj_get_elem in Hget'; [|done]. rewrite <- Hperm in Hget'.
    apply obj_get_elem in Hget'; [|done]. congruence.
Qed.

Lemma obj_get_set {V} (o : list (string * V)) k v k' :
  obj_get (JS.obj_set k v o) k' = if decide (k = k') then Some v else obj_get o k'.
Proof.
  induction o as [|[k0 v0] o IH]; simpl.
  - done.
  - destruct (decide (k0 = k)) as [->|Hne]; simpl.
    + by destruct (decide (k = k')).
    + rewrite IH. destruct (decide (k0 = k')) as [->|]; [|done].
      by rewrite decide_False by done.
Qed.

Lemma obj_get_fold {V} (entries o : list (string * V)) k :
  NoDup entries.*1 → NoDup o.*1 →
  NoDup (fold_left (λ o kv, JS.obj_set kv.1 kv.2 o) entries o).*1
  ∧ obj_get (fold_left (λ o kv, JS.obj_set kv.1 kv.2 o) entries o) k
    = match obj_get entries k with
      | Some v => Some v
      | None => obj_get o k
      end.
Proof.
  revert o. induction entries as [|[k0 v0] entries IH]; intros o Hnd Ho; [done|].
  csimpl in Hnd. apply NoDup_cons in Hnd as [Hk0 Hnd]. simpl.
  destruct (IH (JS.obj_set k0 v0 o) Hnd (obj_set_NoDup _ _ _ Ho)) as [Hnd' Hget].
  split; [done|]. rewrite Hget, obj_get_set.
  destruct (decide (k0 = k)) as [->|Hne]; [|done].
  destruct (obj_get entries k) as [v|] eqn:Hin; [|done].
  exfalso. apply Hk0. apply obj_get_elem in Hin; [|done].
  by apply (list_elem_of_fmap_2 fst) in Hin.
Qed.

(** X26. [setLocalConfig] merges what it is given into the stored
    configuration: afterwards a key it was given reads as the value
    given, every other key as before. [getConfig] uses a stored value
    only when it is not the empty string: after [saveApiKey] with an
    empty value, the way the key is cleared, the key read is the default
    of the module, and [isApiKeyConfigured] tells whether that default is
    set. *)
Theorem saved_configuration_is_read {Number : Type}
    (parseFloat parseInt : string → Number) (defaultConfig : Config Number)
    (config : LocalConfig) (item : option LocalConfig) (value : string) :
  is_object config → is_object (getLocalConfig item) →
  (∀ key, obj_get (getLocalConfig (setLocalConfig config item)) key
          = match obj_get config key with
            | Some v => Some v
            | None => obj_get (getLocalConfig item) key
            end)
  ∧ apiKeys_openrouter
      (getConfig parseFloat parseInt defaultConfig
         (saveApiKey "OPENROUTER_API_KEY" value item))
    = (if decide (value = "") then apiKeys_openrouter defaultConfig else value)
  ∧ isApiKeyConfigured parseFloat parseInt defaultConfig
      (saveApiKey "OPENROUTER_API_KEY" "" item)
    = negb (bool_decide (apiKeys_openrouter defaultConfig = "")).
Proof.
  intros Hconfig Hitem.
  assert (∀ config key,
            is_object config →
            obj_get (getLocalConfig (setLocalConfig config item)) key
            = match obj_get config key with
              | Some v => Some v
              | None => obj_get (getLocalConfig item) key
              end) as Hread.
  { intros cfg key Hcfg. unfold setLocalConfig, spread2, is_object in *.
    assert (∀ o : LocalConfig,
              NoDup o.*1 → obj_get (JS.Object_entries o) key = obj_get o key)
      as Hentries.
    { intros o Ho. apply obj_get_perm; [by rewrite Object_entries_perm|].
      apply Object_entries_perm. }
    destruct (obj_get_fold (JS.Object_entries cfg)
                (JS.Object_entries (getLocalConfig item)) key) as [Hnd Hget].
    { by rewrite Object_entries_perm. }
    { by rewrite Object_entries_perm. }
    change (getLocalConfig (Some ?o)) with o.
    rewrite (Hentries _ Hnd), Hget, !Hentries by done. done. }
  assert (∀ v, apiKeys_openrouter
                 (getConfig parseFloat parseInt defaultConfig
                    (saveApiKey "OPENROUTER_API_KEY" v item))
               = (if decide (v = "") then apiKeys_openrouter defaultConfig else v))
    as Hkey.
  { intros v. unfold getConfig, saveApiKey, or_default. cbn [apiKeys_openrouter].
    rewrite Hread by (unfold is_object; simpl; repeat constructor; by inversion 1).
    simpl. done. }
  split_and!.
  - intros key. by apply Hread.
  - apply Hkey.
  - unfold isApiKeyConfigured. by rewrite Hkey.
Qed.

Lemma saved_configuration_is_read_witness :
  apiKeys_openrouter
    (getConfig (λ _, 0%Q) (λ _, 0%Q) Sample.defaults
       (saveApiKey "OPENROUTER_API_KEY" "" Sample.stored))
  = "sk-env".
Proof.
  assert (is_object [("OPENROUTER_API_KEY", "")]) as Hconfig.
  { apply (bool_decide_unpack _). vm_compute. exact I. }
  assert (is_object (getLocalConfig Sample.stored)) as Hitem.
  { apply (bool_decide_unpack _). vm_compute. exact I. }
  exact (proj1 (proj2 (saved_configuration_is_read (λ _, 0%Q) (λ _, 0%Q)
                         Sample.defaults _ Sample.stored "" Hconfig Hitem))).
Defined.

(** ** The review of a content *)

(** X27. [handleUpdateSection] gives the sections of the identifier the
    new text and review status and leaves every other section, and the
    order, as they are; it saves the updated content, so that the store
    holds it under the identifier of the content afterwards, in the place
    of the content of before. With an identifier that no section has, the
    content is saved again with a new time and nothing else changed. *)
Theorem review_updates_sections (sectionId newContent : string)
    (st : ReviewStatus) (now : Date) (content : GeneratedContent) (w : World) :
  let r := handleUpdateSection sectionId newContent st now (Some content) w in
  ∃ updated,
    r.1 = Some updated
    ∧ getGeneratedContentById (gc_id content) r.2 = Some updated
    ∧ gc_id updated = gc_id content ∧ gc_status updated = gc_status content
    ∧ gs_id <$> sections updated = gs_id <$> sections content
    ∧ Forall2 (λ s s', if decide (gs_id s = sectionId)
                       then gs_content s' = newContent ∧ reviewStatus s' = st
                            ∧ gs_title s' = gs_title s ∧ gs_type s' = gs_type s
                            ∧ sourceReferences s' = sourceReferences s
                       else s' = s)
              (sections content) (sections updated)
    ∧ (sectionId ∉ gs_id <$> sections content →
       sections updated = sections content)
    ∧ (∀ id, id ≠ gc_id content →
         getGeneratedContentById id r.2 = getGeneratedContentById id w).
Proof.
  simpl. eexists. split; [done|].
  unfold getGeneratedContentById, saveContent. simpl. split_and!.
  - match goal with |- context [saveGeneratedContentToStorage ?c _] =>
      apply (save_find c) end.
  - done.
  - done.
  - induction (sections content) as [|s secs IH]; [done|]. csimpl.
    rewrite IH. f_equal. unfold updateSection. by case_decide.
  - induction (sections content) as [|s secs IH]; [constructor|]. csimpl.
    constructor; [|done]. unfold updateSection. by case_decide.
  - induction (sections content) as [|s secs IH]; [done|]. csimpl.
    intros [Hs Hsecs]%not_elem_of_cons. rewrite IH by done.
    unfold updateSection. by rewrite decide_False by done.
  - intros id Hne. by apply save_find_other.
Qed.

(** ** Tables in a text *)

Lemma scan_line_invariant processed st line :
  scan_invariant processed st → scan_invariant (processed ++ [line]) (scan_line st line).
Proof.
  intros (Htables & Hcur & Hin & Hsub). unfold scan_line, scan_invariant.
  destruct (hasMultipleDelimiters line) eqn:Hline; simpl.
  - split_and!; [done| |by destruct (inTable st), (currentTable st)|].
    + apply Forall_app. split; [by destruct (inTable st)|by repeat constructor].
    + rewrite (assoc_L (++)). by apply sublist_app.
  - destruct (inTable st) eqn:Hst; simpl.
    + split_and!; [|constructor|done|].
      * destruct (Nat.ltb_spec 1 (length (currentTable st))); [|done].
        apply Forall_app. split; [done|]. repeat constructor; [lia|done].
      * rewrite app_nil_r.
        destruct (1 <? length (currentTable st)).
        -- rewrite concat_app. simpl. rewrite app_nil_r.
           by apply sublist_inserts_r.
        -- apply sublist_inserts_r. etrans; [|exact Hsub].
           by apply sublist_inserts_r.
    + rewrite Hst. split_and!; [done..|]. by apply sublist_inserts_r.
Qed.

Lemma scan_lines_invariant lines :
  scan_invariant lines
    (fold_left scan_line lines
       {| tables := []; currentTable := []; inTable := false |}).
Proof.
  induction lines as [|line lines IH] using rev_ind.
  - split_and!; [constructor|constructor|done|done].
  - rewrite fold_left_app. simpl. by apply scan_line_invariant.
Qed.

Lemma detectTables_invariant lines :
  Forall (λ t, 2 ≤ length t ∧ table_lines t) (detectTables lines)
  ∧ concat (detectTables lines) `sublist_of` lines.
Proof.
  unfold detectTables.
  destruct (scan_lines_invariant lines) as (Htables & Hcur & Hin & Hsub).
  destruct (inTable _) eqn:Hst; simpl.
  - destruct (Nat.ltb_spec 1 (length (currentTable
        (fold_left scan_line lines
           {| tables := []; currentTable := []; inTable := false |})))).
    + split.
      * apply Forall_app. split; [done|]. repeat constructor; [lia|done].
      * rewrite concat_app. simpl. by rewrite app_nil_r.
    + split; [done|]. etrans; [|exact Hsub]. by apply sublist_inserts_r.
  - split; [done|]. by rewrite app_nil_r in Hsub.
Qed.

Lemma sublist_filter_length {A} (P : A → Prop) `{∀ x, Decision (P x)} (l1 l2 : list A) :
  l1 `sublist_of` l2 → Forall P l1 → length l1 ≤ length (filter P l2).
Proof.
  induction 1 as [|x l1 l2 _ IH|x l1 l2 _ IH]; intros Hall.
  - simpl. lia.
  - apply Forall_cons in Hall as [Hx Hall]. rewrite filter_cons, decide_True by done.
    simpl. specialize (IH Hall). lia.
  - rewrite filter_cons. specialize (IH Hall). case_decide; simpl; lia.
Qed.

(** X28. The first pass of [detectAndParseTabularData] makes a table of
    lines that follow each other (empty lines between them do not count)
    and all have the delimiters, and only when they are two or more: every
    table it finds has at least two lines, the lines of the tables are
    lines of the text in their order, and a text with fewer than two lines
    with delimiters has no table. The second pass then has a first line
    for every table: the function does not throw, and returns as many
    tables as the first pass found. *)
Theorem tables_have_two_lines (text : string) :
  Forall (λ t, 2 ≤ length t ∧ table_lines t) (detectTables (text_lines text))
  ∧ concat (detectTables (text_lines text)) `sublist_of` text_lines text
  ∧ (length (filter (λ line, hasMultipleDelimiters line = true) (text_lines text)) < 2 →
     detectAndParseTabularData text = Some [])
  ∧ ∃ parsed, detectAndParseTabularData text = Some parsed
              ∧ length parsed = length (detectTables (text_lines text)).
Proof.
  destruct (detectTables_invariant (text_lines text)) as [Htables Hsub].
  split_and!; [done..| |].
  - intros Hfew. unfold detectAndParseTabularData.
    destruct (detectTables (text_lines text)) as [|t ts] eqn:Hts; [done|].
    exfalso. apply Forall_cons in Htables as [[Hlen Ht] _].
    assert (length t ≤ length (filter (λ line, hasMultipleDelimiters line = true)
                                      (text_lines text))) as Hle; [|lia].
    apply sublist_filter_length; [|done].
    etrans; [|exact Hsub]. simpl. by apply sublist_inserts_r.
  - unfold detectAndParseTabularData.
    destruct (mapM_is_Some_2 parseTable (detectTables (text_lines text)))
      as [parsed Hparsed].
    { eapply Forall_impl; [exact Htables|]. simpl.
      intros t [Hlen _]. destruct t; [simpl in Hlen; lia|]. by eexists. }
    exists parsed. split; [done|].
    apply mapM_Some_1 in Hparsed. symmetry. by eapply Forall2_length.
Qed.





(** A table of [|] whose first row of figures has a negative number: the
    row is taken for the line under the header and left out. *)
Example negative_row_is_dropped :
  detectAndParseTabularData
    ("| year | flow |" ++ nl ++ "| 2024 | -5 |" ++ nl ++ "| 2025 | 7 |")
  = Some [[[("year", "2025"); ("flow", "7")]]].
Proof. vm_compute. reflexivity. Qed.

(** ** Cancelling before the start *)

(** X30. [cancelJob] does not take back the timer [startGenerationJob] or
    [retryJob] has armed: when a queued job is cancelled, its execution
    stays scheduled, and when the timer fires [processJob] starts on the
    failed job as on any other, making it processing with progress 5 and
    leaving the error of the cancellation in it. *)
Theorem cancelled_queued_job_still_starts `{JSONParser} (w : World) (id : string)
    (now : Date) (env : Env) (i k : nat) (job : GenerationJob) (e : Execution) :
  registered_once w →
  getJobById id w = Some i →
  generationJobs w !! i = Some job → status job = queued →
  executions w !! k = Some e → ex_job e = i → ex_stage e = Scheduled →
  (cancelJob id now w).1 = true
  ∧ executions (cancelJob id now w).2 = executions w
  ∧ (status <$> generationJobs (cancelJob id now w).2 !! i) = Some failed
  ∧ ∃ w' job',
      resume k Timer env (cancelJob id now w).2 = Some w'
      ∧ generationJobs w' !! i = Some job'
      ∧ status job' = processing ∧ (progress job' == 5)%Q
      ∧ error job' = Some "Job cancelled by user"
      ∧ ex_stage <$> executions w' !! k = Some Delay500.
Proof.
  intros Hnd Hget Hi Hst He Hjob Hstage.
  destruct (cancelJob_cases id now w)
    as [Hno|(i' & job0 & Hget' & Hi' & _ & _ & Hyes)].
  { exfalso. revert Hno. unfold cancelJob. rewrite Hget, Hi.
    rewrite decide_False; [done|]. rewrite Hst. by intros [?|?]. }
  rewrite Hget in Hget'. injection Hget' as <-.
  rewrite Hi in Hi'. injection Hi' as <-.
  rewrite Hyes. simpl.
  set (cancelled := fail_with "Job cancelled by user" "Cancelled" now job).
  set (w1 := emitJobEvent cancelled
               (set_jobs (<[i := cancelled]> (generationJobs w)) w)).
  assert (generationJobs w1 !! i = Some cancelled) as Hi1.
  { simpl. apply list_lookup_insert_eq. by eapply lookup_lt_Some. }
  split_and!; [done|done| |].
  { change (status <$> generationJobs w1 !! i = Some failed). by rewrite Hi1. }
  change (∃ w' job',
            resume k Timer env w1 = Some w'
            ∧ generationJobs w' !! i = Some job'
            ∧ status job' = processing ∧ (progress job' == 5)%Q
            ∧ error job' = Some "Job cancelled by user"
            ∧ ex_stage <$> executions w' !! k = Some Delay500).
  assert (registered_once w1) as Hnd1.
  { unfold registered_once. simpl. by rewrite (insert_ids _ _ job). }
  rewrite <- Hjob in Hi1.
  destruct (resume_fold k Timer env w1 e cancelled
              [WStart; WProgress 5 "Analyzing documents and template"] Delay500
              Hnd1 He Hi1) as (w2 & Heff & ->).
  { unfold writes. by rewrite Hstage. }
  eexists _, _. split; [done|].
  pose proof (effect_lookup _ _ _ _ _ _ Hi1 Heff) as Hi2.
  rewrite Hjob in Hi2. simpl. split_and!; [exact Hi2|done|done|done|].
  destruct Heff as (_ & _ & -> & _).
  rewrite list_lookup_insert_eq by (by eapply lookup_lt_Some). done.
Qed.

Lemma cancelled_queued_job_still_starts_witness :
  registered_once Ex.queued_world
  ∧ (cancelJob "j1" 1 Ex.queued_world).1 = true
  ∧ ∃ w' job',
      @resume Ex.parser 0 Timer (Ex.env 2) (cancelJob "j1" 1 Ex.queued_world).2
      = Some w'
      ∧ generationJobs w' !! 0 = Some job' ∧ status job' = processing.
Proof.
  assert (registered_once Ex.queued_world) as Hnd.
  { apply (bool_decide_unpack _). vm_compute. exact I. }
  split; [exact Hnd|].
  assert (∃ job, generationJobs Ex.queued_world !! 0 = Some job
                 ∧ status job = queued) as (job & Hjob & Hst).
  { vm_compute. eauto. }
  assert (∃ e, executions Ex.queued_world !! 0 = Some e
               ∧ ex_job e = 0 ∧ ex_stage e = Scheduled) as (e & He & He0 & Hstage).
  { vm_compute. eauto. }
  destruct (@cancelled_queued_job_still_starts Ex.parser Ex.queued_world "j1" 1
              (Ex.env 2) 0 0 job e Hnd eq_refl Hjob Hst He He0 Hstage)
    as (Hyes & _ & _ & w' & job' & Hres & Hjob' & Hst' & _).
  split; [exact Hyes|]. exists w', job'. by split_and!.
Defined.
